(** * MidiTok byte pair encoding wrapper (miditok/bpe.py)

    A shallow embedding of the [BPE] class of [miditok/bpe.py]: the learner
    [bpe], the merge table [set_bpe_tokens_successions], the applier
    [apply_bpe], the decomposer [decompose_bpe], the hooks around the
    tokenizer underneath, [save_params], [load_params] and [__init__],
    followed by the properties of the codec.

    Python values are modelled as follows.
    - [int] is [Z]; a list index is a [nat] (the loops only use indices
      [i >= 0]).
    - [str] is [string]; [str.split], [str.join], [str(int)] and [int(str)]
      are written out below.
    - a [dict] is an association list in insertion order ([dict K V]), since
      [max(occurrences, ...)] and [bpe_successions.items()] depend on it.
    - an exception is a [Raise e] outcome; a loop that does not stop is a
      [Diverge] outcome of its fuel-indexed model.
    - a list mutated in place is a state threaded through the loop; module
      [Heap] writes the applier and the decomposer over a store of list
      objects, where the list passed, the list returned and the lists of the
      merge table may be the same object.
    - a JSON value read from a parameter file is a [Json]; [load_params]
      yields None for the few dictionaries that would leave the wrapper in a
      state its typed record cannot hold. *)

From Stdlib Require Import String Ascii ZArith List Decimal DecimalString
  DecimalZ DecimalPos.
From stdpp Require Import base tactics option list strings gmap.

Local Open Scope string_scope.
Local Open Scope list_scope.

(** ** Outcomes of Python code *)

Inductive PyError : Type :=
  | KeyError
  | ValueError
  | IndexError
  | AssertionError
  | ZeroDivisionError
  | TypeError
  | AttributeError.

Inductive result (A : Type) : Type :=
  | Ok (a : A)
  | Raise (e : PyError)
  | Diverge.

Arguments Ok {A} a.
Arguments Raise {A} e.
Arguments Diverge {A}.

Global Instance PyError_eq_dec : EqDecision PyError.
Proof. solve_decision. Defined.

Global Instance result_eq_dec {A} `{EqDecision A} : EqDecision (result A).
Proof. solve_decision. Defined.

Global Instance result_ret : MRet result := fun A a => Ok a.

Global Instance result_bind : MBind result := fun A B f m =>
  match m with
  | Ok a => f a
  | Raise e => Raise e
  | Diverge => Diverge
  end.

Global Instance result_fmap : FMap result := fun A B f m =>
  match m with
  | Ok a => Ok (f a)
  | Raise e => Raise e
  | Diverge => Diverge
  end.

Definition is_ok {A} (r : result A) : bool :=
  match r with Ok _ => true | _ => false end.

(** An outcome that is neither a loop cut short nor a division by zero. *)
Definition sane {A} (r : result A) : Prop :=
  r <> Diverge /\ r <> Raise ZeroDivisionError.

(** [map(f, xs)] consumed eagerly (by [list(...)], [+=]): the first failing
    element aborts. *)
Fixpoint map_result {A B} (f : A -> result B) (l : list A) : result (list B) :=
  match l with
  | [] => Ok []
  | x :: l' => y ← f x; ys ← map_result f l'; Ok (y :: ys)
  end.

(** ** Python strings *)

Module Str.

(** [s.split(sep)] for a one-character separator. The result is never empty. *)
Fixpoint split (sep : ascii) (s : string) : list string :=
  match s with
  | EmptyString => [EmptyString]
  | String c s' =>
      if Ascii.eqb c sep then EmptyString :: split sep s'
      else match split sep s' with
           | [] => [String c EmptyString]
           | w :: ws => String c w :: ws
           end
  end.

(** [sep.join(l)]. *)
Fixpoint join (sep : ascii) (l : list string) : string :=
  match l with
  | [] => EmptyString
  | [x] => x
  | x :: l' => x ++ String sep (join sep l')
  end.

(** [str(z)] for an [int]. *)
Definition of_int (z : Z) : string := NilZero.string_of_int (Z.to_int z).

(** [int(s)] on the strings this module writes: an optional minus sign and
    decimal digits. (Python also accepts surrounding blanks, a plus sign and
    underscores between digits; [of_int] and [join] never produce them.) *)
Definition to_int (s : string) : result Z :=
  match NilZero.int_of_string s with
  | Some d => Ok (Z.of_int d)
  | None => Raise ValueError
  end.

(** No character of [s] is [c]. *)
Fixpoint lacks (c : ascii) (s : string) : bool :=
  match s with
  | EmptyString => true
  | String c' s' => negb (Ascii.eqb c' c) && lacks c s'
  end.

Definition is_digit (c : ascii) : bool :=
  match c with
  | "0" | "1" | "2" | "3" | "4" | "5" | "6" | "7" | "8" | "9" => true
  | _ => false
  end%char.

Fixpoint all_chars (P : ascii -> bool) (s : string) : bool :=
  match s with
  | EmptyString => true
  | String c s' => P c && all_chars P s'
  end.

End Str.

(** ** Python dictionaries, in insertion order *)

Definition dict (K V : Type) : Type := list (K * V).

Section Dict.
Context {K V : Type} `{EqDecision K}.

(** [d[k]] (None stands for KeyError) and [d.get(k)]. *)
Fixpoint dict_get (k : K) (d : dict K V) : option V :=
  match d with
  | [] => None
  | (k', v) :: d' => if decide (k' = k) then Some v else dict_get k d'
  end.

(** [d[k] = v]: overwrite in place, or append a new key. *)
Fixpoint dict_set (k : K) (v : V) (d : dict K V) : dict K V :=
  match d with
  | [] => [(k, v)]
  | (k', v') :: d' =>
      if decide (k' = k) then (k, v) :: d' else (k', v') :: dict_set k v d'
  end.

Definition dict_keys (d : dict K V) : list K := map fst d.

Definition dict_getitem (k : K) (d : dict K V) : result V :=
  match dict_get k d with
  | Some v => Ok v
  | None => Raise KeyError
  end.

(** [{key: value for ... in items}]. *)
Definition dict_of_items (items : list (K * V)) : dict K V :=
  fold_left (fun d kv => dict_set (fst kv) (snd kv) d) items [].
End Dict.

(** ** Python lists mutated in place *)

(** [l[i]]. *)
Definition py_getitem {A} (l : list A) (i : nat) : result A :=
  match l !! i with
  | Some x => Ok x
  | None => Raise IndexError
  end.

(** [l[i] = x]. *)
Definition py_setitem (l : list Z) (i : nat) (x : Z) : result (list Z) :=
  if decide (i < length l) then Ok (<[i := x]> l) else Raise IndexError.

(** [del l[i]]. *)
Definition py_del (l : list Z) (i : nat) : result (list Z) :=
  if decide (i < length l) then Ok (take i l ++ drop (S i) l)
  else Raise IndexError.

(** [l.insert(i, x)]: past the end it appends. *)
Definition py_insert (l : list Z) (i : nat) (x : Z) : list Z :=
  take i l ++ x :: drop i l.

(** [l[i:j]]. *)
Definition py_slice (l : list Z) (i j : nat) : list Z :=
  take (j - i) (drop i l).

(** ** The vocabulary (miditok/vocabulary.py) *)

(** [_token_to_event] and [_event_to_token] are the two dictionaries that
    [load_params] assigns; [_token_types_indexes] is the index behind
    [tokens_of_type]. *)
Record Vocabulary : Type := {
  _token_to_event : dict Z string;
  _event_to_token : dict string Z;
  _token_types_indexes : dict string (list Z)
}.

(** [event.split('_')[0]] ([split] never returns an empty list). *)
Definition event_type (event : string) : string :=
  hd EmptyString (Str.split "_" event).

(** Modelled from the spec: the constructor [Vocabulary()] of the class
    [Vocabulary], which is not part of the sources at hand; a vocabulary is
    created empty. *)
Definition Vocabulary_new : Vocabulary :=
  {| _token_to_event := []; _event_to_token := []; _token_types_indexes := [] |}.

(** Modelled from the spec: [len(vocab)] of the missing class [Vocabulary],
    the current cardinality of the bijection. *)
Definition vocab_len (v : Vocabulary) : nat := length (_event_to_token v).

(** Modelled from the spec: [vocab[token]] of the missing class
    [Vocabulary], the lookup of a token, failing when the key is absent. *)
Definition vocab_getitem_int (v : Vocabulary) (token : Z) : result string :=
  dict_getitem token (_token_to_event v).

(** Modelled from the spec: [vocab[event]] of the missing class
    [Vocabulary], the lookup of a descriptor, failing when the key is
    absent. *)
Definition vocab_getitem_str (v : Vocabulary) (event : string) : result Z :=
  dict_getitem event (_event_to_token v).

(** One more token of category [event_type event] in the index. *)
Definition index_add (idx : dict string (list Z)) (token : Z) (event : string)
    : dict string (list Z) :=
  match dict_get (event_type event) idx with
  | Some l => dict_set (event_type event) (l ++ [token]) idx
  | None => dict_set (event_type event) [token] idx
  end.

(** Modelled from the spec: [update_token_types_indexes] of the missing class
    [Vocabulary], which recomputes the category index from the full
    bijection. *)
Definition update_token_types_indexes (v : Vocabulary) : Vocabulary :=
  {| _token_to_event := _token_to_event v;
     _event_to_token := _event_to_token v;
     _token_types_indexes :=
       fold_left (fun idx te => index_add idx (fst te) (snd te))
                 (_token_to_event v) [] |}.

(** Modelled from the spec: [tokens_of_type] of the missing class
    [Vocabulary], which returns the cached index of a category (no token for
    a category that has none). *)
Definition tokens_of_type (v : Vocabulary) (token_type : string) : list Z :=
  default [] (dict_get token_type (_token_types_indexes v)).

(** The next unused integer id: one more than every token in use. *)
Definition next_token (v : Vocabulary) : Z :=
  (fold_right Z.max (-1) (dict_keys (_token_to_event v)) + 1)%Z.

(** Modelled from the spec: [add_event] of the missing class [Vocabulary]. It
    fails if the descriptor is already there; otherwise it assigns the next
    unused integer id, inserts both directions of the bijection and keeps
    the category index up to date. *)
Definition add_event (v : Vocabulary) (event : string) : result Vocabulary :=
  match dict_get event (_event_to_token v) with
  | Some _ => Raise AssertionError
  | None =>
      let token := next_token v in
      Ok {| _token_to_event := dict_set token event (_token_to_event v);
            _event_to_token := dict_set event token (_event_to_token v);
            _token_types_indexes :=
              index_add (_token_types_indexes v) token event |}
  end.

(** ** The BPE wrapper *)

Record BPE : Type := {
  has_bpe : bool;
  vocab : Vocabulary;
  bpe_successions : dict Z (list Z);
  tokens_types_graph : dict string (list string)
}.

(** [sample['tokens']]: the tracks of a token file. *)
Definition Sample : Type := list (list Z).

(** [event.split('_')[1].split('.')[0].split('-')] through [map(int, ...)]:
    the immediate succession written in a BPE descriptor. *)
Definition succession_of_event (event : string) : result (list Z) :=
  val ← py_getitem (Str.split "_" event) 1;
  part ← py_getitem (Str.split "." val) 0;
  map_result Str.to_int (Str.split "-" part).

(** [event.split('_')[1].split('.')[1].split('-')] through [map(int, ...)]:
    the full decomposition written in a BPE descriptor. *)
Definition decomposition_of_event (event : string) : result (list Z) :=
  val ← py_getitem (Str.split "_" event) 1;
  part ← py_getitem (Str.split "." val) 1;
  map_result Str.to_int (Str.split "-" part).

(** *** Learning (method [bpe]) *)

(** [occurrences[key] += 1], or [= 1] on KeyError. *)
Definition count_pair (occurrences : dict (list Z) nat) (key : list Z)
    : dict (list Z) nat :=
  match dict_get key occurrences with
  | Some n => dict_set key (n + 1) occurrences
  | None => dict_set key 1 occurrences
  end.

(** [for i in range(len(track) - 1)] of the counting phase. *)
Definition count_track (occurrences : dict (list Z) nat) (track : list Z)
    : dict (list Z) nat :=
  fold_left (fun occ i => count_pair occ (py_slice track i (i + 2)))
            (seq 0 (length track - 1)) occurrences.

Definition count_occurrences (samples : list Sample) : dict (list Z) nat :=
  fold_left (fun occ sample => fold_left count_track sample occ) samples [].

(** [max(occurrences, key=occurrences.get)]: the first key, in insertion
    order, of maximal count; ValueError on an empty dictionary. *)
Definition py_max_key (occurrences : dict (list Z) nat) : result (list Z) :=
  match dict_keys occurrences with
  | [] => Raise ValueError
  | k :: ks =>
      Ok (fold_left
            (fun best k' =>
               if decide (default 0 (dict_get best occurrences)
                          < default 0 (dict_get k' occurrences))
               then k' else best)
            ks k)
  end.

(** The body of [for token in to_replace]: what one token adds to
    [to_replace_bis]. *)
Definition flatten_token (v : Vocabulary) (token : Z) : result (list Z) :=
  event ← dict_getitem token (_token_to_event v);
  if decide (event_type event = "BPE") then decomposition_of_event event
  else Ok [token].

Definition to_replace_bis (v : Vocabulary) (to_replace : list Z)
    : result (list Z) :=
  (fun parts => concat parts) <$> map_result (flatten_token v) to_replace.

(** ['-'.join(map(str, to_replace)) + '.' + '-'.join(map(str, bis))]. *)
Definition to_replace_str (to_replace bis : list Z) : string :=
  Str.join "-" (map Str.of_int to_replace) ++ "."
  ++ Str.join "-" (map Str.of_int bis).

(** Modelled from the spec: [str(Event(type_='BPE', value=...))] of the
    missing class [Event], the descriptor ["BPE_<pair>.<decomposition>"]
    (line 91 of bpe.py looks the new token up under this very key). *)
Definition bpe_event (value : string) : string := "BPE_" ++ value.

(** The [while i < len(track) - 1] loop that rewrites one track. The track
    loses no more than one token per turn, so [length track] turns are
    enough. *)
Fixpoint replace_loop (fuel : nat) (v : Vocabulary) (key : string)
    (to_replace : list Z) (i : nat) (track : list Z) : result (list Z) :=
  match fuel with
  | O => Diverge
  | S fuel' =>
      if decide (i < length track - 1) then
        if decide (py_slice track i (i + 2) = to_replace) then
          new ← vocab_getitem_str v key;
          track1 ← py_setitem track i new;
          track2 ← py_del track1 (i + 1);
          replace_loop fuel' v key to_replace (i + 1) track2
        else replace_loop fuel' v key to_replace (i + 1) track
      else Ok track
  end.

Definition replace_track (v : Vocabulary) (key : string) (to_replace : list Z)
    (track : list Z) : result (list Z) :=
  replace_loop (S (length track)) v key to_replace 0 track.

Definition replace_samples (v : Vocabulary) (key : string)
    (to_replace : list Z) (samples : list Sample) : result (list Sample) :=
  map_result (map_result (replace_track v key to_replace)) samples.

(** One turn of [while len(self.vocab) < vocab_size]. The vocabulary that is
    returned is the one the turn leaves behind, also when it raises. *)
Definition bpe_iteration (v : Vocabulary) (samples : list Sample)
    : Vocabulary * result (list Sample) :=
  match py_max_key (count_occurrences samples) with
  | Ok to_replace =>
      match to_replace_bis v to_replace with
      | Ok bis =>
          let event := bpe_event (to_replace_str to_replace bis) in
          match add_event v event with
          | Ok v' => (v', replace_samples v' event to_replace samples)
          | Raise e => (v, Raise e)
          | Diverge => (v, Diverge)
          end
      | Raise e => (v, Raise e)
      | Diverge => (v, Diverge)
      end
  | Raise e => (v, Raise e)
  | Diverge => (v, Diverge)
  end.

Fixpoint bpe_loop (fuel : nat) (vocab_size : Z) (v : Vocabulary)
    (samples : list Sample) : Vocabulary * result (list Sample) :=
  match fuel with
  | O => (v, Diverge)
  | S fuel' =>
      if decide (Z.of_nat (vocab_len v) < vocab_size)%Z then
        match bpe_iteration v samples with
        | (v', Ok samples') => bpe_loop fuel' vocab_size v' samples'
        | (v', r) => (v', r)
        end
      else (v, Ok samples)
  end.

(** [set_bpe_tokens_successions]: the dictionary it assigns to
    [self.bpe_successions]. *)
Definition set_bpe_tokens_successions (v : Vocabulary)
    : result (dict Z (list Z)) :=
  dict_of_items <$>
    map_result (fun tok =>
                  event ← dict_getitem tok (_token_to_event v);
                  succ ← succession_of_event event;
                  Ok (tok, succ))
               (tokens_of_type v "BPE").

(** [add_bpe_to_tokens_type_graph]. *)
Definition add_bpe_to_tokens_type_graph (g : dict string (list string))
    : dict string (list string) :=
  let g' := map (fun kv => (fst kv, snd kv ++ ["BPE"])) g in
  dict_set "BPE" (dict_keys g') g'.

(** [[len(track) for track in file['tokens']]] over all the files. *)
Definition track_lengths (samples : list Sample) : list nat :=
  concat (map (map (@length Z)) samples).

(** The method [bpe] on the token files already loaded ([samples]; the
    files are read from disk and [files_lim] is left at its default, so that
    all of them are used). It returns the wrapper as the call leaves it and,
    when it completes, the rewritten samples (the ones
    [save_converted_samples] would write). The loop adds one token per
    turn, so [vocab_size - len(self.vocab)] turns are enough. The last step
    is the division by [original_mean] of line 109, which is zero exactly
    when the original lengths sum to zero. *)
Definition bpe (self : BPE) (samples : list Sample) (vocab_size : Z)
    : BPE * result (list Sample) :=
  if decide (vocab_size > Z.of_nat (vocab_len (vocab self)))%Z then
    let original_lengths := track_lengths samples in
    let fuel := S (Z.to_nat (vocab_size - Z.of_nat (vocab_len (vocab self)))) in
    match bpe_loop fuel vocab_size (vocab self) samples with
    | (v, Ok samples') =>
        let self1 := {| has_bpe := true; vocab := v;
                        bpe_successions := bpe_successions self;
                        tokens_types_graph := tokens_types_graph self |} in
        match set_bpe_tokens_successions v with
        | Ok succs =>
            let self2 :=
              {| has_bpe := true;
                 vocab := update_token_types_indexes v;
                 bpe_successions := succs;
                 tokens_types_graph :=
                   add_bpe_to_tokens_type_graph (tokens_types_graph self) |} in
            if decide (list_sum original_lengths = 0) then
              (self2, Raise ZeroDivisionError)
            else (self2, Ok samples')
        | Raise e => (self1, Raise e)
        | Diverge => (self1, Diverge)
        end
    | (v, Raise e) =>
        ({| has_bpe := has_bpe self; vocab := v;
            bpe_successions := bpe_successions self;
            tokens_types_graph := tokens_types_graph self |}, Raise e)
    | (v, Diverge) =>
        ({| has_bpe := has_bpe self; vocab := v;
            bpe_successions := bpe_successions self;
            tokens_types_graph := tokens_types_graph self |}, Diverge)
    end
  else (self, Raise AssertionError).

(** *** Applying the merges (method [apply_bpe]) *)

(** The functions named [_run] return the list as the call leaves it,
    together with the outcome: the list is rewritten in place, also when the
    call raises half way. *)

(** [for _ in range(n): del tokens[i]]. *)
Fixpoint del_times (n i : nat) (tokens : list Z) : list Z * result unit :=
  match n with
  | O => (tokens, Ok tt)
  | S n' =>
      match py_del tokens i with
      | Ok tokens' => del_times n' i tokens'
      | Raise e => (tokens, Raise e)
      | Diverge => (tokens, Diverge)
      end
  end.

(** The [while i <= len(tokens) - len(token_succession)] loop, the test
    written as [i + len(token_succession) <= len(tokens)]. *)
Fixpoint apply_scan (fuel : nat) (tok : Z) (token_succession : list Z)
    (i : nat) (tokens : list Z) : list Z * result unit :=
  match fuel with
  | O => (tokens, Diverge)
  | S fuel' =>
      if decide (i + length token_succession <= length tokens) then
        if decide (py_slice tokens i (i + length token_succession)
                   = token_succession) then
          match py_setitem tokens i tok with
          | Ok tokens1 =>
              match del_times (length token_succession - 1) (i + 1) tokens1 with
              | (tokens2, Ok _) =>
                  apply_scan fuel' tok token_succession (i + 1) tokens2
              | (tokens2, r) => (tokens2, r)
              end
          | Raise e => (tokens, Raise e)
          | Diverge => (tokens, Diverge)
          end
        else apply_scan fuel' tok token_succession (i + 1) tokens
      else (tokens, Ok tt)
  end.

(** [for tok, token_succession in self.bpe_successions.items()]. The scan
    moves [i] from 0 to at most [len(tokens)], hence its fuel. *)
Fixpoint apply_round (successions : dict Z (list Z)) (tokens : list Z)
    : list Z * result unit :=
  match successions with
  | [] => (tokens, Ok tt)
  | (tok, token_succession) :: rest =>
      match apply_scan (S (S (length tokens))) tok token_succession 0 tokens with
      | (tokens', Ok _) => apply_round rest tokens'
      | (tokens', r) => (tokens', r)
      end
  end.

(** [while previous_len != len(tokens)]. *)
Fixpoint apply_rounds (fuel : nat) (successions : dict Z (list Z))
    (previous_len : nat) (tokens : list Z) : list Z * result unit :=
  match fuel with
  | O => (tokens, Diverge)
  | S fuel' =>
      if decide (previous_len <> length tokens) then
        match apply_round successions tokens with
        | (tokens', Ok _) =>
            apply_rounds fuel' successions (length tokens) tokens'
        | (tokens', r) => (tokens', r)
        end
      else (tokens, Ok tt)
  end.

(** Every round but the last one shortens the list, so [len(tokens) + 2]
    turns of the outer loop are enough. *)
Definition apply_bpe_run (self : BPE) (tokens : list Z)
    : list Z * result unit :=
  if negb (has_bpe self) then (tokens, Ok tt)
  else apply_rounds (S (S (length tokens))) (bpe_successions self)
                    (length tokens + 1) tokens.

(** What a [_run] returns to its caller: the list itself. *)
Definition returned (run : list Z * result unit) : result (list Z) :=
  match run with
  | (tokens, Ok _) => Ok tokens
  | (_, Raise e) => Raise e
  | (_, Diverge) => Diverge
  end.

Definition apply_bpe (self : BPE) (tokens : list Z) : result (list Z) :=
  returned (apply_bpe_run self tokens).

(** *** Decomposing (method [decompose_bpe]) *)

(** [for j, to_insert in enumerate(map(int, parts)): tokens.insert(i + j,
    to_insert)]; [map] is lazy, so the tokens before a part that is no
    integer are already inserted when [int] raises. *)
Fixpoint insert_parts (i j : nat) (parts : list string) (tokens : list Z)
    : list Z * result unit :=
  match parts with
  | [] => (tokens, Ok tt)
  | part :: parts' =>
      match Str.to_int part with
      | Ok to_insert =>
          insert_parts i (j + 1) parts' (py_insert tokens (i + j) to_insert)
      | Raise e => (tokens, Raise e)
      | Diverge => (tokens, Diverge)
      end
  end.

(** The [while i < len(tokens)] loop. The unpacking
    [token_type, token_val = ....split('_')] raises ValueError unless the
    descriptor has exactly two fields. The loop need not stop (a descriptor
    may list its own token), hence the fuel. *)
Fixpoint decompose_loop (fuel : nat) (v : Vocabulary) (i : nat)
    (tokens : list Z) : list Z * result unit :=
  match fuel with
  | O => (tokens, Diverge)
  | S fuel' =>
      if decide (i < length tokens) then
        match (token ← py_getitem tokens i; vocab_getitem_int v token) with
        | Ok event =>
            match Str.split "_" event with
            | [token_type; token_val] =>
                if decide (token_type = "BPE") then
                  match py_del tokens i with
                  | Ok tokens1 =>
                      match py_getitem (Str.split "." token_val) 1 with
                      | Ok part =>
                          match insert_parts i 0 (Str.split "-" part) tokens1 with
                          | (tokens2, Ok _) =>
                              decompose_loop fuel' v (i + 1) tokens2
                          | (tokens2, r) => (tokens2, r)
                          end
                      | Raise e => (tokens1, Raise e)
                      | Diverge => (tokens1, Diverge)
                      end
                  | Raise e => (tokens, Raise e)
                  | Diverge => (tokens, Diverge)
                  end
                else decompose_loop fuel' v (i + 1) tokens
            | _ => (tokens, Raise ValueError)
            end
        | Raise e => (tokens, Raise e)
        | Diverge => (tokens, Diverge)
        end
      else (tokens, Ok tt)
  end.

Definition decompose_bpe_run (fuel : nat) (self : BPE) (tokens : list Z)
    : list Z * result unit :=
  decompose_loop fuel (vocab self) 0 tokens.

Definition decompose_bpe (fuel : nat) (self : BPE) (tokens : list Z)
    : result (list Z) :=
  returned (decompose_bpe_run fuel self tokens).

(** *** The beat resolutions in the parameter file *)

(** [{f'{k1}_{k2}': v for (k1, k2), v in self.beat_res.items()}] of
    [save_params]: the beat ranges become strings, since JSON has no tuple
    keys. *)
Definition save_beat_res {V} (beat_res : dict (Z * Z) V) : dict string V :=
  dict_of_items
    (map (fun kv => (Str.of_int kv.1.1 ++ "_" ++ Str.of_int kv.1.2, kv.2)%string)
         beat_res).

(** [{tuple(map(int, beat_range.split('_'))): res for beat_range, res in
    value.items()}] of [load_params]; a tuple of integers is a list. *)
Definition load_beat_res {V} (value : dict string V)
    : result (dict (list Z) V) :=
  dict_of_items <$>
    map_result (fun kv =>
                  beat_range ← map_result Str.to_int (Str.split "_" kv.1);
                  Ok (beat_range, kv.2))
               value.

(** *** Loading (method [load_params]) *)

(** A value of the parameter dictionary, as [json.load] gives it: [None], a
    [bool], an [int], a [float], a [str], a [list] or a [dict] with string
    keys. Of a real number the code of this file can only observe whether it
    is zero. *)
#[local] Unset Elimination Schemes.
Inductive Json : Type :=
  | JNull
  | JBool (b : bool)
  | JInt (z : Z)
  | JFloat (nonzero : bool)
  | JStr (s : string)
  | JList (l : list Json)
  | JDict (d : list (string * Json)).
#[local] Set Elimination Schemes.

(** [bool(value)]: what a condition sees of the value. *)
Definition truthy (value : Json) : bool :=
  match value with
  | JNull => false
  | JBool b => b
  | JInt z => negb (bool_decide (z = 0%Z))
  | JFloat nonzero => nonzero
  | JStr s => negb (bool_decide (s = ""))
  | JList l => match l with [] => false | _ => true end
  | JDict d => match d with [] => false | _ => true end
  end.

(** An argument that [range] accepts: an [int], which a [bool] is. *)
Definition range_arg (value : Json) : option Z :=
  match value with
  | JInt z => Some z
  | JBool b => Some (if b then 1 else 0)%Z
  | _ => None
  end.

(** [range] on the unpacked value (line 245), as (start, stop, step). It
    raises TypeError unless the value is a list of one to three integers (a
    string or a dict unpacks into strings, the other values do not unpack),
    and ValueError on a step of zero. *)
Definition range_args (value : Json) : result (Z * Z * Z) :=
  match value with
  | JList l =>
      match mapM range_arg l with
      | Some [stop] => Ok (0, stop, 1)%Z
      | Some [start; stop] => Ok (start, stop, 1%Z)
      | Some [start; stop; step] =>
          if decide (step = 0%Z) then Raise ValueError
          else Ok (start, stop, step)
      | _ => Raise TypeError
      end
  | _ => Raise TypeError
  end.

(** [int(token)] on every key of the serialized bijection, which both
    dictionary comprehensions do. *)
Definition int_keys (value : list (string * string))
    : result (list (Z * string)) :=
  map_result (fun te => token ← Str.to_int (fst te); Ok (token, snd te)) value.

(** Lines 255-259 on a JSON object whose values are strings. [self.vocab] is
    replaced by a fresh vocabulary before the keys go through [int]. *)
Definition load_token_to_event (self : BPE) (value : list (string * string))
    : BPE * result unit :=
  match int_keys value with
  | Ok items =>
      let v := update_token_types_indexes
                 {| _token_to_event := dict_of_items items;
                    _event_to_token :=
                      dict_of_items (map (fun te => (snd te, fst te)) items);
                    _token_types_indexes := [] |} in
      ({| has_bpe := bool_decide (0 < length (tokens_of_type v "BPE"));
          vocab := v;
          bpe_successions := bpe_successions self;
          tokens_types_graph := tokens_types_graph self |}, Ok tt)
  | Raise e =>
      ({| has_bpe := has_bpe self; vocab := Vocabulary_new;
          bpe_successions := bpe_successions self;
          tokens_types_graph := tokens_types_graph self |}, Raise e)
  | Diverge => (self, Diverge)
  end.

(** The descriptors of a JSON object, when all its values are strings. *)
Definition descriptors (d : list (string * Json))
    : option (list (string * string)) :=
  mapM (fun te => match te.2 with
                  | JStr event => Some (te.1, event)
                  | _ => None
                  end) d.

(** The branch [key == 'token_to_event'] (lines 255-260) on any JSON value.
    A value that is no object has no [items]: AttributeError, the
    vocabulary being already replaced. The result is None, outside this
    model, for an object with integer keys one of whose values is no
    string: the vocabulary would then hold a descriptor that is no string,
    which [Vocabulary] has no place for. *)
Definition load_vocabulary (self : BPE) (value : Json)
    : option (BPE * result unit) :=
  let cleared := {| has_bpe := has_bpe self; vocab := Vocabulary_new;
                    bpe_successions := bpe_successions self;
                    tokens_types_graph := tokens_types_graph self |} in
  match value with
  | JDict d =>
      match descriptors d with
      | Some items => Some (load_token_to_event self items)
      | None =>
          match map_result (fun te : string * Json => Str.to_int te.1) d with
          | Raise e => Some (cleared, Raise e)
          | _ => None
          end
      end
  | _ => Some (cleared, Raise AttributeError)
  end.

(** The names that the code of this file reads on [self] besides [has_bpe]:
    its attributes and the methods it calls. *)
Definition wrapper_names : list string :=
  ["vocab"; "bpe_successions"; "tokens_types_graph"; "bpe";
   "set_bpe_tokens_successions"; "apply_bpe"; "apply_bpe_to_dataset";
   "midi_to_tokens"; "tokens_to_events"; "decompose_bpe";
   "token_types_errors"; "add_bpe_to_tokens_type_graph"; "save_params";
   "load_params"; "load_tokens"; "save_tokens"].

(** [setattr(self, key, value)] of line 261. Under [has_bpe] the flag takes
    the truth value of [value] (the code only ever tests the flag). The
    result is None, outside this model, when [key] is one of
    [wrapper_names] or a special name (two leading underscores): the
    attribute or method would become a JSON value. Any other key is an
    attribute of the tokenizer underneath, which this model does not
    hold. *)
Definition set_attribute (self : BPE) (key : string) (value : Json)
    : option BPE :=
  if decide (key = "has_bpe") then
    Some {| has_bpe := truthy value; vocab := vocab self;
            bpe_successions := bpe_successions self;
            tokens_types_graph := tokens_types_graph self |}
  else if bool_decide (key ∈ wrapper_names) || String.prefix "__" key then None
  else Some self.

(** The body of [for key, value in params.items()] (lines 248-261). Under
    [beat_res] a value that is no object has no [items], under
    [additional_tokens] it has no [get]: AttributeError. *)
Definition load_entry (self : BPE) (key : string) (value : Json)
    : option (BPE * result unit) :=
  if decide (key = "encoding") then Some (self, Ok tt)
  else if decide (key = "beat_res") then
    match value with
    | JDict d =>
        match load_beat_res d with
        | Ok _ => Some (self, Ok tt)
        | Raise e => Some (self, Raise e)
        | Diverge => Some (self, Diverge)
        end
    | _ => Some (self, Raise AttributeError)
    end
  else if decide (key = "additional_tokens") then
    match value with
    | JDict _ => Some (self, Ok tt)
    | _ => Some (self, Raise AttributeError)
    end
  else if decide (key = "token_to_event") then load_vocabulary self value
  else self' ← set_attribute self key value; Some (self', Ok tt).

(** [for key, value in params.items()]: the first entry that raises ends the
    loop, the entries before it having taken effect. *)
Fixpoint load_items (self : BPE) (items : list (string * Json))
    : option (BPE * result unit) :=
  match items with
  | [] => Some (self, Ok tt)
  | (key, value) :: items' =>
      match load_entry self key value with
      | Some (self', Ok _) => load_items self' items'
      | outcome => outcome
      end
  end.

(** [load_params] on a parameter dictionary already read from its file
    (lines 244-261). [params['pitch_range']] raises KeyError when the key is
    missing, and [range] may raise; the loop then meets that key as any
    other attribute of the tokenizer underneath. (The call also writes to
    [params] itself: the range, and the default of [TimeSignature].) *)
Definition load_params (self : BPE) (params : dict string Json)
    : option (BPE * result unit) :=
  match dict_get "pitch_range" params with
  | Some value =>
      match range_args value with
      | Ok _ => load_items self params
      | Raise e => Some (self, Raise e)
      | Diverge => Some (self, Diverge)
      end
  | None => Some (self, Raise KeyError)
  end.

(** The tokenizer a parameter dictionary loads into [self], for a dictionary
    within this model ([self] itself otherwise). *)
Definition loaded (self : BPE) (params : dict string Json) : BPE :=
  match load_params self params with
  | Some (self', _) => self'
  | None => self
  end.

(** *** Saving (method [save_params]) *)

(** The attributes of the tokenizer underneath that [save_params] writes:
    the bounds of [pitch_range], the beat resolutions, [len(velocities)],
    and [additional_tokens], [_sos_eos] and [_mask] as JSON gives them back;
    [base_name] is the name of the class that is wrapped. *)
Record TokenizerParams : Type := {
  pitch_range : Z * Z;
  beat_res : dict (Z * Z) Json;
  nb_velocities : nat;
  additional_tokens : dict string Json;
  _sos_eos : bool;
  _mask : bool;
  base_name : string
}.

(** The dictionary [save_params] hands to [json.dump], as [json.load] reads
    it back from the file: a tuple comes back as a list, and JSON object
    keys are strings, so the integer keys of [token_to_event] come back as
    [str(token)]. *)
Definition save_params (self : BPE) (params : TokenizerParams)
    : dict string Json :=
  [("pitch_range",
    JList [JInt (pitch_range params).1; JInt (pitch_range params).2]);
   ("beat_res", JDict (save_beat_res (beat_res params)));
   ("nb_velocities", JInt (Z.of_nat (nb_velocities params)));
   ("additional_tokens", JDict (additional_tokens params));
   ("_sos_eos", JBool (_sos_eos params));
   ("_mask", JBool (_mask params));
   ("encoding", JStr (base_name params ++ "_bpe"));
   ("token_to_event",
    JDict (map (fun te => (Str.of_int te.1, JStr te.2))
               (_token_to_event (vocab self))))].

(** *** Construction (method [__init__]) *)

(** [__init__] from the state [super().__init__] leaves behind (it has
    loaded the parameters, if any were given, and so may have set
    [has_bpe]): the merge table is emptied, and built again when [has_bpe]
    holds. *)
Definition __init__ (self : BPE) : BPE * result unit :=
  if has_bpe self then
    let graph := add_bpe_to_tokens_type_graph (tokens_types_graph self) in
    match set_bpe_tokens_successions (vocab self) with
    | Ok succs =>
        ({| has_bpe := true;
            vocab := update_token_types_indexes (vocab self);
            bpe_successions := succs;
            tokens_types_graph := graph |}, Ok tt)
    | Raise e =>
        ({| has_bpe := true; vocab := vocab self; bpe_successions := [];
            tokens_types_graph := graph |}, Raise e)
    | Diverge =>
        ({| has_bpe := true; vocab := vocab self; bpe_successions := [];
            tokens_types_graph := graph |}, Diverge)
    end
  else
    ({| has_bpe := false; vocab := vocab self; bpe_successions := [];
        tokens_types_graph := tokens_types_graph self |}, Ok tt).

(** *** The hooks around the tokenizer underneath *)

(** [midi_to_tokens] on the tracks [super().midi_to_tokens] returned. *)
Definition midi_to_tokens (self : BPE) (tokens : list (list Z))
    : result (list (list Z)) :=
  if has_bpe self then map_result (apply_bpe self) tokens else Ok tokens.

(** [tokens_to_events], with the method of the tokenizer underneath as a
    parameter. *)
Definition tokens_to_events {A} (fuel : nat) (self : BPE)
    (super_tokens_to_events : list Z -> A) (tokens : list Z) : result A :=
  super_tokens_to_events <$> decompose_bpe fuel self tokens.

(** [token_types_errors], with the method of the tokenizer underneath as a
    parameter. *)
Definition token_types_errors {A} (fuel : nat) (self : BPE)
    (super_token_types_errors : list Z -> bool -> A) (tokens : list Z)
    (consider_pad : bool) : result A :=
  (fun tokens' => super_token_types_errors tokens' consider_pad)
    <$> decompose_bpe fuel self tokens.

(** The loop of [apply_bpe_to_dataset] over the token files: the samples
    saved so far, and the outcome. *)
Fixpoint apply_bpe_to_files (self : BPE) (samples : list Sample)
    : list Sample * result unit :=
  match samples with
  | [] => ([], Ok tt)
  | sample :: samples' =>
      match map_result (apply_bpe self) sample with
      | Ok sample_bpe =>
          ((sample_bpe :: (apply_bpe_to_files self samples').1),
           (apply_bpe_to_files self samples').2)
      | Raise e => ([], Raise e)
      | Diverge => ([], Diverge)
      end
  end.

(** [apply_bpe_to_dataset] on the token files of the dataset: what it saves
    to [out_path]. *)
Definition apply_bpe_to_dataset (self : BPE) (samples : list Sample)
    : list Sample * result unit :=
  if negb (has_bpe self) then ([], Ok tt) else apply_bpe_to_files self samples.

(** ** The traced scenario *)

Module Scenario.

(** Four primitive tokens 0..3, added one by one to an empty vocabulary. *)
Definition base_vocab : Vocabulary :=
  fold_left (fun v event =>
               match add_event v event with Ok v' => v' | _ => v end)
            ["Pitch_60"; "Pitch_61"; "Pitch_62"; "Pitch_63"] Vocabulary_new.

Definition tokenizer : BPE :=
  {| has_bpe := false; vocab := base_vocab; bpe_successions := [];
     tokens_types_graph := [("Pitch", ["Pitch"])] |}.

Definition corpus : list Sample := [[[0; 1; 0; 1; 2]]]%Z.

Definition learned : BPE := (bpe tokenizer corpus 5).1.

End Scenario.

(** *** List objects and aliasing *)

Module Heap.

(** A Python list is an object: the caller and the callee hold the same
    one, and so may the merge table. [Store] maps the address of each list
    object to its content. *)
Abbreviation Store := (gmap nat (list Z)).

(** The wrapper with its list objects: [successions] is
    [self.bpe_successions], each token with the address of its list. A
    function on the store yields None when it meets an address that holds
    no list, which no Python program can pass. *)
Record World : Type := {
  flag : bool;
  vocabulary : Vocabulary;
  successions : dict Z nat;
  graph : dict string (list string);
  store : Store
}.

Definition with_store (w : World) (s : Store) : World :=
  {| flag := flag w; vocabulary := vocabulary w; successions := successions w;
     graph := graph w; store := s |}.

(** The merge table with the content of its lists. *)
Definition table (successions : dict Z nat) (s : Store)
    : option (dict Z (list Z)) :=
  mapM (fun ts => succ ← s !! ts.2; Some (ts.1, succ)) successions.

(** The wrapper as a value. *)
Definition codec (w : World) : option BPE :=
  succs ← table (successions w) (store w);
  Some {| has_bpe := flag w; vocab := vocabulary w; bpe_successions := succs;
          tokens_types_graph := graph w |}.

(** [for _ in range(n): del tokens[i]] on the list at address [tokens]. *)
Fixpoint del_times (n i : nat) (tokens : nat) (s : Store)
    : option (Store * result unit) :=
  match n with
  | O => Some (s, Ok tt)
  | S n' =>
      content ← s !! tokens;
      match py_del content i with
      | Ok content' => del_times n' i tokens (<[tokens := content']> s)
      | Raise e => Some (s, Raise e)
      | Diverge => Some (s, Diverge)
      end
  end.

(** The [while i <= len(tokens) - len(token_succession)] loop of
    [apply_bpe]: both lists are read from the store at every use, and
    [range(len(token_succession) - 1)] after the assignment
    [tokens[i] = tok]. *)
Fixpoint apply_scan (fuel : nat) (tok : Z) (token_succession : nat) (i : nat)
    (tokens : nat) (s : Store) : option (Store * result unit) :=
  match fuel with
  | O => Some (s, Diverge)
  | S fuel' =>
      content ← s !! tokens;
      succ ← s !! token_succession;
      if decide (i + length succ <= length content) then
        if decide (py_slice content i (i + length succ) = succ) then
          match py_setitem content i tok with
          | Ok content1 =>
              let s1 := <[tokens := content1]> s in
              succ1 ← s1 !! token_succession;
              run ← del_times (length succ1 - 1) (i + 1) tokens s1;
              match run with
              | (s2, Ok _) =>
                  apply_scan fuel' tok token_succession (i + 1) tokens s2
              | (s2, r) => Some (s2, r)
              end
          | Raise e => Some (s, Raise e)
          | Diverge => Some (s, Diverge)
          end
        else apply_scan fuel' tok token_succession (i + 1) tokens s
      else Some (s, Ok tt)
  end.

(** [for tok, token_succession in self.bpe_successions.items()]. *)
Fixpoint apply_round (successions : dict Z nat) (tokens : nat) (s : Store)
    : option (Store * result unit) :=
  match successions with
  | [] => Some (s, Ok tt)
  | (tok, token_succession) :: rest =>
      content ← s !! tokens;
      run ← apply_scan (S (S (length content))) tok token_succession 0 tokens s;
      match run with
      | (s', Ok _) => apply_round rest tokens s'
      | (s', r) => Some (s', r)
      end
  end.

(** [while previous_len != len(tokens)]. *)
Fixpoint apply_rounds (fuel : nat) (successions : dict Z nat)
    (previous_len : nat) (tokens : nat) (s : Store)
    : option (Store * result unit) :=
  match fuel with
  | O => Some (s, Diverge)
  | S fuel' =>
      content ← s !! tokens;
      if decide (previous_len <> length content) then
        run ← apply_round successions tokens s;
        match run with
        | (s', Ok _) =>
            apply_rounds fuel' successions (length content) tokens s'
        | (s', r) => Some (s', r)
        end
      else Some (s, Ok tt)
  end.

(** [apply_bpe] on the list object at address [tokens]: the world after the
    call, and the address returned. *)
Definition apply_bpe (w : World) (tokens : nat)
    : option (World * result nat) :=
  match store w !! tokens with
  | Some content =>
      if negb (flag w) then Some (w, Ok tokens)
      else
        match apply_rounds (S (S (length content))) (successions w)
                           (length content + 1) tokens (store w) with
        | Some run => Some (with_store w run.1, (fun _ => tokens) <$> run.2)
        | None => None
        end
  | None => None
  end.

(** [for j, to_insert in enumerate(map(int, parts)): tokens.insert(i + j,
    to_insert)] on the list at address [tokens]. *)
Fixpoint insert_parts (i j : nat) (parts : list string) (tokens : nat)
    (s : Store) : option (Store * result unit) :=
  match parts with
  | [] => Some (s, Ok tt)
  | part :: parts' =>
      match Str.to_int part with
      | Ok to_insert =>
          content ← s !! tokens;
          insert_parts i (j + 1) parts' tokens
                       (<[tokens := py_insert content (i + j) to_insert]> s)
      | Raise e => Some (s, Raise e)
      | Diverge => Some (s, Diverge)
      end
  end.

(** The [while i < len(tokens)] loop of [decompose_bpe]. *)
Fixpoint decompose_loop (fuel : nat) (v : Vocabulary) (i : nat) (tokens : nat)
    (s : Store) : option (Store * result unit) :=
  match fuel with
  | O => Some (s, Diverge)
  | S fuel' =>
      content ← s !! tokens;
      if decide (i < length content) then
        match (token ← py_getitem content i; vocab_getitem_int v token) with
        | Ok event =>
            match Str.split "_" event with
            | [token_type; token_val] =>
                if decide (token_type = "BPE") then
                  match py_del content i with
                  | Ok content1 =>
                      let s1 := <[tokens := content1]> s in
                      match py_getitem (Str.split "." token_val) 1 with
                      | Ok part =>
                          run ← insert_parts i 0 (Str.split "-" part) tokens s1;
                          match run with
                          | (s2, Ok _) =>
                              decompose_loop fuel' v (i + 1) tokens s2
                          | (s2, r) => Some (s2, r)
                          end
                      | Raise e => Some (s1, Raise e)
                      | Diverge => Some (s1, Diverge)
                      end
                  | Raise e => Some (s, Raise e)
                  | Diverge => Some (s, Diverge)
                  end
                else decompose_loop fuel' v (i + 1) tokens s
            | _ => Some (s, Raise ValueError)
            end
        | Raise e => Some (s, Raise e)
        | Diverge => Some (s, Diverge)
        end
      else Some (s, Ok tt)
  end.

(** [decompose_bpe] on the list object at address [tokens]. *)
Definition decompose_bpe (fuel : nat) (w : World) (tokens : nat)
    : option (World * result nat) :=
  match decompose_loop fuel (vocabulary w) 0 tokens (store w) with
  | Some run => Some (with_store w run.1, (fun _ => tokens) <$> run.2)
  | None => None
  end.

(** The learned tokenizer of the scenario with three list objects: a
    sequence with an unknown token, the list of its merge table, and the
    training track. *)
Definition learned : World :=
  {| flag := true; vocabulary := vocab Scenario.learned;
     successions := [(4%Z, 1)];
     graph := tokens_types_graph Scenario.learned;
     store := {[ 0 := [4; 9]%Z; 1 := [0; 1]%Z; 2 := [0; 1; 0; 1; 2]%Z ]} |}.

End Heap.

(** ** Parameter files written by hand *)

Module Corrupt.

(** Tokens 0 and 1 are written with the same descriptor. *)
Definition params : dict string Json :=
  [("pitch_range", JList [JInt 21; JInt 109]);
   ("beat_res", JDict [("0_4", JInt 8); ("4_12", JInt 4)]);
   ("additional_tokens", JDict [("Chord", JBool false)]);
   ("token_to_event",
    JDict [("0", JStr "Pitch_60"); ("1", JStr "Pitch_60");
           ("2", JStr "Pitch_62"); ("3", JStr "BPE_0-2.0-2")])].

(** The same file with a key that is no integer. *)
Definition broken_params : dict string Json :=
  [("pitch_range", JList [JInt 21; JInt 109]);
   ("token_to_event",
    JDict [("0", JStr "Pitch_60"); ("one", JStr "Pitch_61")])].

(** A vocabulary whose token 3 lists the merged token 2 in its full
    decomposition, as a parameter file written by hand can hold. *)
Definition nested_params : dict string Json :=
  [("pitch_range", JList [JInt 21; JInt 109]);
   ("token_to_event",
    JDict [("0", JStr "Pitch_60"); ("1", JStr "Pitch_61");
           ("2", JStr "BPE_0-1.0-1"); ("3", JStr "BPE_2-1.2-1")])].

Definition blank : BPE :=
  {| has_bpe := false; vocab := Vocabulary_new; bpe_successions := [];
     tokens_types_graph := [] |}.

Definition nested : BPE := loaded blank nested_params.

End Corrupt.

(** ** Well-formed vocabularies *)

(** A token is merged when its descriptor is of type BPE (the test of the
    learner), and primitive when it is in the vocabulary and not merged. *)
Definition is_merged (v : Vocabulary) (token : Z) : bool :=
  match dict_get token (_token_to_event v) with
  | Some event => bool_decide (event_type event = "BPE")
  | None => false
  end.

Definition is_primitive (v : Vocabulary) (token : Z) : bool :=
  match dict_get token (_token_to_event v) with
  | Some event => negb (bool_decide (event_type event = "BPE"))
  | None => false
  end.

(** The descriptor unpacks as [token_type, token_val]. *)
Definition two_fields (event : string) : bool :=
  match Str.split "_" event with
  | [_; _] => true
  | _ => false
  end.

(** A primitive token that [decompose_bpe] steps over. *)
Definition is_plain (v : Vocabulary) (token : Z) : bool :=
  match dict_get token (_token_to_event v) with
  | Some event =>
      two_fields event && negb (bool_decide (event_type event = "BPE"))
  | None => false
  end.

(** A token that [decompose_bpe] handles: it is in the vocabulary, its
    descriptor has two fields and, when it is merged, carries a full
    decomposition made of primitive tokens. *)
Definition decodable (v : Vocabulary) (token : Z) : bool :=
  match dict_get token (_token_to_event v) with
  | Some event =>
      two_fields event
      && (if decide (event_type event = "BPE") then
            match decomposition_of_event event with
            | Ok d => forallb (is_plain v) d
            | _ => false
            end
          else true)
  | None => false
  end.

(** One merge: some occurrence of the succession becomes the merged token. *)
Definition rewrite_step (tok : Z) (succ l l' : list Z) : Prop :=
  exists pre post, l = pre ++ succ ++ post /\ l' = pre ++ tok :: post.

Definition merge_step (successions : dict Z (list Z)) (l l' : list Z) : Prop :=
  exists tok succ, (tok, succ) ∈ successions /\ rewrite_step tok succ l l'.

(** Decomposition flatness for one entry of the vocabulary: a BPE
    descriptor carries a full decomposition, made of primitive tokens. *)
Definition flat_entry (v : Vocabulary) (te : Z * string) : bool :=
  if decide (event_type te.2 = "BPE") then
    match decomposition_of_event te.2 with
    | Ok d => forallb (is_primitive v) d
    | _ => false
    end
  else true.

Definition flat (v : Vocabulary) : bool :=
  forallb (flat_entry v) (_token_to_event v).

(** Token ids are non-negative integers. *)
Definition tokens_nonneg (v : Vocabulary) : bool :=
  forallb (fun te => bool_decide (0 <= te.1)%Z) (_token_to_event v).

(** A merged entry as the learner registers it: a succession of two tokens,
    whose flattening is the full decomposition. *)
Definition merge_entry (v : Vocabulary) (te : Z * string) : bool :=
  if decide (event_type te.2 = "BPE") then
    match succession_of_event te.2, decomposition_of_event te.2 with
    | Ok s, Ok d =>
        bool_decide (length s = 2) && bool_decide (to_replace_bis v s = Ok d)
    | _, _ => false
    end
  else true.

(** The vocabularies the learner works on and produces. *)
Definition vocab_ok (v : Vocabulary) : bool :=
  tokens_nonneg v
  && forallb (fun te => two_fields te.2) (_token_to_event v)
  && flat v
  && forallb (merge_entry v) (_token_to_event v).

(** The category index only lists tokens of that category. *)
Definition index_sound (v : Vocabulary) : bool :=
  forallb (fun cl =>
             forallb (fun token =>
                        match dict_get token (_token_to_event v) with
                        | Some event => bool_decide (event_type event = cl.1)
                        | None => false
                        end) cl.2)
          (_token_types_indexes v).

(** The merge table agrees with the vocabulary. *)
Definition merges_ok (self : BPE) : bool :=
  forallb (fun ts =>
             match dict_get ts.1 (_token_to_event (vocab self)) with
             | Some event =>
                 bool_decide (event_type event = "BPE")
                 && bool_decide (succession_of_event event = Ok ts.2)
             | None => false
             end)
          (bpe_successions self).

Definition codec_ok (self : BPE) : bool :=
  vocab_ok (vocab self) && merges_ok self.

(** The succession [p] stands somewhere in a track of the corpus. *)
Definition occurs (p : list Z) (samples : list Sample) : Prop :=
  exists sample track pre post,
    sample ∈ samples /\ track ∈ sample /\ track = pre ++ p ++ post.

(** The rewriting pass of the learner as a function of the track: from left
    to right, each pair [(a, b)] met becomes [new], and the scan goes on
    after it (lemma [replace_loop_merge] relates it to [replace_loop]). *)
Fixpoint merge_pairs (a b new : Z) (track : list Z) : list Z :=
  match track with
  | x :: (y :: rest) as tail =>
      if decide (x = a /\ y = b) then new :: merge_pairs a b new rest
      else x :: merge_pairs a b new tail
  | _ => track
  end.

Definition merge_samples (a b new : Z) (samples : list Sample) : list Sample :=
  map (map (merge_pairs a b new)) samples.

(** The pair [(a, b)] stands somewhere in the track. *)
Fixpoint stands (a b : Z) (track : list Z) : bool :=
  match track with
  | x :: (y :: _) as tail => bool_decide (x = a /\ y = b) || stands a b tail
  | _ => false
  end.

Definition stands_in (p : list Z) (samples : list Sample) : bool :=
  match p with
  | [a; b] => existsb (existsb (stands a b)) samples
  | _ => false
  end.

(** Every token of the corpus is a token of the vocabulary. *)
Definition corpus_known (v : Vocabulary) (samples : list Sample) : bool :=
  forallb (forallb (forallb (fun token =>
             bool_decide (is_Some (dict_get token (_token_to_event v))))))
          samples.

(** [event_to_token] is the inverse of [token_to_event]. *)
Definition inverse_ok (v : Vocabulary) : bool :=
  forallb (fun et => bool_decide (dict_get et.2 (_token_to_event v) = Some et.1))
          (_event_to_token v).

(** No pair already registered as a merged token stands in the corpus (as
    after the pass that merged it; trivially so in a vocabulary without
    merged tokens). *)
Definition registered_absent (v : Vocabulary) (samples : list Sample) : bool :=
  forallb (fun et =>
             if decide (event_type et.1 = "BPE") then
               match succession_of_event et.1 with
               | Ok p => negb (stands_in p samples)
               | _ => true
               end
             else true)
          (_event_to_token v).

(** What the learner needs of its vocabulary and corpus. *)
Definition learnable (v : Vocabulary) (samples : list Sample) : bool :=
  vocab_ok v && index_sound v && inverse_ok v
  && corpus_known v samples && registered_absent v samples.

(** Some track holds [2 ^ k] tokens or more. *)
Definition long_track (k : nat) (samples : list Sample) : bool :=
  existsb (existsb (fun track : list Z => bool_decide (2 ^ k <= length track)))
          samples.

(** An entry of the parameter dictionary that [load_params] reads without
    error and without touching the wrapper: the name of the encoding, beat
    resolutions whose keys are integers joined by underscores, an object of
    additional tokens, or an attribute of the tokenizer underneath. *)
Definition configuration (kv : string * Json) : bool :=
  if decide (kv.1 = "encoding") then true
  else if decide (kv.1 = "beat_res") then
    match kv.2 with JDict d => is_ok (load_beat_res d) | _ => false end
  else if decide (kv.1 = "additional_tokens") then
    match kv.2 with JDict _ => true | _ => false end
  else if decide (kv.1 = "token_to_event") then false
  else if decide (kv.1 = "has_bpe") then false
  else negb (bool_decide (kv.1 ∈ wrapper_names) || String.prefix "__" kv.1).


(** The tokens of category [c], in the order of [token_to_event]. *)
Definition typed_tokens (c : string) (events : dict Z string) : list Z :=
  map fst (filter (fun te => event_type te.2 = c) events).

(** The category index is the one a rebuild would give. *)
Definition index_exact (v : Vocabulary) : bool :=
  bool_decide (_token_types_indexes v
               = _token_types_indexes (update_token_types_indexes v)).

(** The two dictionaries are inverse bijections, written in the same
    order. *)
Definition vocab_bijective (v : Vocabulary) : bool :=
  bool_decide (NoDup (dict_keys (_token_to_event v)))
  && bool_decide (NoDup (map snd (_token_to_event v)))
  && bool_decide (_event_to_token v
                  = map (fun te => (te.2, te.1)) (_token_to_event v)).

(** The positions of a track at which the pair [p] stands. *)
Definition pair_positions (p : list Z) (track : list Z) : list nat :=
  filter (fun i => py_slice track i (i + 2) = p) (seq 0 (length track - 1)).

(** How many times the pair [p] stands in the corpus. *)
Definition pair_count (p : list Z) (samples : list Sample) : nat :=
  list_sum (map (fun sample =>
                   list_sum (map (fun track => length (pair_positions p track))
                                 sample))
                samples).

(** The number of tokens of the corpus. *)
Definition total_tokens (samples : list Sample) : nat :=
  list_sum (track_lengths samples).

(** The succession stands somewhere in the sequence. *)
Definition standing (succ tokens : list Z) : Prop :=
  exists pre post, tokens = pre ++ succ ++ post.

(** Every merge of the table takes two tokens or more. *)
Definition merges_take_two (self : BPE) : bool :=
  forallb (fun ts => bool_decide (2 <= length ts.2)) (bpe_successions self).

(** The tracks hold no adjacent pair. *)
Definition no_pairs (samples : list Sample) : bool :=
  forallb (forallb (fun track : list Z => bool_decide (length track <= 1)))
          samples.

(** ** Vocabularies with malformed descriptors *)

Module Malformed.

(** Token 2 is a merged token without a full decomposition, token 3 has a
    descriptor of three fields, and token 4 lists itself in its full
    decomposition. *)
Definition params : dict string Json :=
  [("pitch_range", JList [JInt 21; JInt 109]);
   ("token_to_event",
    JDict [("0", JStr "Pitch_60"); ("1", JStr "Pitch_61");
           ("2", JStr "BPE_0-1"); ("3", JStr "Time_Shift_1");
           ("4", JStr "BPE_0-1.0-4")])].

Definition tokenizer : BPE := loaded Corrupt.blank params.

End Malformed.
(** The dictionary holds the tally [f]: a key for every pair of positive
    tally, with the tally as its value. *)
Definition tallied (occurrences : dict (list Z) nat) (f : list Z -> nat) : Prop :=
  forall q, dict_get q occurrences = if decide (f q = 0) then None else Some (f q).

(** The tracks still stand for the original ones: flattening a track of
    [samples] gives the track of [original] at the same place. *)
Definition kept (v : Vocabulary) (original samples : list Sample) : Prop :=
  Forall2 (Forall2 (fun track0 track => to_replace_bis v track = Ok track0))
          original samples.

(** One round of the merge table on the original tracks gives the tracks of
    [samples]. *)
Definition reproduces (successions : dict Z (list Z))
    (original samples : list Sample) : Prop :=
  Forall2 (Forall2 (fun track0 track =>
                      apply_round successions track0 = (track, Ok tt)))
          original samples.

(** The pairs of adjacent tokens in the order in which the counting phase
    meets them: file after file, track after track, from left to right. *)
Definition scanned_pairs (samples : list Sample) : list (list Z) :=
  concat (map (fun sample =>
                 concat (map (fun track =>
                                map (fun i => py_slice track i (i + 2))
                                    (seq 0 (length track - 1)))
                             sample))
              samples).

(** The distinct elements of a list, in the order of their first
    appearance. *)
Definition first_seen (pairs : list (list Z)) : list (list Z) :=
  fold_left (fun seen p => if decide (p ∈ seen) then seen else seen ++ [p])
            pairs [].

(** * Properties *)

(** ** Strings: splitting what was joined, reading what was printed *)

Module StrFacts.
Import Str.

Lemma split_not_nil sep s : split sep s <> [].
Proof.
  destruct s as [|c s]; simpl; [done|].
  destruct (Ascii.eqb c sep); [done|]. by destruct (split sep s).
Qed.

Lemma split_lacks sep s : lacks sep s = true -> split sep s = [s].
Proof.
  induction s as [|c s IH]; simpl; [done|].
  intros [Hc Hs]%andb_prop. apply negb_true_iff in Hc. rewrite Hc.
  by rewrite (IH Hs).
Qed.

Lemma split_app_sep sep a b :
  lacks sep a = true ->
  split sep (a ++ String sep b)%string = a :: split sep b.
Proof.
  induction a as [|c a IH]; simpl.
  - intros _. by rewrite Ascii.eqb_refl.
  - intros [Hc Ha]%andb_prop. apply negb_true_iff in Hc. rewrite Hc.
    by rewrite (IH Ha).
Qed.

Lemma split_join sep l :
  l <> [] -> Forall (fun x => lacks sep x = true) l ->
  split sep (join sep l) = l.
Proof.
  induction l as [|x l IH]; [done|]. intros _ Hl.
  apply Forall_cons in Hl as [Hx Hl]. destruct l as [|y l].
  - simpl. by apply split_lacks.
  - change (join sep (x :: y :: l))
    with (x ++ String sep (join sep (y :: l)))%string.
    rewrite split_app_sep by done. by rewrite IH.
Qed.

Lemma lacks_app c a b :
  lacks c (a ++ b)%string = lacks c a && lacks c b.
Proof.
  induction a as [|c' a IH]; simpl; [done|]. by rewrite IH, andb_assoc.
Qed.

Lemma lacks_join c sep l :
  c <> sep -> Forall (fun x => lacks c x = true) l ->
  lacks c (join sep l) = true.
Proof.
  intros Hc. induction l as [|x l IH]; [done|].
  intros [Hx Hl]%Forall_cons. destruct l as [|y l]; [done|].
  change (join sep (x :: y :: l))
    with (x ++ String sep (join sep (y :: l)))%string.
  specialize (IH Hl). set (j := join sep (y :: l)) in *.
  rewrite lacks_app, Hx. simpl. rewrite IH, andb_true_r.
  apply negb_true_iff, Ascii.eqb_neq. congruence.
Qed.

Lemma all_chars_lacks P c s :
  P c = false -> all_chars P s = true -> lacks c s = true.
Proof.
  intros HP. induction s as [|c' s IH]; simpl; [done|].
  intros [Hc' Hs]%andb_prop. rewrite (IH Hs), andb_true_r.
  apply negb_true_iff, Ascii.eqb_neq. congruence.
Qed.

Lemma uint_digits d : all_chars is_digit (NilEmpty.string_of_uint d) = true.
Proof. induction d; simpl; done. Qed.

Lemma of_int_digits z : (0 <= z)%Z -> all_chars is_digit (of_int z) = true.
Proof.
  intros Hz. unfold of_int. destruct z as [|p|p]; [done| |lia].
  simpl. pose proof (uint_digits (Pos.to_uint p)) as H.
  by destruct (Pos.to_uint p).
Qed.

Lemma to_int_of_int z : to_int (of_int z) = Ok z.
Proof.
  unfold to_int, of_int. rewrite NilZero.isi.
  - by rewrite DecimalZ.of_to.
  - destruct z; simpl; [done| |done].
    intros [= H]. by apply DecimalPos.Unsigned.to_uint_nonnil in H.
  - destruct z; simpl; [done|done|].
    intros [= H]. by apply DecimalPos.Unsigned.to_uint_nonnil in H.
Qed.

Lemma of_int_lacks c z :
  is_digit c = false -> (0 <= z)%Z -> lacks c (of_int z) = true.
Proof. intros Hc Hz. eapply all_chars_lacks; [done|]. by apply of_int_digits. Qed.

Lemma map_to_int_of_int l : map_result to_int (map of_int l) = Ok l.
Proof.
  induction l as [|z l IH]; [done|]. simpl.
  rewrite to_int_of_int. simpl. by rewrite IH.
Qed.

(** ['-'.join(map(str, l))] of non-negative integers holds digits and
    dashes only. *)
Lemma joined_lacks c l :
  is_digit c = false -> c <> "-"%char -> Forall (fun z => (0 <= z)%Z) l ->
  lacks c (join "-" (map of_int l)) = true.
Proof.
  intros Hc Hd Hl. apply lacks_join; [done|].
  apply Forall_map. eapply Forall_impl; [exact Hl|].
  intros z Hz. by apply of_int_lacks.
Qed.

(** A list of non-negative integers is read back from its joined form. *)
Lemma read_joined l :
  l <> [] -> Forall (fun z => (0 <= z)%Z) l ->
  map_result to_int (split "-" (join "-" (map of_int l))) = Ok l.
Proof.
  intros Hne Hl. rewrite split_join.
  - apply map_to_int_of_int.
  - by destruct l.
  - apply Forall_map. eapply Forall_impl; [exact Hl|].
    intros z Hz. by apply of_int_lacks.
Qed.

End StrFacts.

(** ** Dictionaries *)

Section DictFacts.
Context {K V : Type} `{EqDecision K}.
Implicit Types (d : dict K V) (k : K) (v : V).

Lemma dict_get_elem k v d : dict_get k d = Some v -> (k, v) ∈ d.
Proof.
  induction d as [|[k' v'] d IH]; simpl; [done|].
  case_decide; intros; simplify_eq; [left|right; auto].
Qed.

Lemma dict_get_None k d : dict_get k d = None <-> k ∉ dict_keys d.
Proof.
  induction d as [|[k' v'] d IH]; simpl.
  - split; [intros _ H; inversion H|done].
  - rewrite not_elem_of_cons. case_decide; simplify_eq; [split; [done|tauto]|].
    rewrite IH. split; [intros; split; congruence|tauto].
Qed.

Lemma dict_get_app k d1 d2 :
  dict_get k (d1 ++ d2)
  = match dict_get k d1 with Some v => Some v | None => dict_get k d2 end.
Proof.
  induction d1 as [|[k' v'] d1 IH]; simpl; [done|]. by case_decide.
Qed.

Lemma dict_set_fresh k v d : dict_get k d = None -> dict_set k v d = d ++ [(k, v)].
Proof.
  induction d as [|[k' v'] d IH]; simpl; [done|].
  case_decide; [done|]. intros H'. by rewrite IH.
Qed.

Lemma dict_get_set k k' v d :
  dict_get k' (dict_set k v d) = if decide (k = k') then Some v else dict_get k' d.
Proof.
  induction d as [|[k0 v0] d IH]; simpl.
  - by case_decide.
  - repeat (case_decide; simplify_eq; simpl); try done.
Qed.

Lemma dict_set_elem k v k' v' d :
  (k', v') ∈ dict_set k v d -> (k', v') = (k, v) \/ (k', v') ∈ d.
Proof.
  induction d as [|[k0 v0] d IH]; simpl.
  - intros ->%list_elem_of_singleton. by left.
  - case_decide; simplify_eq.
    + intros [->| ?]%elem_of_cons; [by left|right; by right].
    + intros [->|Hin]%elem_of_cons; [right; left|].
      destruct (IH Hin) as [?|?]; [by left|right; by right].
Qed.

(** A dictionary comprehension keeps, for each key, the value written
    last. *)
Lemma dict_get_fold_set k (items : list (K * V)) d :
  dict_get k (fold_left (fun d kv => dict_set kv.1 kv.2 d) items d)
  = match dict_get k (reverse items) with
    | Some v => Some v
    | None => dict_get k d
    end.
Proof.
  revert d. induction items as [|[k0 v0] items IH]; intros d; simpl; [done|].
  rewrite IH, reverse_cons, dict_get_app. simpl.
  destruct (dict_get k (reverse items)); [done|].
  rewrite dict_get_set. by case_decide.
Qed.

Lemma dict_get_of_items k (items : list (K * V)) :
  dict_get k (dict_of_items items) = dict_get k (reverse items).
Proof.
  unfold dict_of_items. rewrite dict_get_fold_set.
  by destruct (dict_get k (reverse items)).
Qed.

Lemma dict_of_items_elem k v (items : list (K * V)) :
  (k, v) ∈ dict_of_items items -> (k, v) ∈ items.
Proof.
  unfold dict_of_items.
  assert (forall d, (k, v) ∈ fold_left (fun d kv => dict_set kv.1 kv.2 d) items d
                    -> (k, v) ∈ items \/ (k, v) ∈ d) as H'.
  { induction items as [|[k0 v0] items IH]; intros d; simpl; [by right|].
    intros [?|[?|?]%dict_set_elem]%IH.
    - left. by right.
    - left. simplify_eq. left.
    - by right. }
  intros [?|Hnil]%H'; [done|inversion Hnil].
Qed.

End DictFacts.

(** ** Descriptors of merged tokens *)

Section Descriptor.
Variables p d : list Z.
Hypothesis p_not_nil : p <> [].
Hypothesis d_not_nil : d <> [].
Hypothesis p_nonneg : Forall (fun z => (0 <= z)%Z) p.
Hypothesis d_nonneg : Forall (fun z => (0 <= z)%Z) d.

Lemma split_bpe_event :
  Str.split "_" (bpe_event (to_replace_str p d)) = ["BPE"; to_replace_str p d].
Proof.
  assert (Str.lacks "_" (to_replace_str p d) = true) as H.
  { unfold to_replace_str. rewrite !StrFacts.lacks_app.
    rewrite !StrFacts.joined_lacks by done. done. }
  set (val := to_replace_str p d) in *.
  change (bpe_event val) with (String "B" (String "P" (String "E" (String "_" val)))).
  simpl. by rewrite (StrFacts.split_lacks _ _ H).
Qed.

Lemma split_to_replace_str :
  Str.split "." (to_replace_str p d)
  = [Str.join "-" (map Str.of_int p); Str.join "-" (map Str.of_int d)].
Proof.
  unfold to_replace_str.
  change ("." ++ ?s)%string with (String "." s).
  rewrite StrFacts.split_app_sep by (by apply StrFacts.joined_lacks).
  rewrite StrFacts.split_lacks by (by apply StrFacts.joined_lacks). done.
Qed.

Lemma event_type_bpe_event : event_type (bpe_event (to_replace_str p d)) = "BPE".
Proof. unfold event_type. by rewrite split_bpe_event. Qed.

Lemma two_fields_bpe_event : two_fields (bpe_event (to_replace_str p d)) = true.
Proof. unfold two_fields. by rewrite split_bpe_event. Qed.

Lemma succession_bpe_event :
  succession_of_event (bpe_event (to_replace_str p d)) = Ok p.
Proof.
  unfold succession_of_event. rewrite split_bpe_event. simpl.
  rewrite split_to_replace_str. simpl. by apply StrFacts.read_joined.
Qed.

Lemma decomposition_bpe_event :
  decomposition_of_event (bpe_event (to_replace_str p d)) = Ok d.
Proof.
  unfold decomposition_of_event. rewrite split_bpe_event. simpl.
  rewrite split_to_replace_str. simpl. by apply StrFacts.read_joined.
Qed.

End Descriptor.

(** ** Lists rewritten in place *)

Lemma py_getitem_middle {A} (pre post : list A) x :
  py_getitem (pre ++ x :: post) (length pre) = Ok x.
Proof. unfold py_getitem. by rewrite list_lookup_middle. Qed.

Lemma py_setitem_middle pre post x y :
  py_setitem (pre ++ x :: post) (length pre) y = Ok (pre ++ y :: post).
Proof.
  unfold py_setitem. rewrite decide_True.
  - f_equal. rewrite insert_app_r_alt by lia.
    by replace (length pre - length pre) with 0 by lia.
  - rewrite length_app. simpl. lia.
Qed.

Lemma py_del_middle pre post x :
  py_del (pre ++ x :: post) (length pre) = Ok (pre ++ post).
Proof.
  unfold py_del. rewrite decide_True.
  - f_equal. rewrite take_app_length.
    replace (S (length pre)) with (length pre + 1) by lia.
    by rewrite drop_app_add'.
  - rewrite length_app. simpl. lia.
Qed.

Lemma py_insert_middle pre post z :
  py_insert (pre ++ post) (length pre) z = pre ++ z :: post.
Proof. unfold py_insert. by rewrite take_app_length, drop_app_length. Qed.

Lemma map_result_cons_ok {A B} (f : A -> result B) x l r :
  map_result f (x :: l) = Ok r ->
  exists y ys, f x = Ok y /\ map_result f l = Ok ys /\ r = y :: ys.
Proof.
  simpl. destruct (f x) as [y| |]; simpl; [|done..].
  destruct (map_result f l) as [ys| |]; simpl; [|done..].
  intros [= <-]. eauto.
Qed.

Lemma map_result_length {A B} (f : A -> result B) l r :
  map_result f l = Ok r -> length r = length l.
Proof.
  revert r. induction l as [|x l IH]; intros r.
  - by intros [= <-].
  - intros (y & ys & _ & Hys & ->)%map_result_cons_ok. simpl. by rewrite (IH ys).
Qed.

(** ** Flattening *)

Lemma to_replace_bis_cons v token l :
  to_replace_bis v (token :: l)
  = (x ← flatten_token v token; y ← to_replace_bis v l; Ok (x ++ y)).
Proof.
  unfold to_replace_bis. simpl.
  destruct (flatten_token v token) as [x| |]; simpl; [|done..].
  by destruct (map_result (flatten_token v) l).
Qed.

Lemma to_replace_bis_app v l1 l2 :
  to_replace_bis v (l1 ++ l2)
  = (x ← to_replace_bis v l1; y ← to_replace_bis v l2; Ok (x ++ y)).
Proof.
  induction l1 as [|token l1 IH].
  - simpl. by destruct (to_replace_bis v l2).
  - rewrite <- app_comm_cons, !to_replace_bis_cons, IH.
    destruct (flatten_token v token) as [x| |]; simpl; [|done..].
    destruct (to_replace_bis v l1) as [y| |]; simpl; [|done..].
    destruct (to_replace_bis v l2) as [z| |]; simpl; [|done..].
    by rewrite app_assoc.
Qed.

Lemma two_fields_split event :
  two_fields event = true ->
  exists val, Str.split "_" event = [event_type event; val].
Proof.
  unfold two_fields, event_type.
  destruct (Str.split "_" event) as [|ty [|val [|]]]; try done. eauto.
Qed.

Lemma flatten_plain v token : is_plain v token = true -> flatten_token v token = Ok [token].
Proof.
  unfold is_plain, flatten_token, dict_getitem.
  destruct (dict_get token (_token_to_event v)) as [event|]; [|done].
  intros [_ Hty]%andb_prop. simpl.
  apply negb_true_iff, bool_decide_eq_false in Hty. by rewrite decide_False.
Qed.

Lemma to_replace_bis_plain v l :
  Forall (fun token => is_plain v token = true) l -> to_replace_bis v l = Ok l.
Proof.
  induction 1 as [|token l Htok _ IH]; [done|].
  by rewrite to_replace_bis_cons, (flatten_plain _ _ Htok), IH.
Qed.

(** ** The decomposer *)

Lemma insert_parts_ok i parts d :
  map_result Str.to_int parts = Ok d ->
  forall j pre post, length pre = i + j ->
    insert_parts i j parts (pre ++ post) = (pre ++ d ++ post, Ok tt).
Proof.
  revert d. induction parts as [|part parts IH]; intros d.
  - by intros [= <-].
  - intros (z & zs & Hz & Hzs & ->)%map_result_cons_ok j pre post Hlen.
    simpl. rewrite Hz, <- Hlen, py_insert_middle.
    rewrite (cons_middle z pre post), app_assoc.
    rewrite (IH _ Hzs); [|rewrite length_app; simpl; lia].
    by rewrite <- !app_assoc.
Qed.

Section Decompose.
Variable v : Vocabulary.

(** A plain token is stepped over. *)
Lemma decompose_step_plain fuel pre token post :
  is_plain v token = true ->
  decompose_loop (S fuel) v (length pre) (pre ++ token :: post)
  = decompose_loop fuel v (length pre + 1) (pre ++ token :: post).
Proof.
  unfold is_plain. intros Hplain. simpl.
  rewrite decide_True by (rewrite length_app; simpl; lia).
  rewrite py_getitem_middle. simpl. unfold vocab_getitem_int, dict_getitem.
  destruct (dict_get token (_token_to_event v)) as [event|]; [|done].
  apply andb_prop in Hplain as [Htwo Hty].
  apply two_fields_split in Htwo as [val ->].
  apply negb_true_iff, bool_decide_eq_false in Hty. by rewrite decide_False.
Qed.

(** A merged token gives way to its full decomposition, and the scan goes
    on after the first token inserted. *)
Lemma decompose_step_merged fuel pre token post event d :
  dict_get token (_token_to_event v) = Some event ->
  two_fields event = true -> event_type event = "BPE" ->
  decomposition_of_event event = Ok d ->
  decompose_loop (S fuel) v (length pre) (pre ++ token :: post)
  = decompose_loop fuel v (length pre + 1) (pre ++ d ++ post).
Proof.
  intros Hget Htwo Hty Hd. simpl.
  rewrite decide_True by (rewrite length_app; simpl; lia).
  rewrite py_getitem_middle. simpl. unfold vocab_getitem_int, dict_getitem.
  rewrite Hget. apply two_fields_split in Htwo as [val Hsplit].
  unfold decomposition_of_event in Hd. rewrite Hsplit in Hd |- *. simpl in Hd.
  rewrite Hty, decide_True by done. rewrite py_del_middle.
  destruct (py_getitem (Str.split "." val) 1) as [part| |]; simpl in Hd; [|done..].
  rewrite (insert_parts_ok (length pre) _ _ Hd 0 pre post); [done|lia].
Qed.

Lemma decompose_skip_plain ds :
  Forall (fun token => is_plain v token = true) ds ->
  forall fuel pre post,
    decompose_loop (length ds + fuel) v (length pre) (pre ++ ds ++ post)
    = decompose_loop fuel v (length pre + length ds) (pre ++ ds ++ post).
Proof.
  induction 1 as [|token ds Htok _ IH]; intros fuel pre post.
  - cbn [length Nat.add app]. by rewrite Nat.add_0_r.
  - cbn [length Nat.add app]. rewrite decompose_step_plain by done.
    rewrite (cons_middle token pre), app_assoc.
    replace (length pre + 1) with (length (pre ++ [token]))
      by (rewrite length_app; simpl; lia).
    rewrite IH. rewrite length_app. cbn [length]. f_equal. lia.
Qed.

(** The decomposer computes the flattening of its input. *)
Lemma decompose_expand l :
  Forall (fun token => decodable v token = true) l ->
  exists d,
    to_replace_bis v l = Ok d
    /\ Forall (fun token => is_plain v token = true) d
    /\ forall fuel pre post,
         decompose_loop (length d + fuel) v (length pre) (pre ++ l ++ post)
         = decompose_loop fuel v (length pre + length d) (pre ++ d ++ post).
Proof.
  induction 1 as [|token l Htok _ (d' & Hd' & Hplain' & IH)].
  - exists []. split_and!; [done|done|]. intros.
    cbn [length Nat.add app]. by rewrite Nat.add_0_r.
  - unfold decodable in Htok.
    destruct (dict_get token (_token_to_event v)) as [event|] eqn:Hget; [|done].
    apply andb_prop in Htok as [Htwo Hrest].
    destruct (decide (event_type event = "BPE")) as [Hty|Hty].
    + destruct (decomposition_of_event event) as [d| |] eqn:Hd; [|done..].
      assert (Forall (fun token => is_plain v token = true) d) as Hplain.
      { apply Forall_forall. intros x Hx.
        rewrite forallb_forall in Hrest. by apply Hrest, list_elem_of_In. }
      exists (d ++ d'). split_and!.
      * rewrite to_replace_bis_cons, Hd'. unfold flatten_token, dict_getitem.
        rewrite Hget. simpl. rewrite decide_True by done. by rewrite Hd.
      * by apply Forall_app.
      * intros fuel pre post. destruct d as [|d0 ds].
        { unfold decomposition_of_event in Hd.
          destruct (py_getitem (Str.split "_" event) 1) as [val| |];
            simpl in Hd; [|done..].
          destruct (py_getitem (Str.split "." val) 1) as [part| |];
            simpl in Hd; [|done..].
          apply map_result_length in Hd.
          pose proof (StrFacts.split_not_nil "-" part).
          by destruct (Str.split "-" part). }
        apply Forall_cons in Hplain as [_ Hds].
        rewrite length_app. cbn [length Nat.add app].
        rewrite (decompose_step_merged _ _ _ _ _ _ Hget Htwo Hty Hd).
        replace (pre ++ (d0 :: ds) ++ l ++ post)
          with ((pre ++ [d0]) ++ ds ++ (l ++ post))
          by (by rewrite <- app_assoc).
        replace (length pre + 1) with (length (pre ++ [d0]))
          by (rewrite length_app; simpl; lia).
        rewrite <- Nat.add_assoc, (decompose_skip_plain ds Hds).
        replace ((pre ++ [d0]) ++ ds ++ l ++ post)
          with (((pre ++ [d0]) ++ ds) ++ l ++ post)
          by (by rewrite <- !app_assoc).
        replace (length (pre ++ [d0]) + length ds)
          with (length ((pre ++ [d0]) ++ ds)) by (rewrite !length_app; lia).
        rewrite IH. f_equal.
        { rewrite !length_app. cbn [length]. lia. }
        { by rewrite <- !app_assoc. }
    + assert (is_plain v token = true) as Hplain.
      { unfold is_plain. rewrite Hget, Htwo. simpl.
        by apply negb_true_iff, bool_decide_eq_false. }
      exists (token :: d'). split_and!.
      * by rewrite to_replace_bis_cons, (flatten_plain _ _ Hplain), Hd'.
      * by constructor.
      * intros fuel pre post. cbn [length Nat.add app].
        rewrite decompose_step_plain by done.
        rewrite (cons_middle token pre), !app_assoc.
        replace (length pre + 1) with (length (pre ++ [token]))
          by (rewrite length_app; simpl; lia).
        rewrite <- !app_assoc. rewrite (app_assoc pre [token]).
        rewrite IH. rewrite <- !app_assoc. cbn [app].
        rewrite !length_app. cbn [length]. f_equal. lia.
Qed.

Lemma decompose_loop_end fuel l :
  decompose_loop (S fuel) v (length l) l = (l, Ok tt).
Proof. simpl. by rewrite decide_False by lia. Qed.

End Decompose.

(** ** The applier *)

Lemma del_times_middle mid : forall pre post,
  del_times (length mid) (length pre) (pre ++ mid ++ post) = (pre ++ post, Ok tt).
Proof.
  induction mid as [|x mid IH]; intros pre post; [done|].
  cbn [length del_times app]. by rewrite py_del_middle.
Qed.

Lemma slice_split l i succ :
  i + length succ <= length l ->
  py_slice l i (i + length succ) = succ ->
  l = take i l ++ succ ++ drop (i + length succ) l.
Proof.
  unfold py_slice. intros Hlen Hslice.
  replace (i + length succ - i) with (length succ) in Hslice by lia.
  rewrite <- (take_drop i l) at 1. f_equal.
  rewrite <- (take_drop (length succ) (drop i l)) at 1.
  by rewrite Hslice, drop_drop.
Qed.

Section Apply.
Variables (tok : Z) (succ : list Z).
Hypothesis succ_not_nil : succ <> [].

Lemma rewrite_step_length l l' :
  rewrite_step tok succ l l' -> length l' + length succ = length l + 1.
Proof.
  intros (pre & post & -> & ->). rewrite !length_app. simpl. lia.
Qed.

(** One turn of the scan at a position where the succession stands. *)
Lemma apply_scan_hit i tokens :
  i + length succ <= length tokens ->
  py_slice tokens i (i + length succ) = succ ->
  exists tokens1,
    py_setitem tokens i tok = Ok tokens1
    /\ del_times (length succ - 1) (i + 1) tokens1
       = (take i tokens ++ tok :: drop (i + length succ) tokens, Ok tt).
Proof.
  intros Hlen Hslice. pose proof (slice_split _ _ _ Hlen Hslice) as Hsplit.
  destruct succ as [|s0 srest]; [done|].
  set (pre := take i tokens) in *. set (post := drop _ tokens) in *.
  assert (length pre = i) as Hpre by (apply length_take_le; lia).
  exists (pre ++ tok :: srest ++ post). split.
  - rewrite Hsplit, <- Hpre. apply py_setitem_middle.
  - cbn [length]. replace (S (length srest) - 1) with (length srest) by lia.
    replace (i + 1) with (length (pre ++ [tok]))
      by (rewrite length_app; simpl; lia).
    replace (pre ++ tok :: srest ++ post) with ((pre ++ [tok]) ++ srest ++ post)
      by (by rewrite <- app_assoc).
    by rewrite del_times_middle, <- app_assoc.
Qed.

(** The scan stops, and what it returns is its input after some merges. *)
Lemma apply_scan_spec fuel : forall i tokens,
  length tokens - i < fuel ->
  exists tokens',
    apply_scan fuel tok succ i tokens = (tokens', Ok tt)
    /\ rtc (rewrite_step tok succ) tokens tokens'.
Proof.
  induction fuel as [|fuel IH]; intros i tokens Hfuel; [lia|].
  cbn [apply_scan]. case_decide as Hlen; [|by eexists].
  assert (0 < length succ) by (destruct succ; [done|simpl; lia]).
  case_decide as Hslice.
  - destruct (apply_scan_hit i tokens Hlen Hslice) as (tokens1 & -> & ->).
    set (tokens2 := take i tokens ++ tok :: drop (i + length succ) tokens).
    assert (rewrite_step tok succ tokens tokens2) as Hstep.
    { exists (take i tokens), (drop (i + length succ) tokens).
      split; [by apply slice_split|done]. }
    apply rewrite_step_length in Hstep as Hlen2.
    destruct (IH (i + 1) tokens2) as (tokens' & -> & Hrtc); [lia|].
    exists tokens'. split; [done|]. by eapply rtc_l.
  - destruct (IH (i + 1) tokens) as (tokens' & -> & Hrtc); [lia|].
    by exists tokens'.
Qed.

End Apply.

Lemma merge_step_length successions l l' :
  Forall (fun ts => 2 <= length ts.2) successions ->
  merge_step successions l l' -> length l' < length l.
Proof.
  intros Hall (tok & succ & Hin & Hstep).
  rewrite Forall_forall in Hall. specialize (Hall _ Hin). simpl in Hall.
  apply rewrite_step_length in Hstep. lia.
Qed.

Lemma merge_step_length_le successions l l' :
  Forall (fun ts => ts.2 <> []) successions ->
  merge_step successions l l' -> length l' <= length l.
Proof.
  intros Hall (tok & succ & Hin & Hstep).
  rewrite Forall_forall in Hall. specialize (Hall _ Hin). simpl in Hall.
  apply rewrite_step_length in Hstep. destruct succ; [done|]. simpl in Hstep. lia.
Qed.

Lemma merge_steps_length_le successions l l' :
  Forall (fun ts => ts.2 <> []) successions ->
  rtc (merge_step successions) l l' -> length l' <= length l.
Proof.
  intros Hall. induction 1 as [|l1 l2 l3 Hstep _ IH]; [done|].
  apply (merge_step_length_le _ _ _ Hall) in Hstep. lia.
Qed.

(** Merges of two tokens or more shorten the list: a list that kept its
    length went through no merge. *)
Lemma merge_steps_same_length successions l l' :
  Forall (fun ts => 2 <= length ts.2) successions ->
  rtc (merge_step successions) l l' -> length l' = length l -> l' = l.
Proof.
  intros Hall Hrtc. destruct Hrtc as [|l1 l2 l3 Hstep Hrtc]; [done|].
  apply (merge_step_length _ _ _ Hall) in Hstep.
  apply merge_steps_length_le in Hrtc; [lia|].
  eapply Forall_impl; [exact Hall|]. intros [tok succ] Hlen. simpl in *.
  destruct succ; [simpl in Hlen; lia|done].
Qed.

Lemma merge_step_mono successions successions' l l' :
  successions ⊆ successions' ->
  rtc (merge_step successions) l l' -> rtc (merge_step successions') l l'.
Proof.
  intros Hsub. apply rtc_subrel. intros l1 l2 (tok & succ & Hin & Hstep).
  exists tok, succ. split; [by apply Hsub|done].
Qed.

(** One round: every merged token of the table has its scan. *)
Lemma apply_round_spec successions : forall tokens,
  Forall (fun ts => ts.2 <> []) successions ->
  exists tokens',
    apply_round successions tokens = (tokens', Ok tt)
    /\ rtc (merge_step successions) tokens tokens'.
Proof.
  induction successions as [|[tok succ] rest IH]; intros tokens Hall.
  - by exists tokens.
  - apply Forall_cons in Hall as [Hsucc Hall]. simpl in Hsucc.
    cbn [apply_round].
    destruct (apply_scan_spec tok succ Hsucc (S (S (length tokens))) 0 tokens)
      as (tokens1 & -> & Hrtc1); [lia|].
    destruct (IH tokens1 Hall) as (tokens' & -> & Hrtc).
    exists tokens'. split; [done|]. etrans.
    + eapply rtc_subrel; [|exact Hrtc1]. intros l1 l2 Hstep.
      exists tok, succ. split; [left|done].
    + eapply merge_step_mono; [|exact Hrtc]. intros x Hx. by right.
Qed.

(** The rounds stop; the list returned went through merges only, and, when
    every merge takes two tokens or more, one more round leaves it as it
    is. *)
Lemma apply_rounds_spec successions fuel : forall previous_len tokens,
  Forall (fun ts => ts.2 <> []) successions ->
  length tokens + 2 <= fuel \/ (previous_len = length tokens /\ 1 <= fuel) ->
  exists tokens',
    apply_rounds fuel successions previous_len tokens = (tokens', Ok tt)
    /\ rtc (merge_step successions) tokens tokens'
    /\ ((previous_len = length tokens /\ tokens' = tokens)
        \/ (Forall (fun ts => 2 <= length ts.2) successions ->
            apply_round successions tokens' = (tokens', Ok tt))).
Proof.
  induction fuel as [|fuel IH]; intros previous_len tokens Hall Hfuel; [lia|].
  cbn [apply_rounds]. case_decide as Hprev.
  - destruct (apply_round_spec successions tokens Hall) as (tokens1 & Hround & Hrtc1).
    rewrite Hround.
    pose proof (merge_steps_length_le _ _ _ Hall Hrtc1) as Hle.
    destruct (IH (length tokens) tokens1 Hall) as (tokens' & -> & Hrtc & Hfix).
    { destruct (decide (length tokens1 = length tokens)); [right|left]; lia. }
    exists tokens'. split_and!; [done|by etrans|]. right. intros Hall2.
    destruct Hfix as [[Hsame ->]|Hfix]; [|by apply Hfix].
    assert (tokens1 = tokens) as Heq
      by (by apply (merge_steps_same_length _ _ _ Hall2 Hrtc1)).
    by rewrite Heq in *.
  - exists tokens. split_and!; [done|done|by left].
Qed.


Lemma forallb_Forall {A} (f : A -> bool) (l : list A) :
  forallb f l = true <-> Forall (fun x => f x = true) l.
Proof. rewrite forallb_forall, Forall_forall. by setoid_rewrite list_elem_of_In. Qed.

Lemma merges_take_two_Forall self :
  merges_take_two self = true ->
  Forall (fun ts => 2 <= length ts.2) (bpe_successions self).
Proof.
  intros H%forallb_Forall. eapply Forall_impl; [exact H|].
  intros ts Hts. by apply bool_decide_eq_true in Hts.
Qed.

Lemma take_two_not_nil (successions : dict Z (list Z)) :
  Forall (fun ts => 2 <= length ts.2) successions ->
  Forall (fun ts => ts.2 <> []) successions.
Proof.
  intros H. eapply Forall_impl; [exact H|].
  intros [tok succ] Hlen. simpl in *.
  destruct succ; [simpl in Hlen; lia|done].
Qed.

(** The applier on a table of non-empty merges: it returns, and its result
    is the input after some merges. *)
Lemma apply_bpe_spec self tokens :
  Forall (fun ts => ts.2 <> []) (bpe_successions self) ->
  exists tokens',
    apply_bpe_run self tokens = (tokens', Ok tt)
    /\ rtc (merge_step (bpe_successions self)) tokens tokens'.
Proof.
  intros Hall. unfold apply_bpe_run. destruct (has_bpe self); cbn [negb].
  - destruct (apply_rounds_spec (bpe_successions self) (S (S (length tokens)))
                (length tokens + 1) tokens Hall) as (tokens' & Hrun & Hrtc & _);
      [lia|]. by exists tokens'.
  - by exists tokens.
Qed.

(** C8: idempotence of apply. On a merge table as the learner writes it
    (every merged token stands for two tokens or more), [apply_bpe] returns
    a sequence, and applying [apply_bpe] to that sequence returns it
    unchanged. *)
Theorem apply_bpe_idempotent self tokens :
  merges_take_two self = true ->
  exists tokens',
    apply_bpe self tokens = Ok tokens' /\ apply_bpe self tokens' = Ok tokens'.
Proof.
  intros Htwo%merges_take_two_Forall.
  pose proof (take_two_not_nil _ Htwo) as Hall.
  unfold apply_bpe, apply_bpe_run.
  destruct (has_bpe self); cbn [negb]; [|by eexists].
  destruct (apply_rounds_spec (bpe_successions self) (S (S (length tokens)))
              (length tokens + 1) tokens Hall) as (tokens' & -> & _ & Hfix);
    [lia|].
  exists tokens'. split; [done|].
  destruct Hfix as [[Hlen _]|Hfix]; [lia|]. specialize (Hfix Htwo).
  cbn [apply_rounds]. rewrite decide_True by lia. rewrite Hfix.
  cbn [apply_rounds]. by rewrite decide_False by (intros ?; done).
Qed.

Lemma apply_bpe_idempotent_witness :
  merges_take_two Scenario.learned = true
  /\ exists tokens',
       apply_bpe Scenario.learned [0; 1; 0; 1; 2]%Z = Ok tokens'
       /\ apply_bpe Scenario.learned tokens' = Ok tokens'.
Proof.
  split; [reflexivity|].
  apply (apply_bpe_idempotent Scenario.learned [0; 1; 0; 1; 2]%Z). reflexivity.
Defined.

(** ** The decomposer on decodable tokens *)

Lemma decompose_bpe_flatten self l :
  Forall (fun token => decodable (vocab self) token = true) l ->
  exists d,
    to_replace_bis (vocab self) l = Ok d
    /\ Forall (fun token => is_plain (vocab self) token = true) d
    /\ forall fuel, length d < fuel -> decompose_bpe_run fuel self l = (d, Ok tt).
Proof.
  intros (d & Hd & Hplain & Hloop)%decompose_expand.
  exists d. split_and!; [done..|]. intros fuel Hfuel.
  unfold decompose_bpe_run.
  replace fuel with (length d + S (fuel - length d - 1)) by lia.
  specialize (Hloop (S (fuel - length d - 1)) [] []).
  rewrite !app_nil_r in Hloop. cbn [app length Nat.add] in Hloop.
  rewrite Hloop. apply decompose_loop_end.
Qed.

Lemma plain_primitive v token : is_plain v token = true -> is_primitive v token = true.
Proof.
  unfold is_plain, is_primitive.
  destruct (dict_get token (_token_to_event v)); [|done]. by intros [_ ?]%andb_prop.
Qed.

Lemma plain_decodable v token : is_plain v token = true -> decodable v token = true.
Proof.
  unfold is_plain, decodable.
  destruct (dict_get token (_token_to_event v)) as [event|]; [|done].
  intros [-> Hty]%andb_prop. apply negb_true_iff, bool_decide_eq_false in Hty.
  by rewrite decide_False.
Qed.

(** C9, as the code has it: after a merged token is replaced by its full
    decomposition the scan goes on from the position after the first token
    inserted, which is never examined. Hence the result holds no merged
    token when every token of the input is a vocabulary token whose full
    decomposition, if it is merged, is made of primitive tokens: for any
    such input [decompose_bpe] returns, and returns primitive tokens
    only. *)
Theorem decompose_bpe_primitive self tokens :
  forallb (decodable (vocab self)) tokens = true ->
  exists out,
    (forall fuel, length out < fuel -> decompose_bpe fuel self tokens = Ok out)
    /\ forallb (is_primitive (vocab self)) out = true.
Proof.
  intros Hdec%forallb_Forall.
  destruct (decompose_bpe_flatten self tokens Hdec) as (d & _ & Hplain & Hrun).
  exists d. split.
  - intros fuel Hfuel. unfold decompose_bpe. by rewrite Hrun.
  - apply forallb_Forall. eapply Forall_impl; [exact Hplain|].
    intros token. apply plain_primitive.
Qed.

Lemma decompose_bpe_primitive_witness :
  forallb (decodable (vocab Scenario.learned)) [4; 0; 1; 2]%Z = true
  /\ exists out,
       (forall fuel, length out < fuel ->
          decompose_bpe fuel Scenario.learned [4; 0; 1; 2]%Z = Ok out)
       /\ forallb (is_primitive (vocab Scenario.learned)) out = true.
Proof.
  split; [reflexivity|].
  apply (decompose_bpe_primitive Scenario.learned [4; 0; 1; 2]%Z). reflexivity.
Defined.

(** C9, counterexample: in the vocabulary [Corrupt.nested] token 3 is
    written ["BPE_2-1.2-1"], its decomposition starting with the merged
    token 2. [decompose_bpe([3])] returns [[2; 1]]: the first token inserted
    is not expanded and the result holds a merged token. *)
Lemma decompose_bpe_keeps_first_inserted :
  decompose_bpe 3 Corrupt.nested [3]%Z = Ok [2; 1]%Z
  /\ is_merged (vocab Corrupt.nested) 2 = true
  /\ forallb (fun token =>
                bool_decide (is_Some (dict_get token
                                        (_token_to_event (vocab Corrupt.nested)))))
             [3]%Z = true.
Proof. vm_compute. done. Qed.

(** C7, as the code has it: [apply_bpe] returns its input unchanged when
    [has_bpe] is false. [decompose_bpe] never reads [has_bpe]; it returns
    its input unchanged when every token of the input is a vocabulary token
    with a two-field descriptor that is not of type BPE. *)
Theorem noop_when_disabled self tokens :
  has_bpe self = false ->
  apply_bpe self tokens = Ok tokens
  /\ (forallb (is_plain (vocab self)) tokens = true ->
      forall fuel, length tokens < fuel ->
        decompose_bpe fuel self tokens = Ok tokens).
Proof.
  intros Hoff. split.
  - unfold apply_bpe, apply_bpe_run. by rewrite Hoff.
  - intros Hplain%forallb_Forall fuel Hfuel.
    destruct (decompose_bpe_flatten self tokens) as (d & Hd & _ & Hrun).
    { eapply Forall_impl; [exact Hplain|]. intros token. apply plain_decodable. }
    rewrite (to_replace_bis_plain _ _ Hplain) in Hd. injection Hd as <-.
    unfold decompose_bpe. by rewrite Hrun.
Qed.

Lemma noop_when_disabled_witness :
  has_bpe Scenario.tokenizer = false
  /\ apply_bpe Scenario.tokenizer [0; 1; 0; 1; 2]%Z = Ok [0; 1; 0; 1; 2]%Z
  /\ forallb (is_plain (vocab Scenario.tokenizer)) [0; 1; 0; 1; 2]%Z = true
  /\ decompose_bpe 6 Scenario.tokenizer [0; 1; 0; 1; 2]%Z = Ok [0; 1; 0; 1; 2]%Z.
Proof.
  destruct (noop_when_disabled Scenario.tokenizer [0; 1; 0; 1; 2]%Z)
    as [Happly Hdecompose]; [reflexivity|].
  split_and!; [reflexivity|exact Happly|reflexivity|].
  apply Hdecompose; [reflexivity|simpl; lia].
Defined.

(** C7, counterexample: with [has_bpe] false, [decompose_bpe([9])] raises
    KeyError on the base vocabulary, 9 being no token of it. And learning on
    the single track [[0; 1]] towards six tokens registers token 4 and then
    raises ValueError, the corpus having no pair left, with [has_bpe] still
    false: in that state [decompose_bpe([4])] returns [[0; 1]], not its
    input. *)
Lemma decompose_bpe_ignores_has_bpe :
  let self := (bpe Scenario.tokenizer [[[0; 1]]]%Z 6).1 in
  has_bpe Scenario.tokenizer = false
  /\ decompose_bpe 3 Scenario.tokenizer [9]%Z = Raise KeyError
  /\ (bpe Scenario.tokenizer [[[0; 1]]]%Z 6).2 = Raise ValueError
  /\ has_bpe self = false
  /\ decompose_bpe 3 self [4]%Z = Ok [0; 1]%Z.
Proof. vm_compute. done. Qed.

(** ** List objects: what the methods write *)

Lemma heap_del_times n i a : forall (s : Heap.Store) content,
  s !! a = Some content ->
  Heap.del_times n i a s
  = Some (<[a := (del_times n i content).1]> s, (del_times n i content).2).
Proof.
  induction n as [|n IH]; intros s content Hs.
  - cbn [Heap.del_times del_times fst snd]. by rewrite insert_id.
  - cbn [Heap.del_times del_times]. rewrite Hs. cbn [mbind option_bind].
    destruct (py_del content i) as [content'| |].
    + rewrite (IH _ content') by apply lookup_insert_eq.
      by rewrite insert_insert_eq.
    + cbn [fst snd]. by rewrite insert_id.
    + cbn [fst snd]. by rewrite insert_id.
Qed.

Lemma heap_apply_scan tok sa succ a fuel :
  a <> sa ->
  forall i (s : Heap.Store) content,
    s !! a = Some content -> s !! sa = Some succ ->
    Heap.apply_scan fuel tok sa i a s
    = Some (<[a := (apply_scan fuel tok succ i content).1]> s,
            (apply_scan fuel tok succ i content).2).
Proof.
  intros Hne. induction fuel as [|fuel IH]; intros i s content Ha Hsa.
  - cbn [Heap.apply_scan apply_scan fst snd]. by rewrite insert_id.
  - cbn [Heap.apply_scan apply_scan]. rewrite Ha, Hsa.
    cbn [mbind option_bind].
    case_decide; [|cbn [fst snd]; by rewrite insert_id].
    case_decide; [|by apply IH].
    destruct (py_setitem content i tok) as [content1| |];
      [|cbn [fst snd]; by rewrite insert_id..].
    cbv zeta. rewrite lookup_insert_ne, Hsa by done. cbn [mbind option_bind].
    rewrite (heap_del_times _ _ _ _ content1) by apply lookup_insert_eq.
    cbn [mbind option_bind]. rewrite insert_insert_eq.
    destruct (del_times (length succ - 1) (i + 1) content1)
      as [content2 [[]| |]]; cbn [fst snd]; [|done..].
    rewrite (IH _ _ content2).
    + by rewrite insert_insert_eq.
    + apply lookup_insert_eq.
    + by rewrite lookup_insert_ne.
Qed.

Lemma table_cons tok sa rest (s : Heap.Store) succs :
  Heap.table ((tok, sa) :: rest) s = Some succs ->
  exists succ succs',
    s !! sa = Some succ /\ Heap.table rest s = Some succs'
    /\ succs = (tok, succ) :: succs'.
Proof.
  unfold Heap.table. cbn [mapM fst snd].
  destruct (s !! sa) as [succ|]; [|done]. cbn [mbind option_bind].
  destruct (mapM _ rest) as [succs'|]; [|done]. cbn [mbind option_bind].
  intros [= <-]. by exists succ, succs'.
Qed.

Lemma table_insert successions a x (s : Heap.Store) :
  Forall (fun ts : Z * nat => ts.2 <> a) successions ->
  Heap.table successions (<[a := x]> s) = Heap.table successions s.
Proof.
  unfold Heap.table. induction 1 as [|[tok sa] rest Hne _ IH]; [done|].
  cbn [mapM fst snd] in *. rewrite lookup_insert_ne by done. by rewrite IH.
Qed.

Lemma heap_apply_round a successions :
  Forall (fun ts : Z * nat => ts.2 <> a) successions ->
  forall (s : Heap.Store) succs content,
    Heap.table successions s = Some succs -> s !! a = Some content ->
    Heap.apply_round successions a s
    = Some (<[a := (apply_round succs content).1]> s,
            (apply_round succs content).2).
Proof.
  induction 1 as [|[tok sa] rest Hne Hrest IH]; intros s succs content Ht Ha.
  - injection Ht as <-. cbn [Heap.apply_round apply_round fst snd].
    by rewrite insert_id.
  - apply table_cons in Ht as (succ & succs' & Hsa & Ht & ->).
    cbn [snd] in Hne.
    cbn [Heap.apply_round apply_round]. rewrite Ha. cbn [mbind option_bind].
    rewrite (heap_apply_scan tok sa succ a _ ltac:(done) 0 s content Ha Hsa).
    cbn [mbind option_bind].
    destruct (apply_scan (S (S (length content))) tok succ 0 content)
      as [content' [[]| |]]; cbn [fst snd]; [|done..].
    rewrite (IH _ succs' content').
    + by rewrite insert_insert_eq.
    + by rewrite table_insert.
    + apply lookup_insert_eq.
Qed.

Lemma heap_apply_rounds a successions fuel :
  Forall (fun ts : Z * nat => ts.2 <> a) successions ->
  forall previous_len (s : Heap.Store) succs content,
    Heap.table successions s = Some succs -> s !! a = Some content ->
    Heap.apply_rounds fuel successions previous_len a s
    = Some (<[a := (apply_rounds fuel succs previous_len content).1]> s,
            (apply_rounds fuel succs previous_len content).2).
Proof.
  intros Hne. induction fuel as [|fuel IH];
    intros previous_len s succs content Ht Ha.
  - cbn [Heap.apply_rounds apply_rounds fst snd]. by rewrite insert_id.
  - cbn [Heap.apply_rounds apply_rounds]. rewrite Ha. cbn [mbind option_bind].
    case_decide; [|cbn [fst snd]; by rewrite insert_id].
    rewrite (heap_apply_round a successions Hne s succs content Ht Ha).
    cbn [mbind option_bind].
    destruct (apply_round succs content) as [content' [[]| |]];
      cbn [fst snd]; [|done..].
    rewrite (IH _ _ succs content').
    + by rewrite insert_insert_eq.
    + by rewrite table_insert.
    + apply lookup_insert_eq.
Qed.

Lemma heap_insert_parts i a parts : forall j (s : Heap.Store) content,
  s !! a = Some content ->
  Heap.insert_parts i j parts a s
  = Some (<[a := (insert_parts i j parts content).1]> s,
          (insert_parts i j parts content).2).
Proof.
  induction parts as [|part parts IH]; intros j s content Ha.
  - cbn [Heap.insert_parts insert_parts fst snd]. by rewrite insert_id.
  - cbn [Heap.insert_parts insert_parts].
    destruct (Str.to_int part) as [to_insert| |];
      [|cbn [fst snd]; by rewrite insert_id..].
    rewrite Ha. cbn [mbind option_bind].
    rewrite (IH _ _ (py_insert content (i + j) to_insert))
      by apply lookup_insert_eq.
    by rewrite insert_insert_eq.
Qed.

Lemma heap_decompose_loop v a fuel : forall i (s : Heap.Store) content,
  s !! a = Some content ->
  Heap.decompose_loop fuel v i a s
  = Some (<[a := (decompose_loop fuel v i content).1]> s,
          (decompose_loop fuel v i content).2).
Proof.
  induction fuel as [|fuel IH]; intros i s content Ha.
  - cbn [Heap.decompose_loop decompose_loop fst snd]. by rewrite insert_id.
  - cbn [Heap.decompose_loop decompose_loop]. rewrite Ha.
    cbn [mbind option_bind].
    case_decide; [|cbn [fst snd]; by rewrite insert_id].
    destruct (token ← py_getitem content i; vocab_getitem_int v token)
      as [event| |]; [|cbn [fst snd]; by rewrite insert_id..].
    destruct (Str.split "_" event) as [|token_type [|token_val [|]]];
      try (cbn [fst snd]; by rewrite insert_id).
    case_decide; [|by apply IH].
    destruct (py_del content i) as [content1| |];
      [|cbn [fst snd]; by rewrite insert_id..].
    cbv zeta.
    destruct (py_getitem (Str.split "." token_val) 1) as [part| |];
      [|done..].
    rewrite (heap_insert_parts _ _ _ _ _ content1) by apply lookup_insert_eq.
    cbn [mbind option_bind]. rewrite insert_insert_eq.
    destruct (insert_parts i 0 (Str.split "-" part) content1)
      as [content2 [[]| |]]; cbn [fst snd]; [|done..].
    rewrite (IH _ _ content2) by apply lookup_insert_eq.
    by rewrite insert_insert_eq.
Qed.

Lemma codec_with_store w c a x :
  Forall (fun ts : Z * nat => ts.2 <> a) (Heap.successions w) ->
  Heap.codec w = Some c ->
  Heap.codec (Heap.with_store w (<[a := x]> (Heap.store w))) = Some c.
Proof.
  unfold Heap.codec. intros Hne. cbn [Heap.with_store Heap.successions
    Heap.store Heap.flag Heap.vocabulary Heap.graph].
  by rewrite table_insert.
Qed.

(** C10, as the code has it: both methods work in place. They read the
    wrapper and write nothing but the list object they are given: when it
    is none of the lists of the merge table, the call leaves in it what the
    method computes on its content (also when the method raises half way),
    returns that same object when it returns, and leaves every other list
    object, the merge table and the rest of the wrapper as they were. *)
Theorem methods_frame w c tokens content fuel :
  Heap.codec w = Some c ->
  Heap.store w !! tokens = Some content ->
  Forall (fun ts => ts.2 <> tokens) (Heap.successions w) ->
  exists w1 w2,
    Heap.apply_bpe w tokens
    = Some (w1, (fun _ => tokens) <$> (apply_bpe_run c content).2)
    /\ Heap.decompose_bpe fuel w tokens
       = Some (w2, (fun _ => tokens) <$> (decompose_bpe_run fuel c content).2)
    /\ Heap.store w1
       = <[tokens := (apply_bpe_run c content).1]> (Heap.store w)
    /\ Heap.store w2
       = <[tokens := (decompose_bpe_run fuel c content).1]> (Heap.store w)
    /\ Heap.codec w1 = Some c /\ Heap.codec w2 = Some c.
Proof.
  intros Hcodec Hcontent Hne.
  exists (Heap.with_store w (<[tokens := (apply_bpe_run c content).1]>
                               (Heap.store w))),
         (Heap.with_store w (<[tokens := (decompose_bpe_run fuel c content).1]>
                               (Heap.store w))).
  split_and!; [| |done|done|by apply codec_with_store..].
  - unfold Heap.codec in Hcodec.
    destruct (Heap.table (Heap.successions w) (Heap.store w))
      as [succs|] eqn:Htable; [|done].
    injection Hcodec as <-.
    unfold Heap.apply_bpe, apply_bpe_run. rewrite Hcontent.
    cbn [has_bpe bpe_successions].
    destruct (Heap.flag w) eqn:Hflag; cbn [negb].
    + by rewrite (heap_apply_rounds tokens _ _ Hne _ _ succs content Htable
                    Hcontent).
    + cbn [fst snd fmap result_fmap]. rewrite insert_id by done.
      by destruct w.
  - unfold Heap.codec in Hcodec.
    destruct (Heap.table (Heap.successions w) (Heap.store w))
      as [succs|]; [|done].
    injection Hcodec as <-.
    unfold Heap.decompose_bpe, decompose_bpe_run. cbn [vocab].
    by rewrite (heap_decompose_loop _ tokens fuel 0 _ content Hcontent).
Qed.

Lemma methods_frame_witness :
  Heap.codec Heap.learned
  = Some {| has_bpe := true; vocab := vocab Scenario.learned;
            bpe_successions := [(4, [0; 1])]%Z;
            tokens_types_graph := tokens_types_graph Scenario.learned |}
  /\ Heap.store Heap.learned !! 2 = Some [0; 1; 0; 1; 2]%Z
  /\ Forall (fun ts : Z * nat => ts.2 <> 2) (Heap.successions Heap.learned)
  /\ exists w1 w2,
       Heap.apply_bpe Heap.learned 2 = Some (w1, Ok 2)
       /\ Heap.decompose_bpe 6 Heap.learned 2 = Some (w2, Ok 2)
       /\ Heap.store w1 = <[2 := [4; 4; 2]%Z]> (Heap.store Heap.learned)
       /\ Heap.store w2
          = <[2 := [0; 1; 0; 1; 2]%Z]> (Heap.store Heap.learned)
       /\ Heap.codec w1 = Heap.codec Heap.learned
       /\ Heap.codec w2 = Heap.codec Heap.learned.
Proof.
  assert (Heap.codec Heap.learned
          = Some {| has_bpe := true; vocab := vocab Scenario.learned;
                    bpe_successions := [(4, [0; 1])]%Z;
                    tokens_types_graph := tokens_types_graph Scenario.learned |})
    as Hcodec by reflexivity.
  assert (Heap.store Heap.learned !! 2 = Some [0; 1; 0; 1; 2]%Z) as Hcontent
    by reflexivity.
  assert (Forall (fun ts : Z * nat => ts.2 <> 2)
                 (Heap.successions Heap.learned)) as Hne
    by (repeat constructor; cbn; lia).
  split; [exact Hcodec|]. split; [exact Hcontent|]. split; [exact Hne|].
  destruct (methods_frame Heap.learned _ 2 _ 6 Hcodec Hcontent Hne)
    as (w1 & w2 & H1 & H2 & H3 & H4 & H5 & H6).
  exists w1, w2. rewrite Hcodec. split_and!; done.
Defined.

(** C10, counterexample. A call that raises returns nothing and yet leaves
    the caller's list changed: [decompose_bpe] on the list [4, 9] raises
    KeyError at the unknown token 9 with the list now [0, 1, 9]. A call
    that returns has rewritten the list it was given: the training track
    passed to [apply_bpe] holds [4, 4, 2] afterwards. And the merge table
    is not out of reach: [apply_bpe] on the list that the table holds for
    token 4 merges that list into [4], so that the table now maps token 4
    to [4]. *)
Lemma methods_not_pure :
  (exists w',
     Heap.decompose_bpe 6 Heap.learned 0 = Some (w', Raise KeyError)
     /\ Heap.store Heap.learned !! 0 = Some [4; 9]%Z
     /\ Heap.store w' !! 0 = Some [0; 1; 9]%Z)
  /\ (exists w',
        Heap.apply_bpe Heap.learned 2 = Some (w', Ok 2)
        /\ Heap.store Heap.learned !! 2 = Some [0; 1; 0; 1; 2]%Z
        /\ Heap.store w' !! 2 = Some [4; 4; 2]%Z)
  /\ (exists w' c c',
        Heap.apply_bpe Heap.learned 1 = Some (w', Ok 1)
        /\ Heap.codec Heap.learned = Some c
        /\ bpe_successions c = [(4, [0; 1])]%Z
        /\ Heap.codec w' = Some c'
        /\ bpe_successions c' = [(4, [4])]%Z).
Proof.
  split_and!.
  - eexists. split; [vm_compute; reflexivity|]. split; reflexivity.
  - eexists. split; [vm_compute; reflexivity|]. split; reflexivity.
  - eexists _, _, _. split; [vm_compute; reflexivity|].
    split; [reflexivity|]. split; [reflexivity|]. split; reflexivity.
Qed.

(** ** The traced scenario, computed *)

(** C2, as the code has it: learning from [[0; 1; 0; 1; 2]] towards five
    tokens counts (0,1) twice, (1,0) and (1,2) once, registers token 4 with
    succession [[0; 1]] and full decomposition [[0; 1]], and rewrites the
    track to [[4; 4; 2]], both occurrences of the pair being merged in the
    pass; [apply_bpe] gives the same track and [decompose_bpe] restores the
    primitive tokens. *)
Theorem traced_scenario :
  count_occurrences Scenario.corpus
    = [([0; 1]%Z, 2); ([1; 0]%Z, 1); ([1; 2]%Z, 1)]
  /\ py_max_key (count_occurrences Scenario.corpus) = Ok [0; 1]%Z
  /\ bpe Scenario.tokenizer Scenario.corpus 5
     = (Scenario.learned, Ok [[[4; 4; 2]]]%Z)
  /\ vocab_getitem_int (vocab Scenario.learned) 4 = Ok "BPE_0-1.0-1"
  /\ vocab_len (vocab Scenario.learned) = 5
  /\ bpe_successions Scenario.learned = [(4, [0; 1])%Z]
  /\ decomposition_of_event "BPE_0-1.0-1" = Ok [0; 1]%Z
  /\ apply_bpe Scenario.learned [0; 1; 0; 1; 2]%Z = Ok [4; 4; 2]%Z
  /\ decompose_bpe 6 Scenario.learned [4; 0; 1; 2]%Z = Ok [0; 1; 0; 1; 2]%Z
  /\ decompose_bpe 6 Scenario.learned [4; 4; 2]%Z = Ok [0; 1; 0; 1; 2]%Z.
Proof. vm_compute. done. Qed.

(** C2, counterexample: the track is not rewritten to [[4; 0; 1; 2]]. *)
Lemma traced_scenario_track :
  (bpe Scenario.tokenizer Scenario.corpus 5).2 <> Ok [[[4; 0; 1; 2]]]%Z.
Proof. vm_compute. discriminate. Qed.

(** ** Well-formed vocabularies and the round trip *)

Lemma vocab_ok_entry v token event :
  vocab_ok v = true -> dict_get token (_token_to_event v) = Some event ->
  (0 <= token)%Z /\ two_fields event = true
  /\ flat_entry v (token, event) = true /\ merge_entry v (token, event) = true.
Proof.
  unfold vocab_ok, tokens_nonneg, flat.
  intros [[[Hnn Htwo]%andb_prop Hflat]%andb_prop Hmerge]%andb_prop Hget.
  apply dict_get_elem, list_elem_of_In in Hget.
  rewrite forallb_forall in Hnn, Htwo, Hflat, Hmerge.
  specialize (Hnn _ Hget). apply bool_decide_eq_true in Hnn.
  split_and!; [done|by apply (Htwo _ Hget)|by apply Hflat|by apply Hmerge].
Qed.

Lemma primitive_plain v token :
  vocab_ok v = true -> is_primitive v token = true -> is_plain v token = true.
Proof.
  unfold is_primitive, is_plain. intros Hok.
  destruct (dict_get token (_token_to_event v)) as [event|] eqn:Hget; [|done].
  intros ->. by destruct (vocab_ok_entry _ _ _ Hok Hget) as (_ & -> & _).
Qed.

Lemma known_decodable v token event :
  vocab_ok v = true -> dict_get token (_token_to_event v) = Some event ->
  decodable v token = true.
Proof.
  intros Hok Hget. destruct (vocab_ok_entry _ _ _ Hok Hget) as (_ & Htwo & Hflat & _).
  unfold decodable. rewrite Hget, Htwo. simpl.
  unfold flat_entry in Hflat. simpl in Hflat. case_decide; [|done].
  destruct (decomposition_of_event event) as [d| |]; [|done..].
  apply forallb_Forall. apply forallb_Forall in Hflat.
  eapply Forall_impl; [exact Hflat|]. intros x. by apply primitive_plain.
Qed.

(** What the merge table says of a merged token, in a well-formed codec. *)
Lemma merge_flatten self tok succ :
  codec_ok self = true -> (tok, succ) ∈ bpe_successions self ->
  length succ = 2
  /\ decodable (vocab self) tok = true
  /\ exists d, flatten_token (vocab self) tok = Ok d
               /\ to_replace_bis (vocab self) succ = Ok d.
Proof.
  unfold codec_ok, merges_ok. intros [Hok Hmerges]%andb_prop Hin.
  rewrite forallb_forall in Hmerges.
  specialize (Hmerges _ (proj1 (list_elem_of_In _ _) Hin)). simpl in Hmerges.
  destruct (dict_get tok (_token_to_event (vocab self))) as [event|] eqn:Hget; [|done].
  apply andb_prop in Hmerges as [Hty%bool_decide_eq_true Hsucc%bool_decide_eq_true].
  destruct (vocab_ok_entry _ _ _ Hok Hget) as (_ & _ & _ & Hentry).
  unfold merge_entry in Hentry. simpl in Hentry.
  rewrite decide_True, Hsucc in Hentry by done.
  destruct (decomposition_of_event event) as [d| |] eqn:Hd; [|done..].
  apply andb_prop in Hentry as [Hlen%bool_decide_eq_true Hbis%bool_decide_eq_true].
  split_and!; [done|by eapply known_decodable|]. exists d. split; [|done].
  unfold flatten_token, dict_getitem. rewrite Hget. simpl.
  by rewrite decide_True.
Qed.

Lemma to_replace_bis_app_ok v l1 l2 x :
  to_replace_bis v (l1 ++ l2) = Ok x ->
  exists x1 x2, to_replace_bis v l1 = Ok x1 /\ to_replace_bis v l2 = Ok x2
                /\ x = x1 ++ x2.
Proof.
  rewrite to_replace_bis_app.
  destruct (to_replace_bis v l1) as [x1| |]; simpl; [|done..].
  destruct (to_replace_bis v l2) as [x2| |]; simpl; [|done..].
  intros [= <-]. eauto.
Qed.

(** A merge changes neither the flattening of a sequence nor the fact that
    its tokens are decodable. *)
Lemma merge_step_flatten self l l' x :
  codec_ok self = true -> merge_step (bpe_successions self) l l' ->
  Forall (fun token => decodable (vocab self) token = true) l ->
  to_replace_bis (vocab self) l = Ok x ->
  Forall (fun token => decodable (vocab self) token = true) l'
  /\ to_replace_bis (vocab self) l' = Ok x.
Proof.
  intros Hok (tok & succ & Hin & pre & post & -> & ->) Hdec Hx.
  destruct (merge_flatten _ _ _ Hok Hin) as (_ & Htok & d & Hflat & Hbis).
  apply Forall_app in Hdec as [Hpre [_ Hpost]%Forall_app]. split.
  - apply Forall_app. split; [done|]. by constructor.
  - apply to_replace_bis_app_ok in Hx as (x1 & x23 & Hx1 & Hx23 & ->).
    apply to_replace_bis_app_ok in Hx23 as (x2 & x3 & Hx2 & Hx3 & ->).
    rewrite Hbis in Hx2. injection Hx2 as ->.
    rewrite to_replace_bis_app, Hx1. simpl.
    by rewrite to_replace_bis_cons, Hflat, Hx3.
Qed.

Lemma merge_steps_flatten self l l' x :
  codec_ok self = true -> rtc (merge_step (bpe_successions self)) l l' ->
  Forall (fun token => decodable (vocab self) token = true) l ->
  to_replace_bis (vocab self) l = Ok x ->
  Forall (fun token => decodable (vocab self) token = true) l'
  /\ to_replace_bis (vocab self) l' = Ok x.
Proof.
  intros Hok. induction 1 as [|l1 l2 l3 Hstep _ IH]; [done|].
  intros Hdec Hx.
  destruct (merge_step_flatten _ _ _ _ Hok Hstep Hdec Hx) as [Hdec2 Hx2]. auto.
Qed.

Lemma codec_ok_merges_not_nil self :
  codec_ok self = true -> Forall (fun ts => ts.2 <> []) (bpe_successions self).
Proof.
  intros Hok. apply Forall_forall. intros [tok succ] Hin.
  destruct (merge_flatten _ _ _ Hok Hin) as (Hlen & _). simpl.
  destruct succ; [done|done].
Qed.

(** C1, as the code has it: in a well-formed codec (every merged token of
    the vocabulary records a succession of two tokens and the flattening of
    that succession as its full decomposition, and the merge table is read
    from the vocabulary), for every sequence of primitive tokens of the
    vocabulary [apply_bpe] returns a sequence that [decompose_bpe] turns
    back into the original one. *)
Theorem round_trip self tokens :
  codec_ok self = true ->
  forallb (is_primitive (vocab self)) tokens = true ->
  exists tokens',
    apply_bpe self tokens = Ok tokens'
    /\ forall fuel, length tokens < fuel ->
         decompose_bpe fuel self tokens' = Ok tokens.
Proof.
  intros Hok Hprim%forallb_Forall.
  assert (vocab_ok (vocab self) = true) as Hvok
    by (by apply andb_prop in Hok as [? _]).
  assert (Forall (fun token => is_plain (vocab self) token = true) tokens) as Hplain.
  { eapply Forall_impl; [exact Hprim|]. intros token. by apply primitive_plain. }
  destruct (apply_bpe_spec self tokens (codec_ok_merges_not_nil _ Hok))
    as (tokens' & Hrun & Hrtc).
  exists tokens'. split; [unfold apply_bpe; by rewrite Hrun|].
  destruct (merge_steps_flatten self tokens tokens' tokens Hok Hrtc)
    as [Hdec Hflat].
  { eapply Forall_impl; [exact Hplain|]. intros token. apply plain_decodable. }
  { by apply to_replace_bis_plain. }
  destruct (decompose_bpe_flatten self tokens' Hdec) as (d & Hd & _ & Hloop).
  rewrite Hflat in Hd. injection Hd as <-.
  intros fuel Hfuel. unfold decompose_bpe. by rewrite Hloop.
Qed.

Lemma round_trip_witness :
  codec_ok Scenario.learned = true
  /\ forallb (is_primitive (vocab Scenario.learned)) [0; 1; 0; 1; 2]%Z = true
  /\ exists tokens',
       apply_bpe Scenario.learned [0; 1; 0; 1; 2]%Z = Ok tokens'
       /\ forall fuel, length [0; 1; 0; 1; 2]%Z < fuel ->
            decompose_bpe fuel Scenario.learned tokens' = Ok [0; 1; 0; 1; 2]%Z.
Proof.
  split_and!; [reflexivity|reflexivity|].
  apply (round_trip Scenario.learned [0; 1; 0; 1; 2]%Z); reflexivity.
Defined.

(** C1, counterexample: [[4]] is a sequence of tokens of the learned
    vocabulary; [apply_bpe] returns it as it is and [decompose_bpe] then
    returns [[0; 1]], not [[4]]. *)
Lemma round_trip_merged_input :
  is_Some (dict_get 4%Z (_token_to_event (vocab Scenario.learned)))
  /\ apply_bpe Scenario.learned [4]%Z = Ok [4]%Z
  /\ decompose_bpe 3 Scenario.learned [4]%Z = Ok [0; 1]%Z
  /\ decompose_bpe 3 Scenario.learned [4]%Z <> Ok [4]%Z.
Proof. vm_compute. split_and!; [by eexists|done|done|discriminate]. Qed.

(** ** Loading a persisted vocabulary *)

Lemma load_entry_configuration self kv :
  configuration kv = true -> load_entry self kv.1 kv.2 = Some (self, Ok tt).
Proof.
  destruct kv as [key value]. unfold configuration, load_entry. cbn [fst snd].
  destruct (decide (key = "encoding")); [done|].
  destruct (decide (key = "beat_res")).
  { destruct value; try done. by destruct (load_beat_res d). }
  destruct (decide (key = "additional_tokens")); [by destruct value|].
  destruct (decide (key = "token_to_event")); [done|].
  unfold set_attribute. destruct (decide (key = "has_bpe")); [done|].
  by destruct (bool_decide _ || _).
Qed.

Lemma load_items_skip self pre rest :
  forallb configuration pre = true ->
  load_items self (pre ++ rest) = load_items self rest.
Proof.
  induction pre as [|[key value] pre IH]; [done|].
  cbn [forallb]. intros [Hkv Hpre]%andb_prop. cbn [app load_items].
  pose proof (load_entry_configuration self (key, value) Hkv) as Hentry.
  cbn [fst snd] in Hentry. rewrite Hentry. by apply IH.
Qed.

(** C5, as the code has it: [load_params] checks nothing about the
    persisted bijection. In a parameter dictionary whose other entries are
    read without error and leave the wrapper alone, whenever the
    serialized bijection has integer keys and string descriptors the call
    returns normally; [token_to_event] then holds every token that was
    written, with the descriptor written last for it, and [event_to_token]
    maps a descriptor to the token written last for it, so that of two
    tokens sharing a descriptor both stay in [token_to_event] and the later
    one only in [event_to_token]. *)
Theorem load_params_accepts_duplicates self pre d post range value items :
  dict_get "pitch_range" (pre ++ ("token_to_event", JDict d) :: post)
    = Some range ->
  is_ok (range_args range) = true ->
  forallb configuration (pre ++ post) = true ->
  descriptors d = Some value ->
  int_keys value = Ok items ->
  exists self',
    load_params self (pre ++ ("token_to_event", JDict d) :: post)
      = Some (self', Ok tt)
    /\ (forall token,
          dict_get token (_token_to_event (vocab self'))
          = dict_get token (reverse items))
    /\ (forall event,
          dict_get event (_event_to_token (vocab self'))
          = dict_get event (reverse (map (fun te => (te.2, te.1)) items))).
Proof.
  intros Hrange Hargs Hconf Hdesc Hkeys.
  rewrite forallb_app in Hconf. apply andb_prop in Hconf as [Hpre Hpost].
  unfold load_params. rewrite Hrange.
  destruct (range_args range) as [r| |]; [|done..].
  rewrite (load_items_skip _ _ _ Hpre). cbn [load_items].
  unfold load_entry. rewrite !decide_False, decide_True by done.
  unfold load_vocabulary. rewrite Hdesc.
  unfold load_token_to_event. rewrite Hkeys.
  rewrite <- (app_nil_r post), (load_items_skip _ _ _ Hpost). cbn [load_items].
  eexists. split; [done|]. simpl. split; intros; apply dict_get_of_items.
Qed.

Lemma load_params_accepts_duplicates_witness :
  exists self',
    load_params Scenario.tokenizer Corrupt.params = Some (self', Ok tt)
    /\ (forall token,
          dict_get token (_token_to_event (vocab self'))
          = dict_get token
              (reverse [(0, "Pitch_60"); (1, "Pitch_60"); (2, "Pitch_62");
                        (3, "BPE_0-2.0-2")]%Z))
    /\ (forall event,
          dict_get event (_event_to_token (vocab self'))
          = dict_get event
              (reverse (map (fun te : Z * string => (te.2, te.1))
                            [(0, "Pitch_60"); (1, "Pitch_60"); (2, "Pitch_62");
                             (3, "BPE_0-2.0-2")]%Z))).
Proof.
  apply (load_params_accepts_duplicates Scenario.tokenizer
           [("pitch_range", JList [JInt 21; JInt 109]);
            ("beat_res", JDict [("0_4", JInt 8); ("4_12", JInt 4)]);
            ("additional_tokens", JDict [("Chord", JBool false)])]
           [("0", JStr "Pitch_60"); ("1", JStr "Pitch_60");
            ("2", JStr "Pitch_62"); ("3", JStr "BPE_0-2.0-2")]
           []
           (JList [JInt 21; JInt 109])
           [("0", "Pitch_60"); ("1", "Pitch_60"); ("2", "Pitch_62");
            ("3", "BPE_0-2.0-2")]);
    reflexivity.
Defined.

(** C5, counterexample: tokens 0 and 1 are both written with the descriptor
    ["Pitch_60"]; [load_params] returns normally and the vocabulary is
    populated, the descriptor leading back to token 1 only. And when
    [load_params] does fail, on a key that is no integer, it raises
    ValueError and leaves the tokenizer without the vocabulary it had:
    token 3 is gone. *)
Lemma load_params_no_corrupt_state :
  (exists self',
     load_params Scenario.tokenizer Corrupt.params = Some (self', Ok tt)
     /\ _token_to_event (vocab self')
        = [(0, "Pitch_60"); (1, "Pitch_60"); (2, "Pitch_62");
           (3, "BPE_0-2.0-2")]%Z
     /\ _event_to_token (vocab self')
        = [("Pitch_60", 1); ("Pitch_62", 2); ("BPE_0-2.0-2", 3)]%Z)
  /\ (exists self',
        load_params Scenario.tokenizer Corrupt.broken_params
        = Some (self', Raise ValueError)
        /\ dict_get 3%Z (_token_to_event (vocab Scenario.tokenizer))
           = Some "Pitch_63"
        /\ dict_get 3%Z (_token_to_event (vocab self')) = None).
Proof. split; eexists; (split; [vm_compute; reflexivity|]); done. Qed.

(** ** Learning on a corpus without pairs *)

Lemma count_track_short occurrences track :
  length track <= 1 -> count_track occurrences track = occurrences.
Proof.
  intros Hlen. unfold count_track.
  by replace (length track - 1) with 0 by lia.
Qed.

Lemma count_occurrences_no_pairs samples :
  no_pairs samples = true -> count_occurrences samples = [].
Proof.
  unfold no_pairs, count_occurrences. intros Hno%forallb_Forall.
  cut (forall occ : dict (list Z) nat,
         fold_left (fun occ sample => fold_left count_track sample occ)
                   samples occ = occ); [by intros ->|].
  induction Hno as [|sample samples Hsample _ IH]; intros occ; [done|].
  cbn [fold_left]. rewrite IH.
  apply forallb_Forall in Hsample. clear IH. revert occ.
  induction Hsample as [|track sample Htrack%bool_decide_eq_true _ IH];
    intros occ; [done|].
  cbn [fold_left]. by rewrite count_track_short.
Qed.

Lemma bpe_iteration_no_pairs v samples :
  no_pairs samples = true -> bpe_iteration v samples = (v, Raise ValueError).
Proof.
  intros Hno. unfold bpe_iteration.
  by rewrite (count_occurrences_no_pairs _ Hno).
Qed.

(** C6: on a corpus without two adjacent tokens (no track, or tracks of one
    token at most) and a target above the current size, [bpe] stops at once
    with ValueError, the exception [max] raises on the empty dictionary of
    counts; it does not loop, does not reach the division of the
    statistics, and leaves the wrapper as it was. *)
Theorem bpe_empty_corpus self samples vocab_size :
  (vocab_size > Z.of_nat (vocab_len (vocab self)))%Z ->
  no_pairs samples = true ->
  bpe self samples vocab_size = (self, Raise ValueError).
Proof.
  intros Hsize Hno. unfold bpe. rewrite decide_True by done.
  cbn [bpe_loop]. rewrite decide_True by lia.
  rewrite (bpe_iteration_no_pairs _ _ Hno). by destruct self.
Qed.

Lemma bpe_empty_corpus_witness :
  (5 > Z.of_nat (vocab_len (vocab Scenario.tokenizer)))%Z
  /\ no_pairs [[[0]; []]; []]%Z = true
  /\ bpe Scenario.tokenizer [[[0]; []]; []]%Z 5
     = (Scenario.tokenizer, Raise ValueError).
Proof.
  split_and!; [reflexivity|reflexivity|].
  apply (bpe_empty_corpus Scenario.tokenizer [[[0]; []]; []]%Z 5); reflexivity.
Defined.

(** ** Registering a token *)

Lemma max_key_bound (keys : list Z) k :
  k ∈ keys -> (k <= fold_right Z.max (-1) keys)%Z.
Proof.
  induction keys as [|k' keys IH]; [by intros ?%elem_of_nil|].
  intros [->|Hin]%elem_of_cons; simpl; [lia|]. specialize (IH Hin). lia.
Qed.

Lemma next_token_fresh v : dict_get (next_token v) (_token_to_event v) = None.
Proof.
  apply dict_get_None. intros Hin%max_key_bound. unfold next_token in Hin. lia.
Qed.

Lemma next_token_nonneg v : (0 <= next_token v)%Z.
Proof.
  unfold next_token.
  assert (forall keys, (-1 <= fold_right Z.max (-1) keys)%Z) as H.
  { induction keys as [|k keys IH]; simpl; lia. }
  specialize (H (dict_keys (_token_to_event v))). lia.
Qed.

Lemma add_event_ok v event v' :
  add_event v event = Ok v' ->
  dict_get event (_event_to_token v) = None
  /\ _token_to_event v' = _token_to_event v ++ [(next_token v, event)]
  /\ _event_to_token v' = _event_to_token v ++ [(event, next_token v)]
  /\ _token_types_indexes v'
     = index_add (_token_types_indexes v) (next_token v) event.
Proof.
  unfold add_event.
  destruct (dict_get event (_event_to_token v)) eqn:Hget; [done|].
  intros [= <-]. simpl.
  by rewrite !dict_set_fresh by (done || apply next_token_fresh).
Qed.

(** Vocabulary size monotonicity: a registration adds exactly one token. *)
Lemma add_event_len v event v' :
  add_event v event = Ok v' -> vocab_len v' = S (vocab_len v).
Proof.
  intros (_ & _ & Hett & _)%add_event_ok. unfold vocab_len.
  rewrite Hett, length_app. simpl. lia.
Qed.

(** What holds of a vocabulary still holds once a token is appended. *)
Section Extension.
Variables (v v' : Vocabulary) (new : Z) (event : string).
Hypothesis extended : _token_to_event v' = _token_to_event v ++ [(new, event)].

Lemma dict_get_extended token e :
  dict_get token (_token_to_event v) = Some e ->
  dict_get token (_token_to_event v') = Some e.
Proof. intros H. by rewrite extended, dict_get_app, H. Qed.

Lemma is_primitive_extended token :
  is_primitive v token = true -> is_primitive v' token = true.
Proof.
  unfold is_primitive.
  destruct (dict_get token (_token_to_event v)) as [e|] eqn:Hget; [|done].
  by rewrite (dict_get_extended _ _ Hget).
Qed.

Lemma flatten_token_extended token x :
  flatten_token v token = Ok x -> flatten_token v' token = Ok x.
Proof.
  unfold flatten_token, dict_getitem.
  destruct (dict_get token (_token_to_event v)) as [e|] eqn:Hget; [|done].
  by rewrite (dict_get_extended _ _ Hget).
Qed.

Lemma to_replace_bis_extended l x :
  to_replace_bis v l = Ok x -> to_replace_bis v' l = Ok x.
Proof.
  revert x. induction l as [|token l IH]; intros x; [done|].
  rewrite !to_replace_bis_cons.
  destruct (flatten_token v token) as [y| |] eqn:Hy; simpl; [|done..].
  rewrite (flatten_token_extended _ _ Hy). simpl.
  destruct (to_replace_bis v l) as [z| |]; simpl; [|done..].
  by rewrite (IH z).
Qed.

Lemma flat_entry_extended te :
  flat_entry v te = true -> flat_entry v' te = true.
Proof.
  unfold flat_entry. case_decide; [|done].
  destruct (decomposition_of_event te.2) as [d| |]; [|done..].
  intros Hd%forallb_Forall. apply forallb_Forall.
  eapply Forall_impl; [exact Hd|]. apply is_primitive_extended.
Qed.

Lemma merge_entry_extended te :
  merge_entry v te = true -> merge_entry v' te = true.
Proof.
  unfold merge_entry. case_decide; [|done].
  destruct (succession_of_event te.2) as [s| |]; [|done..].
  destruct (decomposition_of_event te.2) as [d| |]; [|done..].
  intros [-> Hbis%bool_decide_eq_true]%andb_prop. simpl.
  apply bool_decide_eq_true. by apply to_replace_bis_extended.
Qed.

End Extension.

(** ** Flattening in a flat vocabulary *)

Lemma decomposition_not_nil event d : decomposition_of_event event = Ok d -> d <> [].
Proof.
  unfold decomposition_of_event.
  destruct (py_getitem (Str.split "_" event) 1) as [val| |]; simpl; [|done..].
  destruct (py_getitem (Str.split "." val) 1) as [part| |]; simpl; [|done..].
  intros Hlen%map_result_length ->.
  pose proof (StrFacts.split_not_nil "-" part). by destruct (Str.split "-" part).
Qed.

Section Flat.
Variable v : Vocabulary.
Hypothesis nonneg : tokens_nonneg v = true.
Hypothesis is_flat : flat v = true.

Lemma known_nonneg token event :
  dict_get token (_token_to_event v) = Some event -> (0 <= token)%Z.
Proof.
  intros Hin%dict_get_elem%list_elem_of_In.
  pose proof nonneg as Hnn. unfold tokens_nonneg in Hnn.
  rewrite forallb_forall in Hnn. specialize (Hnn _ Hin).
  by apply bool_decide_eq_true in Hnn.
Qed.

Lemma primitive_nonneg token : is_primitive v token = true -> (0 <= token)%Z.
Proof.
  unfold is_primitive.
  destruct (dict_get token (_token_to_event v)) as [e|] eqn:Hget; [|done].
  intros _. by eapply known_nonneg.
Qed.

Lemma flatten_token_flat token x :
  flatten_token v token = Ok x ->
  (0 <= token)%Z /\ x <> []
  /\ Forall (fun t => is_primitive v t = true) x.
Proof.
  unfold flatten_token, dict_getitem.
  destruct (dict_get token (_token_to_event v)) as [e|] eqn:Hget; [|done].
  simpl. intros Hd. split; [by eapply known_nonneg|].
  case_decide as Hty.
  - split; [by eapply decomposition_not_nil|].
    apply dict_get_elem, list_elem_of_In in Hget.
    pose proof is_flat as Hflat. unfold flat in Hflat.
    rewrite forallb_forall in Hflat.
    specialize (Hflat _ Hget). unfold flat_entry in Hflat. simpl in Hflat.
    rewrite decide_True, Hd in Hflat by done. by apply forallb_Forall.
  - injection Hd as <-. split; [done|]. constructor; [|done].
    unfold is_primitive. rewrite Hget.
    by apply negb_true_iff, bool_decide_eq_false.
Qed.

Lemma to_replace_bis_flat p d :
  to_replace_bis v p = Ok d ->
  Forall (fun z => (0 <= z)%Z) p
  /\ Forall (fun t => is_primitive v t = true) d
  /\ (p <> [] -> d <> []).
Proof.
  revert d. induction p as [|token p IH]; intros d.
  - intros [= <-]. by split_and!.
  - rewrite to_replace_bis_cons.
    destruct (flatten_token v token) as [x| |] eqn:Hx; simpl; [|done..].
    destruct (to_replace_bis v p) as [y| |]; simpl; [|done..].
    intros [= <-]. destruct (flatten_token_flat _ _ Hx) as (Hnn & Hne & Hprim).
    destruct (IH y eq_refl) as (Hp & Hy & _). split_and!.
    + by constructor.
    + by apply Forall_app.
    + intros _. by destruct x.
Qed.

(** Registering the pair [p] with its flattening [d] keeps the token ids
    non-negative and the decompositions flat. *)
Lemma register_flat p d v' :
  p <> [] -> to_replace_bis v p = Ok d ->
  add_event v (bpe_event (to_replace_str p d)) = Ok v' ->
  tokens_nonneg v' = true /\ flat v' = true.
Proof.
  intros Hp Hbis (_ & Htte & _)%add_event_ok.
  destruct (to_replace_bis_flat _ _ Hbis) as (Hpnn & Hprim & Hd).
  specialize (Hd Hp).
  assert (Forall (fun z => (0 <= z)%Z) d) as Hdnn.
  { eapply Forall_impl; [exact Hprim|]. apply primitive_nonneg. }
  split.
  - pose proof nonneg as Hnn. unfold tokens_nonneg in Hnn |- *.
    rewrite Htte, forallb_app, Hnn. simpl.
    rewrite andb_true_r. apply bool_decide_eq_true, next_token_nonneg.
  - unfold flat. rewrite Htte, forallb_app. apply andb_true_intro. split.
    + apply forallb_Forall. pose proof is_flat as Hflat.
      unfold flat in Hflat. apply forallb_Forall in Hflat.
      eapply Forall_impl; [exact Hflat|].
      intros te. by apply (flat_entry_extended _ _ _ _ Htte).
    + cbn [forallb]. rewrite andb_true_r. unfold flat_entry. cbn [snd].
      rewrite decide_True by (by apply event_type_bpe_event).
      rewrite decomposition_bpe_event by done.
      apply forallb_Forall. eapply Forall_impl; [exact Hprim|].
      intros t. by apply (is_primitive_extended _ _ _ _ Htte).
Qed.

End Flat.

(** ** Counting pairs *)

Lemma dict_keys_set {K V} `{EqDecision K} (k k' : K) (x : V) (d : dict K V) :
  k' ∈ dict_keys (dict_set k x d) <-> k' = k \/ k' ∈ dict_keys d.
Proof.
  induction d as [|[k0 x0] d IH]; simpl.
  - rewrite list_elem_of_singleton. split; [by left|]. intros [?|?%elem_of_nil]; done.
  - case_decide; simplify_eq; simpl; rewrite !elem_of_cons; [tauto|].
    rewrite IH. tauto.
Qed.

Lemma count_pair_keys occurrences key k :
  k ∈ dict_keys (count_pair occurrences key) <-> k = key \/ k ∈ dict_keys occurrences.
Proof.
  unfold count_pair. destruct (dict_get key occurrences); apply dict_keys_set.
Qed.

Lemma slice_pair track i :
  i < length track - 1 ->
  length (py_slice track i (i + 2)) = 2
  /\ track = take i track ++ py_slice track i (i + 2) ++ drop (i + 2) track.
Proof.
  intros Hi.
  assert (length (py_slice track i (i + 2)) = 2) as Hlen.
  { unfold py_slice. rewrite length_take, length_drop. lia. }
  split; [done|].
  pose proof (slice_split track i (py_slice track i (i + 2))) as H.
  rewrite Hlen in H. apply H; [lia|done].
Qed.

Lemma count_track_keys occurrences track k :
  k ∈ dict_keys (count_track occurrences track) <->
  k ∈ dict_keys occurrences
  \/ exists i, i < length track - 1 /\ k = py_slice track i (i + 2).
Proof.
  unfold count_track.
  cut (forall n occ,
         k ∈ dict_keys (fold_left
                          (fun occ i => count_pair occ (py_slice track i (i + 2)))
                          (seq 0 n) occ)
         <-> k ∈ dict_keys occ \/ exists i, i < n /\ k = py_slice track i (i + 2)).
  { intros H. apply H. }
  induction n as [|n IH]; intros occ.
  - simpl. split; [by left|]. intros [?|(i & ? & _)]; [done|lia].
  - rewrite seq_S, fold_left_app. simpl. rewrite count_pair_keys, IH. split.
    + intros [->|[?|(i & Hi & ->)]]; [right; exists n; split; [lia|done]|by left|].
      right. exists i. split; [lia|done].
    + intros [?|(i & Hi & ->)]; [by right; left|].
      destruct (decide (i = n)) as [->|]; [by left|].
      right. right. exists i. split; [lia|done].
Qed.

Lemma count_occurrences_keys samples k :
  k ∈ dict_keys (count_occurrences samples) <->
  exists sample track i,
    sample ∈ samples /\ track ∈ sample
    /\ i < length track - 1 /\ k = py_slice track i (i + 2).
Proof.
  unfold count_occurrences.
  cut (forall occ : dict (list Z) nat,
         k ∈ dict_keys (fold_left (fun occ sample => fold_left count_track sample occ)
                                  samples occ)
         <-> k ∈ dict_keys occ
             \/ exists sample track i,
                  sample ∈ samples /\ track ∈ sample
                  /\ i < length track - 1 /\ k = py_slice track i (i + 2)).
  { intros H. rewrite H. split; [|by right].
    intros [?%elem_of_nil|?]; done. }
  induction samples as [|sample samples IH]; intros occ.
  - simpl. split; [by left|]. intros [?|(? & ? & ? & ?%elem_of_nil & _)]; done.
  - cbn [fold_left]. rewrite IH.
    assert (forall occ' : dict (list Z) nat,
              k ∈ dict_keys (fold_left count_track sample occ')
              <-> k ∈ dict_keys occ'
                  \/ exists track i, track ∈ sample /\ i < length track - 1
                                     /\ k = py_slice track i (i + 2)) as Hsample.
    { clear IH. induction sample as [|track sample IHs]; intros occ'.
      - simpl. split; [by left|]. intros [?|(? & ? & ?%elem_of_nil & _)]; done.
      - cbn [fold_left]. rewrite IHs, count_track_keys. split.
        + intros [[?|(i & Hi & ->)]|(track' & i & Hin & Hi & ->)]; [by left| |].
          * right. exists track, i. split_and!; [left|done|done].
          * right. exists track', i. split_and!; [by right|done|done].
        + intros [?|(track' & i & [->|Hin]%elem_of_cons & Hi & ->)].
          * by left; left.
          * left. right. by exists i.
          * right. by exists track', i. }
    rewrite Hsample. split.
    + intros [[?|(track & i & Hin & Hi & ->)]|(sample' & track & i & Hin & Hrest)].
      * by left.
      * right. exists sample, track, i. split_and!; [left|done..].
      * right. exists sample', track, i. split; [by right|done].
    + intros [?|(sample' & track & i & [->|Hin]%elem_of_cons & Htrack & Hi & ->)].
      * by left; left.
      * left. right. by exists track, i.
      * right. by exists sample', track, i.
Qed.

(** A counted key is a pair that stands in the corpus. *)
Lemma counted_occurs samples k :
  k ∈ dict_keys (count_occurrences samples) -> length k = 2 /\ occurs k samples.
Proof.
  intros (sample & track & i & Hs & Ht & Hi & ->)%count_occurrences_keys.
  destruct (slice_pair _ _ Hi) as [Hlen Hsplit]. split; [done|].
  by exists sample, track, (take i track), (drop (i + 2) track).
Qed.

Lemma py_max_key_elem occurrences k :
  py_max_key occurrences = Ok k -> k ∈ dict_keys occurrences.
Proof.
  unfold py_max_key. destruct (dict_keys occurrences) as [|k0 ks]; [done|].
  intros [= <-].
  cut (forall rest best, rest ⊆ k0 :: ks -> best ∈ k0 :: ks ->
         fold_left (fun best k' =>
                      if decide (default 0 (dict_get best occurrences)
                                 < default 0 (dict_get k' occurrences))
                      then k' else best) rest best ∈ k0 :: ks).
  { intros H. apply H; [|left]. intros x Hx. by right. }
  induction rest as [|k' rest IH]; intros best Hsub Hbest; [done|].
  cbn [fold_left]. apply IH.
  - intros x Hx. apply Hsub. by right.
  - case_decide; [|done]. apply Hsub. left.
Qed.

(** ** One turn of the learner *)

Lemma bpe_iteration_cases v samples :
  ((bpe_iteration v samples).1 = v /\ is_ok (bpe_iteration v samples).2 = false)
  \/ exists p d v',
       py_max_key (count_occurrences samples) = Ok p
       /\ to_replace_bis v p = Ok d
       /\ add_event v (bpe_event (to_replace_str p d)) = Ok v'
       /\ bpe_iteration v samples
          = (v', replace_samples v' (bpe_event (to_replace_str p d)) p samples).
Proof.
  unfold bpe_iteration.
  destruct (py_max_key (count_occurrences samples)) as [p| |]; [|by left..].
  destruct (to_replace_bis v p) as [d| |] eqn:Hbis; [|by left..].
  destruct (add_event v (bpe_event (to_replace_str p d))) as [v'| |] eqn:Hadd;
    [|by left..].
  right. by exists p, d, v'.
Qed.

Lemma winning_pair samples p :
  py_max_key (count_occurrences samples) = Ok p -> length p = 2 /\ occurs p samples.
Proof. intros Hp%py_max_key_elem. by apply counted_occurs. Qed.

(** Vocabulary size monotonicity: a turn that completes adds exactly one
    token; a turn that raises adds one token or none. *)
Lemma bpe_iteration_len v samples v' samples' :
  bpe_iteration v samples = (v', Ok samples') -> vocab_len v' = S (vocab_len v).
Proof.
  destruct (bpe_iteration_cases v samples) as [[_ Hno]|(p & d & v1 & _ & _ & Hadd & ->)].
  - intros Heq. by rewrite Heq in Hno.
  - intros [= <- _]. by eapply add_event_len.
Qed.

Lemma bpe_iteration_flat v samples :
  tokens_nonneg v = true -> flat v = true ->
  tokens_nonneg (bpe_iteration v samples).1 = true
  /\ flat (bpe_iteration v samples).1 = true.
Proof.
  intros Hnn Hflat.
  destruct (bpe_iteration_cases v samples)
    as [[-> _]|(p & d & v1 & Hp & Hbis & Hadd & ->)]; [done|].
  apply winning_pair in Hp as [Hlen _]. simpl.
  eapply register_flat; [done|done| |done|done]. by destruct p.
Qed.

Lemma bpe_loop_flat fuel vocab_size : forall v samples,
  tokens_nonneg v = true -> flat v = true ->
  tokens_nonneg (bpe_loop fuel vocab_size v samples).1 = true
  /\ flat (bpe_loop fuel vocab_size v samples).1 = true.
Proof.
  induction fuel as [|fuel IH]; intros v samples Hnn Hflat; [done|].
  cbn [bpe_loop]. case_decide; [|done].
  destruct (bpe_iteration_flat v samples Hnn Hflat) as [Hnn' Hflat'].
  destruct (bpe_iteration v samples) as [v' [samples'| |]]; [|done..].
  by apply IH.
Qed.

Lemma bpe_vocab self samples vocab_size :
  _token_to_event (vocab (bpe self samples vocab_size).1)
  = _token_to_event
      (bpe_loop (S (Z.to_nat (vocab_size - Z.of_nat (vocab_len (vocab self)))))
                vocab_size (vocab self) samples).1
  \/ (bpe self samples vocab_size).1 = self.
Proof.
  unfold bpe. case_decide; [|by right]. left.
  destruct (bpe_loop _ vocab_size (vocab self) samples) as [v [samples'| |]];
    [|done..].
  destruct (set_bpe_tokens_successions v); [|done..]. by case_decide.
Qed.

(** C4: decomposition flatness is an invariant of learning. Starting from a
    vocabulary with non-negative token ids in which every merged token has
    a full decomposition made of primitive tokens (in particular one
    without merged tokens), this holds again after one turn of the loop,
    after any number of turns ([bpe_loop] with [fuel] turns at most, whether
    they complete, raise or are cut short), and in the vocabulary [bpe]
    leaves behind. *)
Theorem flat_after_every_iteration self samples vocab_size fuel :
  tokens_nonneg (vocab self) = true -> flat (vocab self) = true ->
  flat (bpe_iteration (vocab self) samples).1 = true
  /\ flat (bpe_loop fuel vocab_size (vocab self) samples).1 = true
  /\ flat (vocab (bpe self samples vocab_size).1) = true.
Proof.
  intros Hnn Hflat. split_and!.
  - by apply bpe_iteration_flat.
  - by apply bpe_loop_flat.
  - destruct (bpe_vocab self samples vocab_size) as [Htte| ->]; [|done].
    unfold flat, flat_entry, is_primitive in *. rewrite Htte.
    by apply bpe_loop_flat.
Qed.

Lemma flat_after_every_iteration_witness :
  tokens_nonneg (vocab Scenario.tokenizer) = true
  /\ flat (vocab Scenario.tokenizer) = true
  /\ flat (bpe_iteration (vocab Scenario.tokenizer) Scenario.corpus).1 = true
  /\ flat (bpe_loop 3 7 (vocab Scenario.tokenizer) Scenario.corpus).1 = true
  /\ flat (vocab (bpe Scenario.tokenizer Scenario.corpus 7).1) = true.
Proof.
  split_and!; [reflexivity|reflexivity|..];
    apply (flat_after_every_iteration Scenario.tokenizer Scenario.corpus 7 3);
    reflexivity.
Defined.

(** ** Termination of the learner *)

Lemma sane_Ok {A} (a : A) : sane (Ok a).
Proof. by split. Qed.

Lemma sane_Raise {A B} (e : PyError) : sane (@Raise A e) -> sane (@Raise B e).
Proof. intros [_ Hz]. split; [done|]. intros [= ->]. done. Qed.

Lemma sane_bind {A B} (m : result A) (f : A -> result B) :
  sane m -> (forall a, m = Ok a -> sane (f a)) -> sane (m ≫= f).
Proof.
  intros [Hd Hz] Hf. destruct m as [a|e|]; [by apply Hf| |done].
  split; [done|]. intros [= ->]. done.
Qed.

Lemma sane_fmap {A B} (m : result A) (f : A -> B) : sane m -> sane (f <$> m).
Proof.
  intros [Hd Hz]. destruct m as [a|e|]; [done| |done].
  split; [done|]. intros [= ->]. done.
Qed.

Lemma map_result_sane {A B} (f : A -> result B) l :
  (forall x, sane (f x)) -> sane (map_result f l).
Proof.
  intros Hf. induction l as [|x l IH]; [apply sane_Ok|]. simpl.
  apply sane_bind; [done|]. intros y _.
  apply sane_bind; [done|]. intros ys _. apply sane_Ok.
Qed.

Lemma dict_getitem_sane {K V} `{EqDecision K} (k : K) (d : dict K V) :
  sane (dict_getitem k d).
Proof. unfold dict_getitem. by destruct (dict_get k d). Qed.

Lemma py_getitem_sane {A} (l : list A) i : sane (py_getitem l i).
Proof. unfold py_getitem. by destruct (l !! i). Qed.

Lemma to_int_sane s : sane (Str.to_int s).
Proof. unfold Str.to_int. by destruct (NilZero.int_of_string s). Qed.

Lemma succession_of_event_sane event : sane (succession_of_event event).
Proof.
  unfold succession_of_event.
  apply sane_bind; [apply py_getitem_sane|]. intros val _.
  apply sane_bind; [apply py_getitem_sane|]. intros part _.
  apply map_result_sane, to_int_sane.
Qed.

Lemma decomposition_of_event_sane event : sane (decomposition_of_event event).
Proof.
  unfold decomposition_of_event.
  apply sane_bind; [apply py_getitem_sane|]. intros val _.
  apply sane_bind; [apply py_getitem_sane|]. intros part _.
  apply map_result_sane, to_int_sane.
Qed.

Lemma to_replace_bis_sane v p : sane (to_replace_bis v p).
Proof.
  unfold to_replace_bis. apply sane_fmap, map_result_sane. intros token.
  unfold flatten_token. apply sane_bind; [apply dict_getitem_sane|].
  intros event _. case_decide; [apply decomposition_of_event_sane|apply sane_Ok].
Qed.

Lemma set_bpe_tokens_successions_sane v : sane (set_bpe_tokens_successions v).
Proof.
  unfold set_bpe_tokens_successions. apply sane_fmap, map_result_sane.
  intros tok. apply sane_bind; [apply dict_getitem_sane|]. intros event _.
  apply sane_bind; [apply succession_of_event_sane|]. intros succ _.
  apply sane_Ok.
Qed.

Lemma replace_loop_sane v key p fuel : forall i track,
  length track - i < fuel -> sane (replace_loop fuel v key p i track).
Proof.
  induction fuel as [|fuel IH]; intros i track Hfuel; [lia|].
  cbn [replace_loop]. case_decide as Hi; [|apply sane_Ok].
  case_decide; [|apply IH; lia].
  apply sane_bind; [apply dict_getitem_sane|]. intros new _.
  unfold py_setitem. rewrite decide_True by lia. simpl.
  unfold py_del. rewrite length_insert, decide_True by lia. simpl.
  apply IH. rewrite length_app, length_take, length_drop, length_insert. lia.
Qed.

Lemma replace_samples_sane v key p samples : sane (replace_samples v key p samples).
Proof.
  apply map_result_sane. intros sample.
  apply map_result_sane. intros track.
  apply replace_loop_sane. lia.
Qed.

Lemma bpe_iteration_sane v samples : sane (bpe_iteration v samples).2.
Proof.
  unfold bpe_iteration.
  destruct (py_max_key (count_occurrences samples)) as [p| |] eqn:Hp.
  - pose proof (to_replace_bis_sane v p) as Hbis.
    destruct (to_replace_bis v p) as [d| |] eqn:Hd;
      [|by eapply sane_Raise|by destruct Hbis].
    unfold add_event. destruct (dict_get _ (_event_to_token v)); [by split|].
    apply replace_samples_sane.
  - unfold py_max_key in Hp. destruct (dict_keys _); [|done].
    injection Hp as <-. by split.
  - unfold py_max_key in Hp. by destruct (dict_keys _).
Qed.

(** The loop stops: each turn that completes adds a token, so it takes no
    more turns than tokens are missing. *)
Lemma bpe_loop_terminates vocab_size fuel : forall v samples,
  Z.to_nat (vocab_size - Z.of_nat (vocab_len v)) < fuel ->
  sane (bpe_loop fuel vocab_size v samples).2.
Proof.
  induction fuel as [|fuel IH]; intros v samples Hfuel; [lia|].
  cbn [bpe_loop]. case_decide as Hsize; [|apply sane_Ok].
  pose proof (bpe_iteration_sane v samples) as Hnd.
  destruct (bpe_iteration v samples) as [v' [samples'| |]] eqn:Hit; [|done..].
  apply bpe_iteration_len in Hit. apply IH. lia.
Qed.

(** When the loop completes, the vocabulary has reached the target. *)
Lemma bpe_loop_target vocab_size fuel : forall v samples v' samples',
  (Z.of_nat (vocab_len v) <= vocab_size)%Z ->
  bpe_loop fuel vocab_size v samples = (v', Ok samples') ->
  Z.of_nat (vocab_len v') = vocab_size.
Proof.
  induction fuel as [|fuel IH]; intros v samples v' samples' Hle; [done|].
  cbn [bpe_loop]. case_decide as Hsize; [|intros [= <- _]; lia].
  destruct (bpe_iteration v samples) as [v1 [samples1| |]] eqn:Hit; [|done..].
  apply bpe_iteration_len in Hit. apply IH. lia.
Qed.

Lemma no_pairs_of_sum samples :
  list_sum (track_lengths samples) = 0 -> no_pairs samples = true.
Proof.
  unfold track_lengths, no_pairs. induction samples as [|sample samples IH]; [done|].
  simpl. rewrite list_sum_app. intros Hsum.
  rewrite IH by lia. rewrite andb_true_r.
  assert (list_sum (map length sample) = 0) as Hs by lia. clear -Hs.
  induction sample as [|track sample IH]; [done|]. simpl in *.
  rewrite IH by lia. rewrite andb_true_r. apply bool_decide_eq_true. lia.
Qed.

(** A loop that had a turn to make and completed worked on a corpus with
    tokens: the division of the statistics is defined. *)
Lemma bpe_loop_sum vocab_size fuel v samples v' samples' :
  (Z.of_nat (vocab_len v) < vocab_size)%Z ->
  bpe_loop fuel vocab_size v samples = (v', Ok samples') ->
  list_sum (track_lengths samples) <> 0.
Proof.
  intros Hsize Hloop Hsum. apply no_pairs_of_sum in Hsum.
  destruct fuel as [|fuel]; [done|]. cbn [bpe_loop] in Hloop.
  rewrite decide_True in Hloop by done.
  by rewrite (bpe_iteration_no_pairs _ _ Hsum) in Hloop.
Qed.

(** ** The rewriting pass *)

Lemma pair_ind (P : list Z -> Prop) :
  P [] -> (forall x, P [x]) ->
  (forall x y l, P l -> P (y :: l) -> P (x :: y :: l)) ->
  forall l, P l.
Proof.
  intros Hnil Hone Hstep l.
  cut (P l /\ forall x, P (x :: l)); [by intros [? _]|].
  induction l as [|y l [IH1 IH2]]; [by split|].
  split; [apply IH2|]. intros x. by apply Hstep.
Qed.

Lemma merge_pairs_cons2 a b new x y rest :
  merge_pairs a b new (x :: y :: rest)
  = if decide (x = a /\ y = b) then new :: merge_pairs a b new rest
    else x :: merge_pairs a b new (y :: rest).
Proof. done. Qed.

Lemma py_slice_pair pre x y rest :
  py_slice (pre ++ x :: y :: rest) (length pre) (length pre + 2) = [x; y].
Proof.
  unfold py_slice. rewrite drop_app_length.
  by replace (length pre + 2 - length pre) with 2 by lia.
Qed.

(** The loop of the learner computes [merge_pairs]. *)
Lemma replace_loop_merge v key a b new :
  vocab_getitem_str v key = Ok new ->
  forall fuel pre track, length track < fuel ->
    replace_loop fuel v key [a; b] (length pre) (pre ++ track)
    = Ok (pre ++ merge_pairs a b new track).
Proof.
  intros Hkey. induction fuel as [|fuel IH]; intros pre track Hfuel; [lia|].
  cbn [replace_loop]. rewrite length_app.
  destruct track as [|x [|y rest]].
  - rewrite decide_False by (simpl; lia). done.
  - rewrite decide_False by (simpl; lia). done.
  - rewrite decide_True by (simpl; lia). rewrite py_slice_pair, Hkey.
    rewrite merge_pairs_cons2. simpl in Hfuel. case_decide as Heq.
    + injection Heq as -> ->. rewrite decide_True by done. cbn [mbind result_bind].
      rewrite py_setitem_middle. cbn [mbind result_bind].
      replace (length pre + 1) with (length (pre ++ [new]))
        by (rewrite length_app; simpl; lia).
      replace (pre ++ new :: b :: rest) with ((pre ++ [new]) ++ b :: rest)
        by (by rewrite <- app_assoc).
      rewrite py_del_middle. cbn [mbind result_bind].
      rewrite IH by lia. by rewrite <- app_assoc.
    + rewrite decide_False by (intros [-> ->]; done).
      replace (length pre + 1) with (length (pre ++ [x]))
        by (rewrite length_app; simpl; lia).
      replace (pre ++ x :: y :: rest) with ((pre ++ [x]) ++ y :: rest)
        by (by rewrite <- app_assoc).
      rewrite IH by (simpl; lia). by rewrite <- app_assoc.
Qed.

Lemma map_result_map {A B} (f : A -> result B) (g : A -> B) l :
  (forall x, x ∈ l -> f x = Ok (g x)) -> map_result f l = Ok (map g l).
Proof.
  induction l as [|x l IH]; intros Hf; [done|]. simpl.
  rewrite Hf by left. simpl. rewrite IH; [done|]. intros y Hy. apply Hf. by right.
Qed.

Lemma replace_samples_merge v key a b new samples :
  vocab_getitem_str v key = Ok new ->
  replace_samples v key [a; b] samples = Ok (merge_samples a b new samples).
Proof.
  intros Hkey. unfold replace_samples, merge_samples.
  apply map_result_map. intros sample _.
  apply map_result_map. intros track _. unfold replace_track.
  by rewrite (replace_loop_merge v key a b new Hkey _ [] track) by lia.
Qed.

Lemma merge_pairs_elem a b new track token :
  token ∈ merge_pairs a b new track -> token = new \/ token ∈ track.
Proof.
  revert token. induction track as [| |x y rest IH1 IH2] using pair_ind;
    intros token; [by right|by right|].
  rewrite merge_pairs_cons2. case_decide.
  - intros [->|[->|Hin]%IH1]%elem_of_cons; [by left|by left|].
    right. by do 2 right.
  - intros [->|[->|Hin]%IH2]%elem_of_cons; [right; left|by left|].
    right. by right.
Qed.

Lemma merge_pairs_head a b new y rest :
  exists h m, merge_pairs a b new (y :: rest) = h :: m /\ (h = y \/ h = new).
Proof.
  destruct rest as [|z rest]; [by exists y, []; split; [|left]|].
  rewrite merge_pairs_cons2. case_decide; eauto.
Qed.

Lemma stands_cons a b x track :
  stands a b track = true -> stands a b (x :: track) = true.
Proof.
  destruct track as [|y rest]; [done|]. intros H.
  change (stands a b (x :: y :: rest))
    with (bool_decide (x = a /\ y = b) || stands a b (y :: rest)).
  rewrite H. apply orb_true_r.
Qed.

Lemma stands_cons2 a b x y rest :
  stands a b (x :: y :: rest)
  = bool_decide (x = a /\ y = b) || stands a b (y :: rest).
Proof. done. Qed.

(** After the pass the pair merged stands nowhere in the track. *)
Lemma merge_pairs_clears a b new track :
  new <> a -> new <> b -> stands a b (merge_pairs a b new track) = false.
Proof.
  intros Ha Hb. induction track as [| |x y rest IH1 IH2] using pair_ind;
    [done|done|].
  rewrite merge_pairs_cons2. case_decide as Heq.
  - destruct (merge_pairs a b new rest) as [|z m]; [done|].
    rewrite stands_cons2, IH1, orb_false_r.
    apply bool_decide_eq_false. intros [? _]. done.
  - destruct (merge_pairs_head a b new y rest) as (h & m & Hm & Hh).
    rewrite Hm in IH2 |- *. rewrite stands_cons2, IH2, orb_false_r.
    apply bool_decide_eq_false. intros [-> ->].
    destruct Hh as [->| ->]; [by apply Heq|done].
Qed.

(** A pair of old tokens that stands in the track after the pass stood
    there before. *)
Lemma merge_pairs_stands a b new c d track :
  c <> new -> d <> new ->
  stands c d (merge_pairs a b new track) = true -> stands c d track = true.
Proof.
  intros Hc Hd. induction track as [| |x y rest IH1 IH2] using pair_ind;
    [done|done|].
  rewrite merge_pairs_cons2. case_decide as Heq.
  - destruct (merge_pairs a b new rest) as [|z m] eqn:Hm; [done|].
    rewrite stands_cons2. intros [[? _]%bool_decide_eq_true|Hst]%orb_prop; [done|].
    apply IH1 in Hst. destruct rest as [|r rest]; [done|].
    by do 2 apply stands_cons.
  - destruct (merge_pairs_head a b new y rest) as (h & m & Hm & Hh).
    rewrite Hm in IH2 |- *. rewrite !stands_cons2.
    intros [[-> ->]%bool_decide_eq_true|Hst]%orb_prop.
    + destruct Hh as [->| ->]; [|done].
      apply orb_true_intro. left. by apply bool_decide_eq_true.
    + apply orb_true_intro. right. by apply IH2.
Qed.

(** The pass removes one token out of two at most. *)
Lemma merge_pairs_length a b new track :
  length track <= 2 * length (merge_pairs a b new track).
Proof.
  induction track as [| |x y rest IH1 IH2] using pair_ind; [simpl; lia..|].
  rewrite merge_pairs_cons2. case_decide; simpl in *; lia.
Qed.

Lemma stands_middle a b pre post : stands a b (pre ++ [a; b] ++ post) = true.
Proof.
  induction pre as [|x pre IH].
  - simpl. apply orb_true_intro. left. by apply bool_decide_eq_true.
  - rewrite <- app_comm_cons. by apply stands_cons.
Qed.

Lemma occurs_stands_in a b samples :
  occurs [a; b] samples -> stands_in [a; b] samples = true.
Proof.
  intros (sample & track & pre & post & Hs & Ht & ->). simpl.
  apply existsb_exists. exists sample. split; [by apply list_elem_of_In|].
  apply existsb_exists. exists (pre ++ [a; b] ++ post).
  split; [by apply list_elem_of_In|]. apply stands_middle.
Qed.

(** ** The invariant of the learner *)

Lemma vocab_ok_spec v :
  vocab_ok v = true <->
  tokens_nonneg v = true
  /\ forallb (fun te => two_fields te.2) (_token_to_event v) = true
  /\ flat v = true
  /\ forallb (merge_entry v) (_token_to_event v) = true.
Proof. unfold vocab_ok. rewrite !andb_true_iff. tauto. Qed.

Lemma corpus_known_spec v samples :
  corpus_known v samples = true <->
  forall sample track token,
    sample ∈ samples -> track ∈ sample -> token ∈ track ->
    is_Some (dict_get token (_token_to_event v)).
Proof.
  unfold corpus_known. rewrite forallb_Forall, Forall_forall. split.
  - intros H sample track token Hs Ht Htok. specialize (H _ Hs).
    rewrite forallb_Forall, Forall_forall in H. specialize (H _ Ht).
    rewrite forallb_Forall, Forall_forall in H. specialize (H _ Htok).
    by apply bool_decide_eq_true in H.
  - intros H sample Hs. apply forallb_Forall, Forall_forall. intros track Ht.
    apply forallb_Forall, Forall_forall. intros token Htok.
    apply bool_decide_eq_true. by eapply H.
Qed.

Lemma inverse_ok_spec v :
  inverse_ok v = true <->
  forall event token, (event, token) ∈ _event_to_token v ->
    dict_get token (_token_to_event v) = Some event.
Proof.
  unfold inverse_ok. rewrite forallb_Forall, Forall_forall. split.
  - intros H event token Hin. specialize (H _ Hin).
    by apply bool_decide_eq_true in H.
  - intros H [event token] Hin. apply bool_decide_eq_true. by apply H.
Qed.

Lemma registered_absent_spec v samples :
  registered_absent v samples = true <->
  forall event token p, (event, token) ∈ _event_to_token v ->
    event_type event = "BPE" -> succession_of_event event = Ok p ->
    stands_in p samples = false.
Proof.
  unfold registered_absent. rewrite forallb_Forall, Forall_forall. split.
  - intros H event token p Hin Hty Hp. specialize (H _ Hin). simpl in H.
    rewrite decide_True, Hp in H by done. by apply negb_true_iff in H.
  - intros H [event token] Hin. simpl. case_decide as Hty; [|done].
    destruct (succession_of_event event) as [p| |] eqn:Hp; [|done..].
    apply negb_true_iff. by eapply H.
Qed.

Lemma index_sound_spec v :
  index_sound v = true <->
  forall c l token, (c, l) ∈ _token_types_indexes v -> token ∈ l ->
    exists event, dict_get token (_token_to_event v) = Some event
                  /\ event_type event = c.
Proof.
  unfold index_sound. rewrite forallb_Forall, Forall_forall. split.
  - intros H c l token Hin Htok. specialize (H _ Hin). simpl in H.
    rewrite forallb_Forall, Forall_forall in H. specialize (H _ Htok).
    destruct (dict_get token (_token_to_event v)) as [event|]; [|done].
    apply bool_decide_eq_true in H. eauto.
  - intros H [c l] Hin. apply forallb_Forall, Forall_forall. intros token Htok.
    destruct (H c l token Hin Htok) as (event & -> & Hty).
    by apply bool_decide_eq_true.
Qed.

Lemma to_replace_bis_known v p d :
  to_replace_bis v p = Ok d ->
  Forall (fun token => is_Some (dict_get token (_token_to_event v))) p.
Proof.
  revert d. induction p as [|token p IH]; intros d; [done|].
  rewrite to_replace_bis_cons.
  destruct (flatten_token v token) as [x| |] eqn:Hx; simpl; [|done..].
  destruct (to_replace_bis v p) as [y| |]; simpl; [|done..].
  intros _. constructor; [|by eapply IH].
  unfold flatten_token, dict_getitem in Hx.
  by destruct (dict_get token (_token_to_event v)).
Qed.

Lemma known_flatten v token :
  vocab_ok v = true -> is_Some (dict_get token (_token_to_event v)) ->
  exists x, flatten_token v token = Ok x.
Proof.
  intros Hok [event Hget]. unfold flatten_token, dict_getitem. rewrite Hget.
  simpl. case_decide as Hty; [|by eexists].
  destruct (vocab_ok_entry _ _ _ Hok Hget) as (_ & _ & Hflat & _).
  unfold flat_entry in Hflat. simpl in Hflat. rewrite decide_True in Hflat by done.
  destruct (decomposition_of_event event); [by eexists|done..].
Qed.

Lemma known_to_replace_bis v p :
  vocab_ok v = true ->
  Forall (fun token => is_Some (dict_get token (_token_to_event v))) p ->
  exists d, to_replace_bis v p = Ok d.
Proof.
  intros Hok. induction 1 as [|token p Htok _ [d Hd]]; [by eexists|].
  destruct (known_flatten _ _ Hok Htok) as [x Hx].
  exists (x ++ d). by rewrite to_replace_bis_cons, Hx, Hd.
Qed.

(** Registering the winning pair keeps the vocabulary well formed. *)
Lemma register_ok v p d v' :
  vocab_ok v = true -> length p = 2 -> to_replace_bis v p = Ok d ->
  add_event v (bpe_event (to_replace_str p d)) = Ok v' ->
  vocab_ok v' = true.
Proof.
  intros (Hnn & Htwo & Hflat & Hmerge)%vocab_ok_spec Hlen Hbis Hadd.
  assert (p <> []) as Hp by (by destruct p).
  destruct (register_flat v Hnn Hflat p d v' Hp Hbis Hadd) as [Hnn' Hflat'].
  destruct (to_replace_bis_flat v Hnn Hflat _ _ Hbis) as (Hpnn & Hprim & Hd).
  specialize (Hd Hp).
  assert (Forall (fun z => (0 <= z)%Z) d) as Hdnn.
  { eapply Forall_impl; [exact Hprim|]. by apply primitive_nonneg. }
  apply add_event_ok in Hadd as (_ & Htte & _).
  apply vocab_ok_spec. split_and!; [done| |done|].
  - rewrite Htte, forallb_app, Htwo. cbn [forallb snd andb].
    by rewrite two_fields_bpe_event.
  - rewrite Htte, forallb_app. apply andb_true_intro. split.
    + apply forallb_Forall. apply forallb_Forall in Hmerge.
      eapply Forall_impl; [exact Hmerge|].
      intros te. by apply (merge_entry_extended _ _ _ _ Htte).
    + cbn [forallb]. rewrite andb_true_r. unfold merge_entry. cbn [snd].
      rewrite decide_True by (by apply event_type_bpe_event).
      rewrite succession_bpe_event, decomposition_bpe_event by done.
      rewrite Hlen. cbn [bool_decide andb]. simpl.
      apply bool_decide_eq_true.
      by apply (to_replace_bis_extended _ _ _ _ Htte).
Qed.

Lemma register_index v event v' :
  index_sound v = true -> add_event v event = Ok v' -> index_sound v' = true.
Proof.
  intros Hsound (_ & Htte & _ & Hidx)%add_event_ok.
  pose proof (next_token_fresh v) as Hfresh.
  assert (dict_get (next_token v) (_token_to_event v') = Some event) as Hnew.
  { by rewrite Htte, dict_get_app, Hfresh; simpl; rewrite decide_True. }
  rewrite index_sound_spec in Hsound. apply index_sound_spec.
  assert (forall c l token, (c, l) ∈ _token_types_indexes v -> token ∈ l ->
            exists ev, dict_get token (_token_to_event v') = Some ev
                       /\ event_type ev = c) as Hold.
  { intros c l token Hin Htok.
    destruct (Hsound c l token Hin Htok) as (ev & Hget & Hty).
    exists ev. split; [|done]. by apply (dict_get_extended _ _ _ _ Htte). }
  intros c l token. rewrite Hidx. unfold index_add.
  destruct (dict_get (event_type event) (_token_types_indexes v)) as [l0|] eqn:Hl0.
  - intros [[= -> ->]|Hin]%dict_set_elem; [|by eapply Hold].
    intros [Htok| ->%list_elem_of_singleton]%elem_of_app; [|by eauto].
    eapply Hold; [|done]. by apply dict_get_elem.
  - intros [[= -> ->]|Hin]%dict_set_elem; [|by eapply Hold].
    intros ->%list_elem_of_singleton. eauto.
Qed.

Lemma register_inverse v event v' :
  inverse_ok v = true -> add_event v event = Ok v' -> inverse_ok v' = true.
Proof.
  intros Hinv (_ & Htte & Hett & _)%add_event_ok.
  pose proof (next_token_fresh v) as Hfresh.
  rewrite inverse_ok_spec in Hinv. apply inverse_ok_spec.
  intros ev token. rewrite Hett.
  intros [Hin|[= -> ->]%list_elem_of_singleton]%elem_of_app.
  - apply (dict_get_extended _ _ _ _ Htte). by apply Hinv.
  - by rewrite Htte, dict_get_app, Hfresh; simpl; rewrite decide_True.
Qed.

Lemma learnable_spec v samples :
  learnable v samples = true <->
  vocab_ok v = true /\ index_sound v = true /\ inverse_ok v = true
  /\ corpus_known v samples = true /\ registered_absent v samples = true.
Proof. unfold learnable. rewrite !andb_true_iff. tauto. Qed.

Lemma merge_samples_elem a b new samples sample' track' :
  sample' ∈ merge_samples a b new samples -> track' ∈ sample' ->
  exists sample track,
    sample ∈ samples /\ track ∈ sample /\ track' = merge_pairs a b new track.
Proof.
  unfold merge_samples.
  intros (sample & -> & Hs)%list_elem_of_fmap (track & -> & Ht)%list_elem_of_fmap.
  by exists sample, track.
Qed.

Lemma stands_in_merge a b new c d samples :
  stands_in [c; d] (merge_samples a b new samples) = true ->
  exists sample track,
    sample ∈ samples /\ track ∈ sample
    /\ stands c d (merge_pairs a b new track) = true.
Proof.
  simpl. intros (sample' & Hs%list_elem_of_In & Hex)%existsb_exists.
  apply existsb_exists in Hex as (track' & Ht%list_elem_of_In & Hst).
  destruct (merge_samples_elem _ _ _ _ _ _ Hs Ht) as (sample & track & ? & ? & ->).
  by exists sample, track.
Qed.

Lemma stands_in_intro c d samples sample track :
  sample ∈ samples -> track ∈ sample -> stands c d track = true ->
  stands_in [c; d] samples = true.
Proof.
  intros Hs Ht Hst. simpl. apply existsb_exists.
  exists sample. split; [by apply list_elem_of_In|].
  apply existsb_exists. exists track. split; [by apply list_elem_of_In|done].
Qed.

(** One turn on a learnable state with a pair left: it completes, rewrites
    the corpus with [merge_pairs], and leaves a learnable state. *)
Lemma bpe_iteration_succeeds v samples :
  learnable v samples = true ->
  (exists sample track, sample ∈ samples /\ track ∈ sample /\ 2 <= length track) ->
  exists a b v',
    bpe_iteration v samples = (v', Ok (merge_samples a b (next_token v) samples))
    /\ vocab_len v' = S (vocab_len v)
    /\ learnable v' (merge_samples a b (next_token v) samples) = true.
Proof.
  intros (Hok & Hidx & Hinv & Hknown & Habs)%learnable_spec
         (sample0 & track0 & Hs0 & Ht0 & Hlen0).
  pose proof Hok as (Hnn & _ & Hflat & _)%vocab_ok_spec.
  rewrite corpus_known_spec in Hknown. rewrite registered_absent_spec in Habs.
  (* the winning pair *)
  assert (exists p, py_max_key (count_occurrences samples) = Ok p) as [p Hp].
  { assert (py_slice track0 0 2 ∈ dict_keys (count_occurrences samples)) as Hkey.
    { apply count_occurrences_keys. exists sample0, track0, 0.
      split_and!; [done|done|lia|done]. }
    unfold py_max_key.
    destruct (dict_keys (count_occurrences samples)); [by apply elem_of_nil in Hkey|].
    by eexists. }
  destruct (winning_pair _ _ Hp) as [Hlen Hocc].
  destruct p as [|a [|b [|]]]; try done.
  assert (Forall (fun token => is_Some (dict_get token (_token_to_event v))) [a; b])
    as Hab.
  { destruct Hocc as (sample & track & pre & post & Hs & Ht & ->).
    repeat constructor; eapply Hknown; try done; set_solver. }
  destruct (known_to_replace_bis _ _ Hok Hab) as [d Hd].
  destruct (to_replace_bis_flat v Hnn Hflat _ _ Hd) as (Hpnn & Hprim & Hdne).
  specialize (Hdne ltac:(done)).
  assert (Forall (fun z => (0 <= z)%Z) d) as Hdnn.
  { eapply Forall_impl; [exact Hprim|]. by apply primitive_nonneg. }
  set (event := bpe_event (to_replace_str [a; b] d)) in *.
  (* its descriptor is new *)
  assert (exists v', add_event v event = Ok v') as [v' Hadd].
  { unfold add_event.
    destruct (dict_get event (_event_to_token v)) as [token|] eqn:Hget;
      [|by eexists].
    apply dict_get_elem in Hget. exfalso.
    apply occurs_stands_in in Hocc.
    rewrite (Habs event token [a; b] Hget) in Hocc; [done| |].
    - by apply event_type_bpe_event.
    - by apply succession_bpe_event. }
  pose proof Hadd as (Hnone & Htte & Hett & _)%add_event_ok.
  pose proof (next_token_fresh v) as Hfresh.
  set (new := next_token v) in *.
  assert (dict_get new (_token_to_event v') = Some event) as Hnew.
  { by rewrite Htte, dict_get_app, Hfresh; simpl; rewrite decide_True. }
  assert (vocab_getitem_str v' event = Ok new) as Hkey.
  { unfold vocab_getitem_str, dict_getitem.
    by rewrite Hett, dict_get_app, Hnone; simpl; rewrite decide_True. }
  assert (forall token, is_Some (dict_get token (_token_to_event v)) -> token <> new)
    as Hold.
  { intros token [ev Hev] ->. by rewrite Hfresh in Hev. }
  exists a, b, v'. split_and!.
  - unfold bpe_iteration. rewrite Hp, Hd. fold event. rewrite Hadd.
    by rewrite (replace_samples_merge _ _ _ _ _ _ Hkey).
  - by eapply add_event_len.
  - apply learnable_spec. split_and!.
    + by eapply register_ok.
    + by eapply register_index.
    + by eapply register_inverse.
    + apply corpus_known_spec. intros sample' track' token Hs Ht Htok.
      destruct (merge_samples_elem _ _ _ _ _ _ Hs Ht) as (sample & track & ? & ? & ->).
      apply merge_pairs_elem in Htok as [->|Htok]; [by eexists|].
      destruct (Hknown sample track token) as [ev Hev]; [done..|].
      exists ev. by apply (dict_get_extended _ _ _ _ Htte).
    + apply registered_absent_spec. intros ev token p. rewrite Hett.
      intros [Hin|[= -> ->]%list_elem_of_singleton]%elem_of_app Hty Hsucc.
      * destruct p as [|c [|e [|]]]; try done.
        destruct (stands_in [c; e] _) eqn:Hst; [|done]. exfalso.
        apply stands_in_merge in Hst as (sample & track & Hs & Ht & Hst).
        rewrite inverse_ok_spec in Hinv. specialize (Hinv _ _ Hin).
        destruct (vocab_ok_entry _ _ _ Hok Hinv) as (_ & _ & _ & Hentry).
        unfold merge_entry in Hentry. cbn [snd] in Hentry.
        rewrite decide_True, Hsucc in Hentry by done.
        destruct (decomposition_of_event ev) as [d'| |]; [|done..].
        apply andb_prop in Hentry as [_ Hbis%bool_decide_eq_true].
        apply to_replace_bis_known in Hbis.
        apply Forall_cons in Hbis as [Hc [He _]%Forall_cons].
        apply merge_pairs_stands in Hst; [|by apply Hold..].
        pose proof (stands_in_intro _ _ _ _ _ Hs Ht Hst) as Hin2.
        by rewrite (Habs ev token [c; e] Hin Hty Hsucc) in Hin2.
      * unfold event in Hsucc.
        rewrite succession_bpe_event in Hsucc by done. injection Hsucc as <-.
        destruct (stands_in [a; b] _) eqn:Hst; [|done]. exfalso.
        apply stands_in_merge in Hst as (sample & track & Hs & Ht & Hst).
        apply Forall_cons in Hab as [Ha [Hb _]%Forall_cons].
        rewrite merge_pairs_clears in Hst; [done| |].
        -- intros Heq. by apply (Hold a).
        -- intros Heq. by apply (Hold b).
Qed.

Lemma long_track_spec k samples :
  long_track k samples = true <->
  exists sample track,
    sample ∈ samples /\ track ∈ sample /\ 2 ^ k <= length track.
Proof.
  unfold long_track. rewrite existsb_exists. split.
  - intros (sample & Hs%list_elem_of_In & (track & Ht%list_elem_of_In & Hlen)%existsb_exists).
    apply bool_decide_eq_true in Hlen. by exists sample, track.
  - intros (sample & track & Hs & Ht & Hlen).
    exists sample. split; [by apply list_elem_of_In|].
    apply existsb_exists. exists track. split; [by apply list_elem_of_In|].
    by apply bool_decide_eq_true.
Qed.

Lemma long_track_merge k a b new samples :
  long_track (S k) samples = true ->
  long_track k (merge_samples a b new samples) = true.
Proof.
  rewrite !long_track_spec. intros (sample & track & Hs & Ht & Hlen).
  exists (map (merge_pairs a b new) sample), (merge_pairs a b new track).
  split_and!.
  - unfold merge_samples. apply list_elem_of_fmap. by exists sample.
  - apply list_elem_of_fmap. by exists track.
  - pose proof (merge_pairs_length a b new track). rewrite Nat.pow_succ_r' in Hlen.
    lia.
Qed.

(** On a learnable state with a track of [2 ^ k] tokens, [k] turns
    complete. *)
Lemma bpe_loop_succeeds k : forall fuel v samples vocab_size,
  learnable v samples = true -> long_track k samples = true ->
  vocab_size = Z.of_nat (vocab_len v + k) -> k < fuel ->
  exists v' samples',
    bpe_loop fuel vocab_size v samples = (v', Ok samples')
    /\ vocab_ok v' = true /\ index_sound v' = true
    /\ vocab_len v' = vocab_len v + k.
Proof.
  induction k as [|k IH]; intros fuel v samples vocab_size Hlearn Hlong -> Hfuel.
  - destruct fuel as [|fuel]; [lia|]. cbn [bpe_loop].
    rewrite decide_False by lia. exists v, samples.
    apply learnable_spec in Hlearn as (? & ? & _). split_and!; [done..|lia].
  - destruct fuel as [|fuel]; [lia|]. cbn [bpe_loop].
    rewrite decide_True by lia.
    destruct (bpe_iteration_succeeds v samples Hlearn)
      as (a & b & v1 & -> & Hlen1 & Hlearn1).
    { apply long_track_spec in Hlong as (sample & track & Hs & Ht & Hlen).
      exists sample, track. split_and!; [done..|].
      rewrite Nat.pow_succ_r' in Hlen. pose proof (Nat.pow_nonzero 2 k). lia. }
    destruct (IH fuel v1 (merge_samples a b (next_token v) samples)
                (Z.of_nat (vocab_len v + S k)))
      as (v' & samples' & -> & Hok & Hidx & Hlen'); [done| |lia|lia|].
    { by apply long_track_merge. }
    exists v', samples'. split_and!; [done..|lia].
Qed.

Lemma map_result_elem {A B} (f : A -> result B) l r y :
  map_result f l = Ok r -> y ∈ r -> exists x, x ∈ l /\ f x = Ok y.
Proof.
  revert r. induction l as [|x l IH]; intros r.
  - intros [= <-] Hy. by apply elem_of_nil in Hy.
  - intros (y0 & ys & Hy0 & Hys & ->)%map_result_cons_ok [->|Hin]%elem_of_cons.
    + exists x. split; [left|done].
    + destruct (IH _ Hys Hin) as (x' & ? & ?). exists x'. split; [by right|done].
Qed.

Lemma map_result_total {A B} (f : A -> result B) l :
  (forall x, x ∈ l -> exists y, f x = Ok y) -> exists r, map_result f l = Ok r.
Proof.
  induction l as [|x l IH]; intros Hf; [by eexists|].
  destruct (Hf x) as [y Hy]; [left|].
  destruct IH as [ys Hys]; [intros x' Hx'; apply Hf; by right|].
  exists (y :: ys). simpl. by rewrite Hy, Hys.
Qed.

(** The merge table read from a well-formed vocabulary agrees with it. *)
Lemma set_successions_ok v :
  vocab_ok v = true -> index_sound v = true ->
  exists succs,
    set_bpe_tokens_successions v = Ok succs
    /\ forall tok succ, (tok, succ) ∈ succs ->
         length succ = 2
         /\ exists event, dict_get tok (_token_to_event v) = Some event
                          /\ event_type event = "BPE"
                          /\ succession_of_event event = Ok succ.
Proof.
  intros Hok Hidx. rewrite index_sound_spec in Hidx.
  unfold set_bpe_tokens_successions.
  set (f := fun tok => event ← dict_getitem tok (_token_to_event v);
                       succ ← succession_of_event event; Ok (tok, succ)).
  assert (forall tok, tok ∈ tokens_of_type v "BPE" ->
            exists event succ,
              dict_get tok (_token_to_event v) = Some event
              /\ event_type event = "BPE"
              /\ succession_of_event event = Ok succ /\ length succ = 2
              /\ f tok = Ok (tok, succ)) as Hf.
  { intros tok Htok. unfold tokens_of_type in Htok.
    destruct (dict_get "BPE" (_token_types_indexes v)) as [l|] eqn:Hl;
      [|by apply elem_of_nil in Htok].
    apply dict_get_elem in Hl. simpl in Htok.
    destruct (Hidx _ _ _ Hl Htok) as (event & Hget & Hty).
    destruct (vocab_ok_entry _ _ _ Hok Hget) as (_ & _ & _ & Hentry).
    unfold merge_entry in Hentry. cbn [snd] in Hentry.
    rewrite decide_True in Hentry by done.
    destruct (succession_of_event event) as [succ| |] eqn:Hsucc; [|done..].
    destruct (decomposition_of_event event); [|done..].
    apply andb_prop in Hentry as [Hlen%bool_decide_eq_true _].
    exists event, succ. split_and!; [done..|].
    unfold f, dict_getitem. rewrite Hget. simpl. by rewrite Hsucc. }
  destruct (map_result_total f (tokens_of_type v "BPE")) as [items Hitems].
  { intros tok Htok. destruct (Hf tok Htok) as (? & ? & _ & _ & _ & _ & ->). eauto. }
  rewrite Hitems. exists (dict_of_items items). split; [done|].
  intros tok succ Hin%dict_of_items_elem.
  destruct (map_result_elem _ _ _ _ Hitems Hin) as (tok' & Htok' & Heq).
  destruct (Hf tok' Htok') as (event & succ' & Hget & Hty & Hsucc & Hlen & Heq').
  rewrite Heq' in Heq. injection Heq as -> ->. eauto.
Qed.

(** Learning reaches its target and leaves a well-formed codec: on a
    learnable state with a track of [2 ^ k] tokens or more, [bpe] returns
    normally with [k] more tokens, [has_bpe] set, and a merge table of
    two-token successions that agrees with the vocabulary. *)
Lemma bpe_reaches_target self samples k :
  1 <= k -> learnable (vocab self) samples = true ->
  long_track k samples = true ->
  exists self' samples',
    bpe self samples (Z.of_nat (vocab_len (vocab self) + k)) = (self', Ok samples')
    /\ vocab_len (vocab self') = vocab_len (vocab self) + k
    /\ has_bpe self' = true /\ codec_ok self' = true
    /\ merges_take_two self' = true.
Proof.
  intros Hk Hlearn Hlong. unfold bpe. rewrite decide_True by lia.
  set (target := Z.of_nat (vocab_len (vocab self) + k)).
  set (fuel := S (Z.to_nat (target - Z.of_nat (vocab_len (vocab self))))).
  destruct (bpe_loop_succeeds k fuel (vocab self) samples target Hlearn Hlong)
    as (v & samples' & Hloop & Hok & Hidx & Hlen); [done|unfold fuel, target; lia|].
  pose proof (bpe_loop_sum target fuel (vocab self) samples v samples'
                ltac:(unfold target; lia) Hloop) as Hsum.
  rewrite Hloop.
  destruct (set_successions_ok v Hok Hidx) as (succs & -> & Hsuccs).
  rewrite decide_False by done. eexists _, samples'. split; [done|].
  cbn [vocab has_bpe]. split_and!; [done|done| |].
  - unfold codec_ok. cbn [vocab].
    change (vocab_ok (update_token_types_indexes v)) with (vocab_ok v).
    rewrite Hok. cbn [andb]. unfold merges_ok. cbn [vocab bpe_successions].
    apply forallb_Forall, Forall_forall. intros [tok succ] Hin.
    destruct (Hsuccs tok succ Hin) as (_ & event & Hget & Hty & Hsucc).
    cbn [fst snd update_token_types_indexes _token_to_event]. rewrite Hget.
    apply andb_true_intro. split; by apply bool_decide_eq_true.
  - unfold merges_take_two. cbn [bpe_successions].
    apply forallb_Forall, Forall_forall. intros [tok succ] Hin.
    destruct (Hsuccs tok succ Hin) as (Hlen2 & _).
    apply bool_decide_eq_true. simpl. lia.
Qed.

(** ** Learning reaches its target *)

(** Every turn of the learner keeps the vocabulary well formed and its
    index sound, whether it completes or raises. *)
Lemma bpe_iteration_ok v samples :
  vocab_ok v = true -> index_sound v = true ->
  vocab_ok (bpe_iteration v samples).1 = true
  /\ index_sound (bpe_iteration v samples).1 = true.
Proof.
  intros Hok Hidx.
  destruct (bpe_iteration_cases v samples)
    as [[-> _]|(p & d & v1 & Hp & Hbis & Hadd & ->)]; [done|].
  apply winning_pair in Hp as [Hlen _]. cbn [fst]. split.
  - by eapply register_ok.
  - by eapply register_index.
Qed.

Lemma bpe_loop_ok fuel vocab_size : forall v samples,
  vocab_ok v = true -> index_sound v = true ->
  vocab_ok (bpe_loop fuel vocab_size v samples).1 = true
  /\ index_sound (bpe_loop fuel vocab_size v samples).1 = true.
Proof.
  induction fuel as [|fuel IH]; intros v samples Hok Hidx; [done|].
  cbn [bpe_loop]. case_decide; [|done].
  destruct (bpe_iteration_ok v samples Hok Hidx) as [Hok' Hidx'].
  destruct (bpe_iteration v samples) as [v' [samples'| |]]; [|done..].
  by apply IH.
Qed.

(** X24: what learning leaves behind. Whenever [bpe] returns normally from a
    well-formed vocabulary, [has_bpe] is set and the codec is well formed,
    with a merge table of two-token successions. These are the hypotheses
    of the round trip and of the idempotence of [apply_bpe]. *)
Lemma bpe_learns_codec self samples vocab_size self' samples' :
  vocab_ok (vocab self) = true -> index_sound (vocab self) = true ->
  bpe self samples vocab_size = (self', Ok samples') ->
  has_bpe self' = true /\ codec_ok self' = true /\ merges_take_two self' = true.
Proof.
  intros Hok Hidx. unfold bpe. case_decide; [|done].
  set (fuel := S _).
  destruct (bpe_loop_ok fuel vocab_size (vocab self) samples Hok Hidx)
    as [Hok' Hidx'].
  destruct (bpe_loop fuel vocab_size (vocab self) samples)
    as [v [samples1| |]]; [|done..].
  cbn [fst] in Hok', Hidx'.
  destruct (set_successions_ok v Hok' Hidx') as (succs & -> & Hsuccs).
  case_decide; [done|]. intros [= <- _]. cbn [has_bpe]. split_and!; [done| |].
  - unfold codec_ok. cbn [vocab].
    change (vocab_ok (update_token_types_indexes v)) with (vocab_ok v).
    rewrite Hok'. cbn [andb]. unfold merges_ok. cbn [vocab bpe_successions].
    apply forallb_Forall, Forall_forall. intros [tok succ] Hin.
    destruct (Hsuccs tok succ Hin) as (_ & event & Hget & Hty & Hsucc).
    cbn [fst snd update_token_types_indexes _token_to_event]. rewrite Hget.
    apply andb_true_intro. split; by apply bool_decide_eq_true.
  - unfold merges_take_two. cbn [bpe_successions].
    apply forallb_Forall, Forall_forall. intros [tok succ] Hin.
    destruct (Hsuccs tok succ Hin) as (Hlen2 & _).
    apply bool_decide_eq_true. simpl. lia.
Qed.

(** The outcome of [bpe] called with [k >= 1] tokens to learn: it is no
    loop cut short and no division by zero, and a normal return comes with
    the target size. *)
Lemma bpe_outcome self samples k :
  1 <= k ->
  let target := Z.of_nat (vocab_len (vocab self) + k) in
  (bpe self samples target).2 <> Diverge
  /\ (bpe self samples target).2 <> Raise ZeroDivisionError
  /\ (is_ok (bpe self samples target).2 = true ->
      vocab_len (vocab (bpe self samples target).1) = vocab_len (vocab self) + k).
Proof.
  intros Hk target. unfold bpe. rewrite decide_True by (unfold target; lia).
  set (fuel := S (Z.to_nat (target - Z.of_nat (vocab_len (vocab self))))).
  pose proof (bpe_loop_terminates target fuel (vocab self) samples) as Hterm.
  pose proof (bpe_loop_target target fuel (vocab self) samples) as Htarget.
  pose proof (bpe_loop_sum target fuel (vocab self) samples) as Hsum.
  destruct (bpe_loop fuel target (vocab self) samples) as [v [samples'| |]].
  - pose proof (set_bpe_tokens_successions_sane v) as Hset.
    destruct (set_bpe_tokens_successions v) as [succs| |];
      [|apply (sane_Raise (B := list Sample)) in Hset as [??]; by split_and!
       |by destruct Hset].
    specialize (Hsum v samples' ltac:(unfold target; lia) eq_refl).
    rewrite decide_False by done. split_and!; [done|done|].
    intros _. simpl. unfold vocab_len at 1. simpl.
    specialize (Htarget v samples' ltac:(unfold target; lia) eq_refl).
    unfold vocab_len in Htarget. unfold target in Htarget. lia.
  - destruct Hterm as [_ Hterm]; [unfold fuel; lia|]. by split_and!.
  - destruct Hterm as [Hterm _]; [unfold fuel; lia|]. done.
Qed.

(** C3, as the code has it: for every corpus and every k >= 1, [bpe] called
    with the current vocabulary size plus k as target terminates and never
    divides by zero; every turn of its loop that completes adds exactly one
    token, and when the call returns normally the vocabulary size is the
    initial size plus k. The call need not return normally: it raises as
    soon as a turn finds no pair to merge. It does return normally when the
    state is learnable (well-formed vocabulary, corpus over the vocabulary,
    no registered pair standing in the corpus) and some track holds
    [2 ^ k] tokens or more. *)
Theorem bpe_terminates self samples k :
  1 <= k ->
  let target := Z.of_nat (vocab_len (vocab self) + k) in
  (bpe self samples target).2 <> Diverge
  /\ (bpe self samples target).2 <> Raise ZeroDivisionError
  /\ (is_ok (bpe self samples target).2 = true ->
      vocab_len (vocab (bpe self samples target).1) = vocab_len (vocab self) + k)
  /\ (forall v samples1 v' samples1',
        bpe_iteration v samples1 = (v', Ok samples1') ->
        vocab_len v' = vocab_len v + 1)
  /\ (learnable (vocab self) samples = true -> long_track k samples = true ->
      is_ok (bpe self samples target).2 = true).
Proof.
  intros Hk target.
  destruct (bpe_outcome self samples k Hk) as (Hterm & Hdiv & Hsize).
  split_and!; [done|done|done| |].
  - intros. rewrite Nat.add_1_r. by eapply bpe_iteration_len.
  - intros Hlearn Hlong.
    destruct (bpe_reaches_target self samples k Hk Hlearn Hlong)
      as (self' & samples' & Hbpe & _).
    unfold target. by rewrite Hbpe.
Qed.

Lemma bpe_terminates_witness :
  1 <= 2
  /\ learnable (vocab Scenario.tokenizer) Scenario.corpus = true
  /\ long_track 2 Scenario.corpus = true
  /\ (bpe Scenario.tokenizer Scenario.corpus
          (Z.of_nat (vocab_len (vocab Scenario.tokenizer) + 2))).2 <> Diverge
  /\ is_ok (bpe Scenario.tokenizer Scenario.corpus
               (Z.of_nat (vocab_len (vocab Scenario.tokenizer) + 2))).2 = true
  /\ vocab_len (vocab (bpe Scenario.tokenizer Scenario.corpus
                           (Z.of_nat (vocab_len (vocab Scenario.tokenizer) + 2))).1)
     = vocab_len (vocab Scenario.tokenizer) + 2.
Proof.
  destruct (bpe_terminates Scenario.tokenizer Scenario.corpus 2)
    as (Hterm & _ & Hsize & _ & Hok); [lia|].
  split_and!; [lia|reflexivity|reflexivity|exact Hterm| |].
  - apply Hok; reflexivity.
  - apply Hsize. apply Hok; reflexivity.
Defined.

(** C3, counterexample: with one token missing (k = 1) and a corpus without
    tracks, [bpe] raises ValueError and the vocabulary keeps its four
    tokens; on the track [[0; 1]] with k = 2 it raises after the first
    turn, with five tokens instead of six. *)
Lemma bpe_misses_target :
  (bpe Scenario.tokenizer [] 5).2 = Raise ValueError
  /\ vocab_len (vocab (bpe Scenario.tokenizer [] 5).1) = 4
  /\ (bpe Scenario.tokenizer [[[0; 1]]]%Z 6).2 = Raise ValueError
  /\ vocab_len (vocab (bpe Scenario.tokenizer [[[0; 1]]]%Z 6).1) = 5.
Proof. vm_compute. done. Qed.

(** * Further properties of the code *)

(** ** The applier, further *)

Lemma succession_of_event_not_nil event succ :
  succession_of_event event = Ok succ -> succ <> [].
Proof.
  unfold succession_of_event.
  destruct (py_getitem (Str.split "_" event) 1) as [val| |]; simpl; [|done..].
  destruct (py_getitem (Str.split "." val) 0) as [part| |]; simpl; [|done..].
  intros Hlen%map_result_length ->.
  pose proof (StrFacts.split_not_nil "-" part). by destruct (Str.split "-" part).
Qed.

Lemma built_table_not_nil v succs :
  set_bpe_tokens_successions v = Ok succs -> Forall (fun ts => ts.2 <> []) succs.
Proof.
  unfold set_bpe_tokens_successions.
  destruct (map_result _ (tokens_of_type v "BPE")) as [items| |] eqn:Hitems;
    simpl; [|done..].
  intros [= <-]. apply Forall_forall. intros [tok succ] Hin%dict_of_items_elem.
  destruct (map_result_elem _ _ _ _ Hitems Hin) as (tok' & _ & Hf). simpl.
  destruct (dict_getitem tok' (_token_to_event v)) as [event| |]; simpl in Hf;
    [|done..].
  destruct (succession_of_event event) as [succ'| |] eqn:Hsucc; simpl in Hf;
    [|done..].
  injection Hf as _ <-. by eapply succession_of_event_not_nil.
Qed.

(** X1: on the merge table that [set_bpe_tokens_successions] builds, from
    any vocabulary, [apply_bpe] returns for every sequence: it raises
    nothing, its loops stop, and its result is no longer than its input. *)
Theorem apply_bpe_returns v succs flag graph tokens :
  set_bpe_tokens_successions v = Ok succs ->
  exists tokens',
    apply_bpe {| has_bpe := flag; vocab := v; bpe_successions := succs;
                 tokens_types_graph := graph |} tokens = Ok tokens'
    /\ length tokens' <= length tokens.
Proof.
  intros Hall%built_table_not_nil.
  set (self := {| has_bpe := flag; vocab := v; bpe_successions := succs;
                  tokens_types_graph := graph |}).
  destruct (apply_bpe_spec self tokens Hall) as (tokens' & Hrun & Hrtc).
  exists tokens'. split; [unfold apply_bpe; by rewrite Hrun|].
  by eapply merge_steps_length_le.
Qed.

Lemma apply_bpe_returns_witness :
  set_bpe_tokens_successions (vocab Corrupt.nested)
    = Ok [(2, [0; 1]); (3, [2; 1])]%Z
  /\ exists tokens',
       apply_bpe {| has_bpe := true; vocab := vocab Corrupt.nested;
                    bpe_successions := [(2, [0; 1]); (3, [2; 1])]%Z;
                    tokens_types_graph := [] |} [0; 1; 1; 0]%Z = Ok tokens'
       /\ length tokens' <= length [0; 1; 1; 0]%Z.
Proof.
  split; [reflexivity|].
  apply (apply_bpe_returns (vocab Corrupt.nested)). reflexivity.
Defined.

Lemma rewrite_steps_length tok succ l l' :
  succ <> [] -> rtc (rewrite_step tok succ) l l' -> length l' <= length l.
Proof.
  intros Hne. induction 1 as [|l1 l2 l3 Hstep _ IH]; [done|].
  apply rewrite_step_length in Hstep.
  destruct succ; [done|]. simpl in Hstep. lia.
Qed.

(** A scan that leaves the list as it was met the succession nowhere. *)
Lemma apply_scan_fixed tok succ fuel : forall i tokens,
  2 <= length succ -> length tokens - i < fuel ->
  apply_scan fuel tok succ i tokens = (tokens, Ok tt) ->
  forall j, i <= j -> py_slice tokens j (j + length succ) <> succ.
Proof.
  induction fuel as [|fuel IH]; intros i tokens Hlen Hfuel; [lia|].
  assert (succ <> []) as Hne by (destruct succ; [simpl in Hlen; lia|done]).
  cbn [apply_scan]. case_decide as Hi.
  - case_decide as Hslice.
    + destruct (apply_scan_hit tok succ Hne i tokens Hi Hslice) as (tokens1 & -> & ->).
      set (tokens2 := take i tokens ++ tok :: drop (i + length succ) tokens).
      assert (length tokens2 + length succ = length tokens + 1) as Hlen2.
      { apply (rewrite_step_length tok succ).
        exists (take i tokens), (drop (i + length succ) tokens).
        split; [by apply slice_split|done]. }
      destruct (apply_scan_spec tok succ Hne fuel (i + 1) tokens2)
        as (tokens' & -> & Hrtc); [lia|].
      apply (rewrite_steps_length _ _ _ _ Hne) in Hrtc.
      intros [= ->]. lia.
    + intros Hrun j Hj. destruct (decide (j = i)) as [->|]; [done|].
      apply (IH (i + 1) tokens); [done|lia|done|lia].
  - intros _ j Hj Hslice.
    assert (length (py_slice tokens j (j + length succ)) = length succ) as Hl
      by (by rewrite Hslice).
    unfold py_slice in Hl. rewrite length_take, length_drop in Hl. lia.
Qed.

Lemma standing_slice succ tokens :
  standing succ tokens ->
  exists j, py_slice tokens j (j + length succ) = succ.
Proof.
  intros (pre & post & ->). exists (length pre). unfold py_slice.
  rewrite drop_app_length.
  replace (length pre + length succ - length pre) with (length succ) by lia.
  by rewrite take_app_length.
Qed.

Lemma rewrite_steps_same_length tok succ l l' :
  2 <= length succ -> rtc (rewrite_step tok succ) l l' ->
  length l' = length l -> l' = l.
Proof.
  intros Hlen Hrtc.
  assert (succ <> []) as Hne by (destruct succ; [simpl in Hlen; lia|done]).
  destruct Hrtc as [|l1 l2 l3 Hstep Hrtc]; [done|].
  apply rewrite_step_length in Hstep.
  apply (rewrite_steps_length _ _ _ _ Hne) in Hrtc. lia.
Qed.

(** A round that leaves the list as it was met no succession of the
    table. *)
Lemma apply_round_fixed successions : forall tokens,
  Forall (fun ts => 2 <= length ts.2) successions ->
  apply_round successions tokens = (tokens, Ok tt) ->
  Forall (fun ts => ~ standing ts.2 tokens) successions.
Proof.
  induction successions as [|[tok succ] rest IH]; intros tokens Hall; [done|].
  apply Forall_cons in Hall as [Hlen Hall]. simpl in Hlen.
  assert (succ <> []) as Hne by (destruct succ; [simpl in Hlen; lia|done]).
  cbn [apply_round].
  destruct (apply_scan_spec tok succ Hne (S (S (length tokens))) 0 tokens)
    as (tokens1 & Hscan & Hrtc1); [lia|].
  rewrite Hscan. intros Hround.
  destruct (apply_round_spec rest tokens1 (take_two_not_nil _ Hall))
    as (tokens2 & Hround2 & Hrtc2).
  rewrite Hround in Hround2. injection Hround2 as <-.
  assert (tokens1 = tokens) as ->.
  { apply (rewrite_steps_same_length tok succ); [done..|].
    apply (rewrite_steps_length _ _ _ _ Hne) in Hrtc1.
    apply merge_steps_length_le in Hrtc2; [lia|by apply take_two_not_nil]. }
  constructor; [|by apply IH]. simpl. intros [j Hj]%standing_slice.
  apply (apply_scan_fixed tok succ (S (S (length tokens))) 0 tokens Hlen)
    with (j := j); [lia|done|lia|done].
Qed.

(** X2: with [has_bpe] set and merges of two tokens or more, the sequence
    [apply_bpe] returns is fully merged: no succession of the merge table
    stands in it any more, and its list is no longer than the input. *)
Theorem apply_bpe_leaves_no_succession self tokens :
  has_bpe self = true -> merges_take_two self = true ->
  exists tokens',
    apply_bpe self tokens = Ok tokens'
    /\ length tokens' <= length tokens
    /\ Forall (fun ts => ~ standing ts.2 tokens') (bpe_successions self).
Proof.
  intros Hon Htwo%merges_take_two_Forall.
  pose proof (take_two_not_nil _ Htwo) as Hall.
  unfold apply_bpe, apply_bpe_run. rewrite Hon. cbn [negb].
  destruct (apply_rounds_spec (bpe_successions self) (S (S (length tokens)))
              (length tokens + 1) tokens Hall) as (tokens' & -> & Hrtc & Hfix);
    [lia|].
  exists tokens'. split_and!; [done|by eapply merge_steps_length_le|].
  destruct Hfix as [[Hlen _]|Hfix]; [lia|]. by apply apply_round_fixed, Hfix.
Qed.

Lemma apply_bpe_leaves_no_succession_witness :
  has_bpe Scenario.learned = true
  /\ merges_take_two Scenario.learned = true
  /\ exists tokens',
       apply_bpe Scenario.learned [0; 1; 0; 1; 2]%Z = Ok tokens'
       /\ length tokens' <= length [0; 1; 0; 1; 2]%Z
       /\ Forall (fun ts => ~ standing ts.2 tokens')
                 (bpe_successions Scenario.learned).
Proof.
  split_and!; [reflexivity|reflexivity|].
  apply (apply_bpe_leaves_no_succession Scenario.learned); reflexivity.
Defined.

(** ** The decomposer, further *)

Lemma flatten_token_not_nil v token x : flatten_token v token = Ok x -> x <> [].
Proof.
  unfold flatten_token, dict_getitem.
  destruct (dict_get token (_token_to_event v)) as [event|]; simpl; [|done].
  case_decide; [apply decomposition_not_nil|by intros [= <-]].
Qed.

Lemma to_replace_bis_length v l d :
  to_replace_bis v l = Ok d -> length l <= length d.
Proof.
  revert d. induction l as [|token l IH]; intros d; [simpl; lia|].
  rewrite to_replace_bis_cons.
  destruct (flatten_token v token) as [x| |] eqn:Hx; simpl; [|done..].
  destruct (to_replace_bis v l) as [y| |]; simpl; [|done..].
  intros [= <-]. apply flatten_token_not_nil in Hx. specialize (IH y eq_refl).
  rewrite length_app. destruct x; [done|]. simpl. lia.
Qed.

(** X3: [decompose_bpe] is idempotent on sequences it can decode (tokens of
    the vocabulary with two-field descriptors, the merged ones with a full
    decomposition made of plain tokens): it returns a sequence of plain
    tokens at least as long as its input, and decomposing that sequence
    again changes nothing. *)
Theorem decompose_bpe_idempotent self tokens :
  forallb (decodable (vocab self)) tokens = true ->
  exists out,
    length tokens <= length out
    /\ forallb (is_plain (vocab self)) out = true
    /\ forall fuel, length out < fuel ->
         decompose_bpe fuel self tokens = Ok out
         /\ decompose_bpe fuel self out = Ok out.
Proof.
  intros Hdec%forallb_Forall.
  destruct (decompose_bpe_flatten self tokens Hdec) as (d & Hd & Hplain & Hrun).
  exists d. split_and!; [by eapply to_replace_bis_length|by apply forallb_Forall|].
  intros fuel Hfuel.
  split; [unfold decompose_bpe; by rewrite Hrun|].
  destruct (decompose_bpe_flatten self d) as (d' & Hd' & _ & Hrun').
  { eapply Forall_impl; [exact Hplain|]. intros token. apply plain_decodable. }
  rewrite (to_replace_bis_plain _ _ Hplain) in Hd'. injection Hd' as <-.
  unfold decompose_bpe. by rewrite Hrun'.
Qed.

Lemma decompose_bpe_idempotent_witness :
  forallb (decodable (vocab Scenario.learned)) [4; 0; 4]%Z = true
  /\ exists out,
       length [4; 0; 4]%Z <= length out
       /\ forallb (is_plain (vocab Scenario.learned)) out = true
       /\ forall fuel, length out < fuel ->
            decompose_bpe fuel Scenario.learned [4; 0; 4]%Z = Ok out
            /\ decompose_bpe fuel Scenario.learned out = Ok out.
Proof.
  split; [reflexivity|].
  apply (decompose_bpe_idempotent Scenario.learned [4; 0; 4]%Z). reflexivity.
Defined.

(** X4: in a well-formed codec, decomposing what [apply_bpe] returns gives
    what decomposing the input gives, for every sequence of tokens of the
    vocabulary, merged tokens included: [apply_bpe] never changes the
    primitive content of a sequence. *)
Theorem decompose_after_apply self tokens :
  codec_ok self = true ->
  forallb (fun token =>
             bool_decide (is_Some (dict_get token (_token_to_event (vocab self)))))
          tokens = true ->
  exists tokens' out,
    apply_bpe self tokens = Ok tokens'
    /\ forall fuel, length out < fuel ->
         decompose_bpe fuel self tokens' = Ok out
         /\ decompose_bpe fuel self tokens = Ok out.
Proof.
  intros Hok Hknown%forallb_Forall.
  assert (vocab_ok (vocab self) = true) as Hvok
    by (by apply andb_prop in Hok as [? _]).
  assert (Forall (fun token => decodable (vocab self) token = true) tokens) as Hdec.
  { eapply Forall_impl; [exact Hknown|]. intros token [event Hev]%bool_decide_eq_true.
    by eapply known_decodable. }
  destruct (decompose_bpe_flatten self tokens Hdec) as (d & Hd & _ & Hrun).
  destruct (apply_bpe_spec self tokens (codec_ok_merges_not_nil _ Hok))
    as (tokens' & Happly & Hrtc).
  destruct (merge_steps_flatten self tokens tokens' d Hok Hrtc Hdec Hd)
    as [Hdec' Hd'].
  destruct (decompose_bpe_flatten self tokens' Hdec') as (d' & Hd'' & _ & Hrun').
  rewrite Hd' in Hd''. injection Hd'' as <-.
  exists tokens', d. split; [unfold apply_bpe; by rewrite Happly|].
  intros fuel Hfuel. unfold decompose_bpe. by rewrite Hrun, Hrun'.
Qed.

Lemma decompose_after_apply_witness :
  codec_ok Scenario.learned = true
  /\ forallb (fun token =>
                bool_decide (is_Some (dict_get token
                                        (_token_to_event (vocab Scenario.learned)))))
             [4; 0; 1; 2]%Z = true
  /\ exists tokens' out,
       apply_bpe Scenario.learned [4; 0; 1; 2]%Z = Ok tokens'
       /\ forall fuel, length out < fuel ->
            decompose_bpe fuel Scenario.learned tokens' = Ok out
            /\ decompose_bpe fuel Scenario.learned [4; 0; 1; 2]%Z = Ok out.
Proof.
  split_and!; [reflexivity|reflexivity|].
  apply (decompose_after_apply Scenario.learned [4; 0; 1; 2]%Z); reflexivity.
Defined.

(** What the decomposer does once it has gone through a decodable prefix. *)
Lemma decompose_run_prefix self done rest :
  Forall (fun token => decodable (vocab self) token = true) done ->
  exists out,
    to_replace_bis (vocab self) done = Ok out
    /\ forall fuel,
         decompose_bpe_run (length out + fuel) self (done ++ rest)
         = decompose_loop fuel (vocab self) (length out) (out ++ rest).
Proof.
  intros (d & Hd & _ & Hloop)%decompose_expand. exists d. split; [done|].
  intros fuel. unfold decompose_bpe_run. apply (Hloop fuel [] rest).
Qed.

(** X5: a token that is not in the vocabulary makes [decompose_bpe] raise
    KeyError when the scan reaches it; the list is left with the tokens
    before it decomposed and the rest untouched. *)
Theorem decompose_bpe_unknown_token self done token rest :
  forallb (decodable (vocab self)) done = true ->
  dict_get token (_token_to_event (vocab self)) = None ->
  exists out,
    to_replace_bis (vocab self) done = Ok out
    /\ forall fuel, length out < fuel ->
         decompose_bpe_run fuel self (done ++ token :: rest)
         = (out ++ token :: rest, Raise KeyError).
Proof.
  intros Hdec%forallb_Forall Hnone.
  destruct (decompose_run_prefix self done (token :: rest) Hdec)
    as (out & Hout & Hrun).
  exists out. split; [done|]. intros fuel Hfuel.
  replace fuel with (length out + S (fuel - length out - 1)) by lia.
  rewrite Hrun. cbn [decompose_loop].
  rewrite decide_True by (rewrite length_app; simpl; lia).
  rewrite py_getitem_middle. cbn [mbind result_bind].
  unfold vocab_getitem_int, dict_getitem. by rewrite Hnone.
Qed.

Lemma decompose_bpe_unknown_token_witness :
  forallb (decodable (vocab Scenario.learned)) [4; 2]%Z = true
  /\ dict_get 9%Z (_token_to_event (vocab Scenario.learned)) = None
  /\ exists out,
       to_replace_bis (vocab Scenario.learned) [4; 2]%Z = Ok out
       /\ forall fuel, length out < fuel ->
            decompose_bpe_run fuel Scenario.learned ([4; 2] ++ 9 :: [4])%Z
            = (out ++ 9 :: [4], Raise KeyError)%Z.
Proof.
  split_and!; [reflexivity|reflexivity|].
  apply (decompose_bpe_unknown_token Scenario.learned [4; 2]%Z 9%Z [4]%Z);
    reflexivity.
Defined.

(** X6: a token whose descriptor does not split into exactly two fields at
    the underscore makes [decompose_bpe] raise ValueError (the unpacking of
    line 183) when the scan reaches it, the tokens before it being
    decomposed. *)
Theorem decompose_bpe_bad_descriptor self done token event rest :
  forallb (decodable (vocab self)) done = true ->
  dict_get token (_token_to_event (vocab self)) = Some event ->
  two_fields event = false ->
  exists out,
    to_replace_bis (vocab self) done = Ok out
    /\ forall fuel, length out < fuel ->
         decompose_bpe_run fuel self (done ++ token :: rest)
         = (out ++ token :: rest, Raise ValueError).
Proof.
  intros Hdec%forallb_Forall Hget Htwo.
  destruct (decompose_run_prefix self done (token :: rest) Hdec)
    as (out & Hout & Hrun).
  exists out. split; [done|]. intros fuel Hfuel.
  replace fuel with (length out + S (fuel - length out - 1)) by lia.
  rewrite Hrun. cbn [decompose_loop].
  rewrite decide_True by (rewrite length_app; simpl; lia).
  rewrite py_getitem_middle. cbn [mbind result_bind].
  unfold vocab_getitem_int, dict_getitem. rewrite Hget.
  unfold two_fields in Htwo.
  by destruct (Str.split "_" event) as [|ty [|val [|]]].
Qed.

(** X7: a merged token whose descriptor has no dot after the underscore
    makes [decompose_bpe] raise IndexError, after the token has been deleted
    from the list: the caller's list has lost it. *)
Theorem decompose_bpe_no_decomposition self done token event val rest :
  forallb (decodable (vocab self)) done = true ->
  dict_get token (_token_to_event (vocab self)) = Some event ->
  Str.split "_" event = ["BPE"; val] -> Str.lacks "." val = true ->
  exists out,
    to_replace_bis (vocab self) done = Ok out
    /\ forall fuel, length out < fuel ->
         decompose_bpe_run fuel self (done ++ token :: rest)
         = (out ++ rest, Raise IndexError).
Proof.
  intros Hdec%forallb_Forall Hget Hsplit Hval.
  destruct (decompose_run_prefix self done (token :: rest) Hdec)
    as (out & Hout & Hrun).
  exists out. split; [done|]. intros fuel Hfuel.
  replace fuel with (length out + S (fuel - length out - 1)) by lia.
  rewrite Hrun. cbn [decompose_loop].
  rewrite decide_True by (rewrite length_app; simpl; lia).
  rewrite py_getitem_middle. cbn [mbind result_bind].
  unfold vocab_getitem_int, dict_getitem. rewrite Hget, Hsplit.
  rewrite decide_True by done. rewrite py_del_middle.
  by rewrite (StrFacts.split_lacks _ _ Hval).
Qed.

(** A run that ends, ends the same with more fuel. *)
Lemma decompose_loop_mono v fuel :
  forall i tokens,
    (decompose_loop fuel v i tokens).2 <> Diverge ->
    forall fuel', fuel <= fuel' ->
      decompose_loop fuel' v i tokens = decompose_loop fuel v i tokens.
Proof.
  induction fuel as [|fuel IH]; intros i tokens Hend fuel' Hle; [done|].
  destruct fuel' as [|fuel']; [lia|].
  cbn [decompose_loop] in Hend |- *.
  repeat case_match; try done; apply IH; (done || lia).
Qed.

Lemma self_reference_loop v token event first plain after :
  dict_get token (_token_to_event v) = Some event ->
  two_fields event = true -> event_type event = "BPE" ->
  decomposition_of_event event = Ok (first :: plain ++ token :: after) ->
  Forall (fun t => is_plain v t = true) plain ->
  forall fuel pre rest,
    (decompose_loop fuel v (length pre) (pre ++ token :: rest)).2 = Diverge.
Proof.
  intros Hget Htwo Hty Hd Hplain.
  induction fuel as [|fuel IH]; intros pre rest; [done|].
  rewrite (decompose_step_merged v fuel pre token rest event _ Hget Htwo Hty Hd).
  set (pre1 := pre ++ [first]).
  set (rest1 := token :: after ++ rest).
  replace (pre ++ (first :: plain ++ token :: after) ++ rest)
    with (pre1 ++ plain ++ rest1)
    by (unfold pre1, rest1; by simplify_list_eq).
  replace (length pre + 1) with (length pre1)
    by (unfold pre1; rewrite length_app; simpl; lia).
  destruct (decide ((decompose_loop fuel v (length pre1)
                       (pre1 ++ plain ++ rest1)).2 = Diverge)) as [|Hend];
    [done|exfalso].
  pose proof (decompose_loop_mono v fuel _ _ Hend (length plain + fuel)
                ltac:(lia)) as Hmono.
  rewrite (decompose_skip_plain v plain Hplain fuel pre1 rest1) in Hmono.
  apply Hend. rewrite <- Hmono.
  replace (length pre1 + length plain) with (length (pre1 ++ plain))
    by (rewrite length_app; lia).
  rewrite app_assoc. apply IH.
Qed.

(** X8: [decompose_bpe] never returns on a sequence that holds, after tokens
    it can decode, a merged token whose full decomposition lists the token
    itself after its first position (plain tokens in between): each turn
    re-inserts the token ahead of the index, and the list grows for ever. *)
Theorem decompose_bpe_self_reference
    self done token event first plain after rest :
  forallb (decodable (vocab self)) done = true ->
  dict_get token (_token_to_event (vocab self)) = Some event ->
  two_fields event = true -> event_type event = "BPE" ->
  decomposition_of_event event = Ok (first :: plain ++ token :: after) ->
  forallb (is_plain (vocab self)) plain = true ->
  forall fuel, decompose_bpe fuel self (done ++ token :: rest) = Diverge.
Proof.
  intros Hdec%forallb_Forall Hget Htwo Hty Hd Hplain%forallb_Forall fuel.
  destruct (decompose_run_prefix self done (token :: rest) Hdec)
    as (out & Hout & Hrun).
  assert ((decompose_bpe_run fuel self (done ++ token :: rest)).2 = Diverge)
    as Hdiv.
  { destruct (decide ((decompose_bpe_run fuel self (done ++ token :: rest)).2
                      = Diverge)) as [|Hend]; [done|exfalso].
    pose proof (decompose_loop_mono _ fuel _ _ Hend (length out + fuel)
                  ltac:(lia)) as Hmono.
    apply Hend. unfold decompose_bpe_run in *. rewrite <- Hmono.
    specialize (Hrun fuel). unfold decompose_bpe_run in Hrun. rewrite Hrun.
    by eapply self_reference_loop. }
  unfold decompose_bpe, returned.
  destruct (decompose_bpe_run fuel self (done ++ token :: rest)) as [l r].
  simpl in Hdiv. by subst r.
Qed.

Lemma decompose_bpe_bad_descriptor_witness :
  forallb (decodable (vocab Malformed.tokenizer)) [0; 1]%Z = true
  /\ dict_get 3%Z (_token_to_event (vocab Malformed.tokenizer))
     = Some "Time_Shift_1"
  /\ two_fields "Time_Shift_1" = false
  /\ exists out,
       to_replace_bis (vocab Malformed.tokenizer) [0; 1]%Z = Ok out
       /\ forall fuel, length out < fuel ->
            decompose_bpe_run fuel Malformed.tokenizer ([0; 1] ++ 3 :: [0])%Z
            = (out ++ 3 :: [0], Raise ValueError)%Z.
Proof.
  split_and!; [reflexivity..|].
  apply (decompose_bpe_bad_descriptor Malformed.tokenizer [0; 1]%Z 3%Z
           "Time_Shift_1" [0]%Z); reflexivity.
Defined.

Lemma decompose_bpe_no_decomposition_witness :
  forallb (decodable (vocab Malformed.tokenizer)) [0; 1]%Z = true
  /\ dict_get 2%Z (_token_to_event (vocab Malformed.tokenizer)) = Some "BPE_0-1"
  /\ Str.split "_" "BPE_0-1" = ["BPE"; "0-1"]
  /\ Str.lacks "." "0-1" = true
  /\ exists out,
       to_replace_bis (vocab Malformed.tokenizer) [0; 1]%Z = Ok out
       /\ forall fuel, length out < fuel ->
            decompose_bpe_run fuel Malformed.tokenizer ([0; 1] ++ 2 :: [0])%Z
            = (out ++ [0], Raise IndexError)%Z.
Proof.
  split_and!; [reflexivity..|].
  apply (decompose_bpe_no_decomposition Malformed.tokenizer [0; 1]%Z 2%Z
           "BPE_0-1" "0-1" [0]%Z); reflexivity.
Defined.

Lemma decompose_bpe_self_reference_witness :
  forallb (decodable (vocab Malformed.tokenizer)) [1]%Z = true
  /\ dict_get 4%Z (_token_to_event (vocab Malformed.tokenizer))
     = Some "BPE_0-1.0-4"
  /\ two_fields "BPE_0-1.0-4" = true
  /\ event_type "BPE_0-1.0-4" = "BPE"
  /\ decomposition_of_event "BPE_0-1.0-4" = Ok (0 :: [] ++ 4 :: [])%Z
  /\ forallb (is_plain (vocab Malformed.tokenizer)) [] = true
  /\ forall fuel,
       decompose_bpe fuel Malformed.tokenizer ([1] ++ 4 :: [0])%Z = Diverge.
Proof.
  split_and!; [reflexivity..|].
  apply (decompose_bpe_self_reference Malformed.tokenizer [1]%Z 4%Z
           "BPE_0-1.0-4" 0%Z [] [] [0]%Z); reflexivity.
Defined.

(** ** Descriptors written and read back *)

(** X9: the descriptor the learner registers for a merge (lines 84-85) is
    read back exactly by every reader of the file: its type is BPE, it
    unpacks into two fields for [decompose_bpe], [set_bpe_tokens_successions]
    reads the merged succession out of it, and the learner and the decomposer
    read the full decomposition. This holds for non-empty lists of
    non-negative tokens (the text of a negative token holds the separator
    of the lists). *)
Theorem descriptor_round_trip (succession decomposition : list Z) :
  succession <> [] -> decomposition <> [] ->
  Forall (fun z => (0 <= z)%Z) succession ->
  Forall (fun z => (0 <= z)%Z) decomposition ->
  event_type (bpe_event (to_replace_str succession decomposition)) = "BPE"
  /\ two_fields (bpe_event (to_replace_str succession decomposition)) = true
  /\ succession_of_event (bpe_event (to_replace_str succession decomposition))
     = Ok succession
  /\ decomposition_of_event (bpe_event (to_replace_str succession decomposition))
     = Ok decomposition.
Proof.
  intros Hp Hd Hpn Hdn. split_and!.
  - by apply event_type_bpe_event.
  - by apply two_fields_bpe_event.
  - by apply succession_bpe_event.
  - by apply decomposition_bpe_event.
Qed.

Lemma descriptor_round_trip_witness :
  [4; 2]%Z <> [] /\ [0; 1; 2]%Z <> []
  /\ Forall (fun z => (0 <= z)%Z) [4; 2]%Z
  /\ Forall (fun z => (0 <= z)%Z) [0; 1; 2]%Z
  /\ event_type (bpe_event (to_replace_str [4; 2]%Z [0; 1; 2]%Z)) = "BPE"
  /\ two_fields (bpe_event (to_replace_str [4; 2]%Z [0; 1; 2]%Z)) = true
  /\ succession_of_event (bpe_event (to_replace_str [4; 2]%Z [0; 1; 2]%Z))
     = Ok [4; 2]%Z
  /\ decomposition_of_event (bpe_event (to_replace_str [4; 2]%Z [0; 1; 2]%Z))
     = Ok [0; 1; 2]%Z.
Proof.
  split; [discriminate|]. split; [discriminate|].
  split; [repeat constructor; lia|]. split; [repeat constructor; lia|].
  apply (descriptor_round_trip [4; 2]%Z [0; 1; 2]%Z);
    solve [discriminate | repeat constructor; lia].
Defined.

(** ** What the learner counts *)

Lemma tallied_ext occurrences f g :
  (forall q, f q = g q) -> tallied occurrences f -> tallied occurrences g.
Proof. intros Hfg Hf q. rewrite <- Hfg. apply Hf. Qed.

Lemma count_pair_tallied occurrences f key :
  tallied occurrences f ->
  tallied (count_pair occurrences key)
          (fun q => f q + if decide (key = q) then 1 else 0).
Proof.
  intros Hf q. unfold count_pair. rewrite (Hf key).
  destruct (decide (f key = 0)) as [H0|H0]; rewrite dict_get_set, (Hf q);
    destruct (decide (key = q)) as [<-|Hq].
  - rewrite H0. by rewrite decide_False by lia.
  - rewrite Nat.add_0_r. done.
  - by rewrite decide_False by lia.
  - rewrite Nat.add_0_r. done.
Qed.

Lemma count_indexes_tallied (slice : nat -> list Z) idx : forall occurrences f,
  tallied occurrences f ->
  tallied (fold_left (fun occ i => count_pair occ (slice i)) idx occurrences)
          (fun q => f q + length (filter (fun i => slice i = q) idx)).
Proof.
  induction idx as [|i idx IH]; intros occurrences f Hf.
  - simpl. eapply tallied_ext; [|exact Hf]. intros q. simpl. lia.
  - cbn [fold_left].
    eapply tallied_ext; [|apply IH, count_pair_tallied, Hf].
    intros q. cbn beta. rewrite filter_cons.
    destruct (decide (slice i = q)); simpl; lia.
Qed.

Lemma count_track_tallied occurrences f track :
  tallied occurrences f ->
  tallied (count_track occurrences track)
          (fun q => f q + length (pair_positions q track)).
Proof.
  intros Hf. unfold count_track, pair_positions.
  apply (count_indexes_tallied (fun i => py_slice track i (i + 2))), Hf.
Qed.

Lemma count_sample_tallied sample : forall occurrences f,
  tallied occurrences f ->
  tallied (fold_left count_track sample occurrences)
          (fun q => f q + list_sum (map (fun track => length (pair_positions q track))
                                        sample)).
Proof.
  induction sample as [|track sample IH]; intros occurrences f Hf.
  - simpl. eapply tallied_ext; [|exact Hf]. intros q. simpl. lia.
  - cbn [fold_left].
    eapply tallied_ext; [|apply IH, count_track_tallied, Hf].
    intros q. cbn beta. simpl. lia.
Qed.

Lemma count_samples_tallied samples : forall occurrences f,
  tallied occurrences f ->
  tallied (fold_left (fun occ sample => fold_left count_track sample occ)
                     samples occurrences)
          (fun q => f q + pair_count q samples).
Proof.
  induction samples as [|sample samples IH]; intros occurrences f Hf.
  - simpl. eapply tallied_ext; [|exact Hf]. intros q.
    unfold pair_count. simpl. lia.
  - cbn [fold_left].
    eapply tallied_ext; [|apply IH, count_sample_tallied, Hf].
    intros q. cbn beta. unfold pair_count. simpl. lia.
Qed.

Lemma count_occurrences_tallied samples :
  tallied (count_occurrences samples) (fun q => pair_count q samples).
Proof.
  unfold count_occurrences.
  eapply tallied_ext;
    [|apply (count_samples_tallied samples [] (fun _ => 0))]; done.
Qed.

(** X10: the counting phase of a turn of the learner (lines 67-74) gives
    every pair the number of positions of the corpus at which it stands,
    overlapping ones included, and holds no key for a pair that stands
    nowhere. *)
Theorem count_occurrences_exact samples q :
  dict_get q (count_occurrences samples)
  = if decide (pair_count q samples = 0) then None
    else Some (pair_count q samples).
Proof. apply count_occurrences_tallied. Qed.

Lemma py_max_key_max occurrences k :
  py_max_key occurrences = Ok k ->
  forall q, default 0 (dict_get q occurrences)
            <= default 0 (dict_get k occurrences).
Proof.
  unfold py_max_key. intros Hmax q.
  destruct (dict_get q occurrences) as [n|] eqn:Hq; [|simpl; lia].
  assert (q ∈ dict_keys occurrences) as Hin.
  { destruct (decide (q ∈ dict_keys occurrences)) as [|Hnot]; [done|].
    apply dict_get_None in Hnot. congruence. }
  destruct (dict_keys occurrences) as [|k0 ks]; [done|].
  injection Hmax as <-.
  set (tally x := default 0 (dict_get x occurrences)).
  change (default 0 (Some n)) with (default 0 (Some n)).
  rewrite <- Hq. fold (tally q).
  assert (forall ks best,
            tally best <=
            tally (fold_left (fun best k' =>
                                if decide (tally best < tally k') then k' else best)
                             ks best)
            /\ forall x, x ∈ ks ->
                 tally x <=
                 tally (fold_left (fun best k' =>
                                     if decide (tally best < tally k') then k'
                                     else best)
                                  ks best)) as Hfold.
  { clear. induction ks as [|k' ks IH]; intros best; simpl.
    - split; [lia|]. intros x Hx. inversion Hx.
    - destruct (IH (if decide (tally best < tally k') then k' else best))
        as [Hbest Hrest].
      split.
      + case_decide; lia.
      + intros x [->|Hx]%elem_of_cons; [case_decide; lia|by apply Hrest]. }
  destruct (Hfold ks k0) as [H0 Hks].
  apply elem_of_cons in Hin as [->|Hin]; [exact H0|by apply Hks].
Qed.

(** X11: the pair a turn of the learner merges (line 76) is a pair of two
    tokens that stands in the corpus, and no pair stands at more positions
    of the corpus than it does. *)
Theorem most_recurrent_pair samples to_replace :
  py_max_key (count_occurrences samples) = Ok to_replace ->
  length to_replace = 2
  /\ 0 < pair_count to_replace samples
  /\ forall q, pair_count q samples <= pair_count to_replace samples.
Proof.
  intros Hmax.
  pose proof (py_max_key_elem _ _ Hmax) as Hin.
  destruct (counted_occurs _ _ Hin) as [Hlen _].
  pose proof (count_occurrences_tallied samples) as Htally.
  assert (0 < pair_count to_replace samples) as Hpos.
  { destruct (decide (pair_count to_replace samples = 0)) as [H0|]; [|lia].
    specialize (Htally to_replace). cbn beta in Htally.
    rewrite decide_True in Htally by done.
    by apply dict_get_None in Htally. }
  split_and!; [done|done|]. intros q.
  pose proof (py_max_key_max _ _ Hmax q) as Hle.
  rewrite (Htally q), (Htally to_replace) in Hle. cbn beta in Hle.
  rewrite (decide_False (P := pair_count to_replace samples = 0)) in Hle by lia.
  destruct (decide (pair_count q samples = 0)); simpl in Hle; lia.
Qed.

Lemma most_recurrent_pair_witness :
  py_max_key (count_occurrences [[[0; 1; 0; 1; 2]; [1; 2; 2]]]%Z) = Ok [0; 1]%Z
  /\ length [0; 1]%Z = 2
  /\ 0 < pair_count [0; 1]%Z [[[0; 1; 0; 1; 2]; [1; 2; 2]]]%Z
  /\ forall q, pair_count q [[[0; 1; 0; 1; 2]; [1; 2; 2]]]%Z
               <= pair_count [0; 1]%Z [[[0; 1; 0; 1; 2]; [1; 2; 2]]]%Z.
Proof.
  split; [reflexivity|].
  apply (most_recurrent_pair [[[0; 1; 0; 1; 2]; [1; 2; 2]]]%Z [0; 1]%Z).
  reflexivity.
Defined.

(** ** One turn of the learner, read from its result *)

(** A turn that completes has registered the winning pair under the next
    token and rewritten the corpus with [merge_pairs]. *)
Lemma bpe_iteration_inv v samples v' samples' :
  bpe_iteration v samples = (v', Ok samples') ->
  exists a b d,
    py_max_key (count_occurrences samples) = Ok [a; b]
    /\ to_replace_bis v [a; b] = Ok d
    /\ add_event v (bpe_event (to_replace_str [a; b] d)) = Ok v'
    /\ a <> next_token v /\ b <> next_token v
    /\ samples' = merge_samples a b (next_token v) samples.
Proof.
  intros Hit.
  destruct (bpe_iteration_cases v samples)
    as [[_ Hfail]|(p & d & v1 & Hp & Hd & Hadd & Heq)].
  { rewrite Hit in Hfail. done. }
  rewrite Heq in Hit. injection Hit as -> Hrep.
  destruct (winning_pair _ _ Hp) as [Hlen _].
  destruct p as [|a [|b [|]]]; try done.
  pose proof (to_replace_bis_known _ _ _ Hd) as Hknown.
  pose proof (next_token_fresh v) as Hfresh.
  assert (a <> next_token v /\ b <> next_token v) as [Ha Hb].
  { inversion Hknown as [|? ? [ea Hea] Hknown']; subst.
    inversion Hknown' as [|? ? [eb Heb] _]; subst.
    split; intros ->; congruence. }
  pose proof Hadd as (Hnone & _ & Hett & _)%add_event_ok.
  rewrite (replace_samples_merge _ _ a b (next_token v)) in Hrep.
  - injection Hrep as <-. by exists a, b, d.
  - unfold vocab_getitem_str, dict_getitem.
    by rewrite Hett, dict_get_app, Hnone; simpl; rewrite decide_True.
Qed.

Lemma merge_pairs_shorter a b new : forall track,
  length (merge_pairs a b new track) <= length track
  /\ (stands a b track = true ->
      length (merge_pairs a b new track) < length track).
Proof.
  induction track as [| |x y l [IHl _] [IHyl IHst]] using pair_ind;
    [by split..|].
  rewrite merge_pairs_cons2, stands_cons2.
  destruct (decide (x = a /\ y = b)) as [Hxy|Hxy]; simpl in *.
  - split; [lia|]. intros _. lia.
  - rewrite bool_decide_eq_false_2 by done. simpl. split; [lia|].
    intros Hst. specialize (IHst Hst). lia.
Qed.

Lemma total_tokens_cons sample samples :
  total_tokens (sample :: samples)
  = list_sum (map (@length Z) sample) + total_tokens samples.
Proof. unfold total_tokens, track_lengths. simpl. by rewrite list_sum_app. Qed.

Lemma sample_tokens_merge a b new sample :
  list_sum (map (@length Z) (map (merge_pairs a b new) sample))
  <= list_sum (map (@length Z) sample)
  /\ (existsb (stands a b) sample = true ->
      list_sum (map (@length Z) (map (merge_pairs a b new) sample))
      < list_sum (map (@length Z) sample)).
Proof.
  induction sample as [|track sample [IHle IHlt]]; [by split|].
  destruct (merge_pairs_shorter a b new track) as [Hle Hlt].
  simpl. split; [lia|].
  intros [Hst|Hst]%orb_prop; [specialize (Hlt Hst)|specialize (IHlt Hst)]; lia.
Qed.

Lemma total_tokens_merge a b new samples :
  total_tokens (merge_samples a b new samples) <= total_tokens samples
  /\ (stands_in [a; b] samples = true ->
      total_tokens (merge_samples a b new samples) < total_tokens samples).
Proof.
  induction samples as [|sample samples [IHle IHlt]]; [by split|].
  destruct (sample_tokens_merge a b new sample) as [Hle Hlt].
  unfold merge_samples in *. cbn [map]. rewrite !total_tokens_cons.
  split; [lia|]. cbn [stands_in existsb] in *.
  intros [Hst|Hst]%orb_prop; [specialize (Hlt Hst)|specialize (IHlt Hst)]; lia.
Qed.

Lemma pair_positions_stands a b track :
  stands a b track = false -> pair_positions [a; b] track = [].
Proof.
  intros Hst. unfold pair_positions.
  destruct (filter _ _) as [|i l] eqn:Hf; [done|exfalso].
  assert (i ∈ filter (fun i => py_slice track i (i + 2) = [a; b])
                     (seq 0 (length track - 1))) as Hin
    by (rewrite Hf; left).
  apply list_elem_of_filter in Hin as [Hslice Hi].
  apply elem_of_seq in Hi.
  destruct (slice_pair track i ltac:(lia)) as [_ Heq].
  rewrite Hslice in Heq. rewrite Heq, stands_middle in Hst. done.
Qed.

Lemma pair_count_stands a b samples :
  stands_in [a; b] samples = false -> pair_count [a; b] samples = 0.
Proof.
  cbn [stands_in].
  induction samples as [|sample samples IH]; [done|].
  cbn [existsb]. intros [Hs Hrest]%orb_false_elim.
  change (pair_count [a; b] (sample :: samples))
    with (list_sum (map (fun track => length (pair_positions [a; b] track))
                        sample)
          + pair_count [a; b] samples).
  rewrite (IH Hrest), Nat.add_0_r.
  clear IH Hrest. induction sample as [|track sample IH]; [done|].
  cbn [existsb] in Hs. apply orb_false_elim in Hs as [Ht Hs].
  change (list_sum (map (fun track => length (pair_positions [a; b] track))
                        (track :: sample)))
    with (length (pair_positions [a; b] track)
          + list_sum (map (fun track => length (pair_positions [a; b] track))
                          sample)).
  by rewrite (pair_positions_stands _ _ _ Ht), (IH Hs).
Qed.

Lemma merge_samples_clears a b new samples :
  new <> a -> new <> b ->
  stands_in [a; b] (merge_samples a b new samples) = false.
Proof.
  intros Ha Hb.
  destruct (stands_in [a; b] (merge_samples a b new samples)) eqn:Hst; [|done].
  apply stands_in_merge in Hst as (sample & track & _ & _ & Hst).
  by rewrite merge_pairs_clears in Hst.
Qed.

(** X12: a turn of the learner that completes (lines 65-93) has taken a
    pair of two tokens of maximal count, given the vocabulary one more
    token, and rewritten every track from left to right; after it the pair
    stands nowhere in the corpus, and the corpus has strictly fewer
    tokens. *)
Theorem bpe_iteration_merges v samples v' samples' :
  bpe_iteration v samples = (v', Ok samples') ->
  exists a b,
    py_max_key (count_occurrences samples) = Ok [a; b]
    /\ vocab_len v' = S (vocab_len v)
    /\ samples' = merge_samples a b (next_token v) samples
    /\ pair_count [a; b] samples' = 0
    /\ total_tokens samples' < total_tokens samples.
Proof.
  intros Hit.
  destruct (bpe_iteration_inv _ _ _ _ Hit)
    as (a & b & d & Hp & Hd & Hadd & Ha & Hb & ->).
  exists a, b. split_and!; [done|by eapply add_event_len|done| |].
  - apply pair_count_stands. by apply merge_samples_clears.
  - apply total_tokens_merge, occurs_stands_in. by apply winning_pair.
Qed.

Lemma bpe_iteration_merges_witness :
  bpe_iteration Scenario.base_vocab Scenario.corpus
  = ((bpe_iteration Scenario.base_vocab Scenario.corpus).1, Ok [[[4; 4; 2]]]%Z)
  /\ exists a b,
       py_max_key (count_occurrences Scenario.corpus) = Ok [a; b]
       /\ vocab_len (bpe_iteration Scenario.base_vocab Scenario.corpus).1
          = S (vocab_len Scenario.base_vocab)
       /\ [[[4; 4; 2]]]%Z
          = merge_samples a b (next_token Scenario.base_vocab) Scenario.corpus
       /\ pair_count [a; b] [[[4; 4; 2]]]%Z = 0
       /\ total_tokens [[[4; 4; 2]]]%Z < total_tokens Scenario.corpus.
Proof.
  split; [reflexivity|].
  apply (bpe_iteration_merges Scenario.base_vocab Scenario.corpus).
  reflexivity.
Defined.

(** ** Learning loses nothing *)

Lemma merge_pairs_flatten v a b new d :
  flatten_token v new = Ok d -> to_replace_bis v [a; b] = Ok d ->
  forall track x,
    to_replace_bis v track = Ok x ->
    to_replace_bis v (merge_pairs a b new track) = Ok x.
Proof.
  intros Hnew Hab.
  induction track as [| |x y l IHl IHyl] using pair_ind; [done..|].
  intros r Hr. rewrite merge_pairs_cons2.
  destruct (decide (x = a /\ y = b)) as [[-> ->]|Hxy].
  - change (a :: b :: l) with ([a; b] ++ l) in Hr.
    apply to_replace_bis_app_ok in Hr as (x1 & x2 & Hx1 & Hx2 & ->).
    rewrite Hab in Hx1. injection Hx1 as <-.
    by rewrite to_replace_bis_cons, Hnew, (IHl _ Hx2).
  - rewrite to_replace_bis_cons in Hr |- *.
    destruct (flatten_token v x) as [fx| |];
      cbn [mbind result_bind] in Hr |- *; [|done..].
    destruct (to_replace_bis v (y :: l)) as [fl| |];
      cbn [mbind result_bind] in Hr; [|done..].
    by rewrite (IHyl _ eq_refl).
Qed.

Lemma registered_flatten v a b d v' :
  vocab_ok v = true -> to_replace_bis v [a; b] = Ok d ->
  add_event v (bpe_event (to_replace_str [a; b] d)) = Ok v' ->
  flatten_token v' (next_token v) = Ok d /\ to_replace_bis v' [a; b] = Ok d.
Proof.
  intros (Hnn & _ & Hflat & _)%vocab_ok_spec Hd Hadd.
  destruct (to_replace_bis_flat v Hnn Hflat _ _ Hd) as (Hpnn & Hprim & Hdne).
  specialize (Hdne ltac:(done)).
  assert (Forall (fun z => (0 <= z)%Z) d) as Hdnn.
  { eapply Forall_impl; [exact Hprim|]. by apply primitive_nonneg. }
  apply add_event_ok in Hadd as (_ & Htte & _).
  split; [|by apply (to_replace_bis_extended _ _ _ _ Htte)].
  unfold flatten_token, dict_getitem.
  rewrite Htte, dict_get_app, next_token_fresh. cbn [dict_get].
  rewrite decide_True by done. cbn [mbind result_bind].
  rewrite decide_True by (by apply event_type_bpe_event).
  by apply decomposition_bpe_event.
Qed.

Lemma bpe_iteration_kept v original samples v' samples' :
  vocab_ok v = true -> kept v original samples ->
  bpe_iteration v samples = (v', Ok samples') ->
  vocab_ok v' = true /\ kept v' original samples'.
Proof.
  intros Hok Hkept Hit.
  destruct (bpe_iteration_inv _ _ _ _ Hit)
    as (a & b & d & Hp & Hd & Hadd & _ & _ & ->).
  split; [by eapply (register_ok v [a; b])|].
  destruct (registered_flatten _ _ _ _ _ Hok Hd Hadd) as [Hnew Hab].
  pose proof Hadd as (_ & Htte & _)%add_event_ok.
  unfold kept, merge_samples. apply Forall2_fmap_r.
  eapply Forall2_impl; [exact Hkept|]. intros sample0 sample Hs. cbn beta.
  apply Forall2_fmap_r. eapply Forall2_impl; [exact Hs|].
  intros track0 track Ht. cbn beta.
  eapply merge_pairs_flatten; [done..|].
  by apply (to_replace_bis_extended _ _ _ _ Htte).
Qed.

Lemma bpe_loop_kept vocab_size original fuel : forall v samples v' samples',
  vocab_ok v = true -> kept v original samples ->
  bpe_loop fuel vocab_size v samples = (v', Ok samples') ->
  vocab_ok v' = true /\ kept v' original samples'.
Proof.
  induction fuel as [|fuel IH]; intros v samples v' samples' Hok Hkept; [done|].
  cbn [bpe_loop]. case_decide; [|by intros [= <- <-]].
  destruct (bpe_iteration v samples) as [v1 [samples1| |]] eqn:Hit; [|done..].
  destruct (bpe_iteration_kept _ _ _ _ _ Hok Hkept Hit) as [Hok1 Hkept1].
  by apply IH.
Qed.

(** X13: learning loses nothing. When [bpe] returns normally from a
    well-formed vocabulary and a corpus of plain tokens, the rewritten
    corpus has the shape of the original one, and [decompose_bpe] of the
    tokenizer it leaves gives back, from every rewritten track, the original
    track. *)
Theorem bpe_lossless self samples vocab_size self' samples' :
  vocab_ok (vocab self) = true ->
  forallb (forallb (forallb (is_plain (vocab self)))) samples = true ->
  bpe self samples vocab_size = (self', Ok samples') ->
  Forall2 (Forall2 (fun track track' =>
                      forall fuel, length track < fuel ->
                        decompose_bpe fuel self' track' = Ok track))
          samples samples'.
Proof.
  intros Hok Hplain. unfold bpe. case_decide; [|done].
  set (fuel := S _).
  assert (kept (vocab self) samples samples) as Hkept.
  { unfold kept. apply Forall2_same_length_lookup_2; [done|].
    intros i sample sample2 Hs Hs2. rewrite Hs in Hs2. injection Hs2 as <-.
    apply forallb_Forall in Hplain.
    pose proof (proj1 (Forall_lookup _ _) Hplain i sample Hs) as Hsample.
    apply forallb_Forall in Hsample.
    apply Forall2_same_length_lookup_2; [done|].
    intros j track track2 Ht Ht2. rewrite Ht in Ht2. injection Ht2 as <-.
    pose proof (proj1 (Forall_lookup _ _) Hsample j track Ht) as Htrack.
    apply forallb_Forall in Htrack. by apply to_replace_bis_plain. }
  destruct (bpe_loop fuel vocab_size (vocab self) samples)
    as [v [samples1| |]] eqn:Hloop; [|done..].
  destruct (bpe_loop_kept _ _ _ _ _ _ _ Hok Hkept Hloop) as [Hok' Hkept'].
  destruct (set_bpe_tokens_successions v) as [succs| |]; [|done..].
  case_decide; [done|]. intros [= <- <-].
  eapply Forall2_impl; [exact Hkept'|]. intros sample sample' Hs.
  eapply Forall2_impl; [exact Hs|]. intros track track' Ht fuel' Hfuel.
  set (self2 := {| has_bpe := true; vocab := update_token_types_indexes v;
                   bpe_successions := succs;
                   tokens_types_graph :=
                     add_bpe_to_tokens_type_graph (tokens_types_graph self) |}).
  destruct (decompose_bpe_flatten self2 track') as (d & Hd & _ & Hrun).
  { pose proof (to_replace_bis_known _ _ _ Ht) as Hknown.
    eapply Forall_impl; [exact Hknown|]. intros token [event Hev].
    by apply (known_decodable (update_token_types_indexes v) token event). }
  change (to_replace_bis (vocab self2) track')
    with (to_replace_bis v track') in Hd.
  rewrite Ht in Hd. injection Hd as <-.
  unfold decompose_bpe. by rewrite Hrun.
Qed.

Lemma bpe_lossless_witness :
  vocab_ok (vocab Scenario.tokenizer) = true
  /\ forallb (forallb (forallb (is_plain (vocab Scenario.tokenizer))))
             Scenario.corpus = true
  /\ bpe Scenario.tokenizer Scenario.corpus 5
     = (Scenario.learned, Ok [[[4; 4; 2]]]%Z)
  /\ Forall2 (Forall2 (fun track track' =>
                         forall fuel, length track < fuel ->
                           decompose_bpe fuel Scenario.learned track' = Ok track))
             Scenario.corpus [[[4; 4; 2]]]%Z.
Proof.
  split_and!; [reflexivity..|].
  apply (bpe_lossless Scenario.tokenizer Scenario.corpus 5); reflexivity.
Defined.

(** ** The vocabulary only grows *)

Lemma event_type_bpe_any value : event_type (bpe_event value) = "BPE".
Proof.
  unfold event_type.
  change (bpe_event value) with ("BPE" ++ String "_" value)%string.
  by rewrite StrFacts.split_app_sep.
Qed.

Lemma bpe_iteration_grows v samples :
  exists added,
    _token_to_event (bpe_iteration v samples).1 = _token_to_event v ++ added
    /\ _event_to_token (bpe_iteration v samples).1
       = _event_to_token v ++ map (fun te => (te.2, te.1)) added
    /\ Forall (fun te => event_type te.2 = "BPE") added.
Proof.
  destruct (bpe_iteration_cases v samples)
    as [[-> _]|(p & d & v1 & _ & _ & Hadd & ->)].
  - exists []. by rewrite !app_nil_r.
  - apply add_event_ok in Hadd as (_ & Htte & Hett & _).
    exists [(next_token v, bpe_event (to_replace_str p d))].
    split_and!; [done|done|].
    constructor; [apply event_type_bpe_any|constructor].
Qed.

Lemma bpe_loop_grows vocab_size fuel : forall v samples,
  exists added,
    _token_to_event (bpe_loop fuel vocab_size v samples).1
    = _token_to_event v ++ added
    /\ _event_to_token (bpe_loop fuel vocab_size v samples).1
       = _event_to_token v ++ map (fun te => (te.2, te.1)) added
    /\ Forall (fun te => event_type te.2 = "BPE") added.
Proof.
  induction fuel as [|fuel IH]; intros v samples.
  { exists []. by rewrite !app_nil_r. }
  cbn [bpe_loop]. case_decide; [|exists []; by rewrite !app_nil_r].
  destruct (bpe_iteration_grows v samples) as (added1 & Htte1 & Hett1 & Hty1).
  destruct (bpe_iteration v samples) as [v1 [samples1| |]]; cbn [fst] in *;
    [|by exists added1..].
  destruct (IH v1 samples1) as (added2 & Htte2 & Hett2 & Hty2).
  exists (added1 ++ added2). rewrite Htte2, Htte1, Hett2, Hett1, map_app.
  split_and!; [by rewrite app_assoc..|by apply Forall_app].
Qed.

(** X14: whatever its outcome (a normal return, an exception on the
    way), [bpe] removes and renames no token: the two dictionaries of the
    vocabulary it leaves are the ones it found, followed by new entries, and
    every new descriptor has type BPE. *)
Theorem bpe_extends_vocabulary self samples vocab_size :
  exists added,
    _token_to_event (vocab (bpe self samples vocab_size).1)
    = _token_to_event (vocab self) ++ added
    /\ _event_to_token (vocab (bpe self samples vocab_size).1)
       = _event_to_token (vocab self) ++ map (fun te => (te.2, te.1)) added
    /\ Forall (fun te => event_type te.2 = "BPE") added.
Proof.
  unfold bpe. case_decide; [|exists []; by rewrite !app_nil_r].
  set (fuel := S _).
  destruct (bpe_loop_grows vocab_size fuel (vocab self) samples)
    as (added & Htte & Hett & Hty).
  exists added.
  destruct (bpe_loop fuel vocab_size (vocab self) samples)
    as [v [samples1| |]]; cbn [fst] in *; [|done..].
  destruct (set_bpe_tokens_successions v) as [succs| |]; [|done..].
  by case_decide.
Qed.

(** ** Saving and loading *)

Lemma fold_set_nodup {K V} `{EqDecision K} (items : list (K * V)) :
  forall d, NoDup (map fst (d ++ items)) ->
    fold_left (fun d kv => dict_set kv.1 kv.2 d) items d = d ++ items.
Proof.
  induction items as [|[k v] items IH]; intros d Hnd; cbn [fold_left].
  - by rewrite app_nil_r.
  - cbn [fst snd]. rewrite dict_set_fresh.
    + rewrite IH; rewrite <- app_assoc; done.
    + apply dict_get_None. unfold dict_keys.
      rewrite map_app in Hnd. apply NoDup_app in Hnd as (_ & Hnot & _).
      intros Hin. apply (Hnot k Hin). left.
Qed.

Lemma dict_of_items_nodup {K V} `{EqDecision K} (items : list (K * V)) :
  NoDup (map fst items) -> dict_of_items items = items.
Proof. intros Hnd. unfold dict_of_items. by rewrite fold_set_nodup. Qed.

Lemma int_keys_saved (events : dict Z string) :
  int_keys (map (fun te => (Str.of_int te.1, te.2)) events) = Ok events.
Proof.
  unfold int_keys. induction events as [|[token event] events IH]; [done|].
  cbn [map map_result fst snd]. rewrite StrFacts.to_int_of_int.
  cbn [mbind result_bind]. by rewrite IH.
Qed.

Lemma index_add_get c idx token event :
  default [] (dict_get c (index_add idx token event))
  = default [] (dict_get c idx)
    ++ (if decide (event_type event = c) then [token] else []).
Proof.
  unfold index_add.
  destruct (dict_get (event_type event) idx) as [l|] eqn:Hl;
    rewrite dict_get_set; case_decide as Hc.
  - subst c. by rewrite Hl.
  - by rewrite app_nil_r.
  - subst c. by rewrite Hl.
  - by rewrite app_nil_r.
Qed.

Lemma index_fold_get c events : forall idx,
  default [] (dict_get c (fold_left (fun idx te => index_add idx te.1 te.2)
                                    events idx))
  = default [] (dict_get c idx) ++ typed_tokens c events.
Proof.
  induction events as [|[token event] events IH]; intros idx; cbn [fold_left].
  - by rewrite app_nil_r.
  - rewrite IH, index_add_get. unfold typed_tokens, dict. rewrite filter_cons.
    cbn [fst snd]. case_decide; [|by rewrite app_nil_r].
    by rewrite <- app_assoc.
Qed.

(** The rebuilt index lists, for a category, the tokens whose descriptor has
    it, in the order of [token_to_event]. *)
Lemma tokens_of_type_rebuilt v c :
  tokens_of_type (update_token_types_indexes v) c
  = typed_tokens c (_token_to_event v).
Proof.
  unfold tokens_of_type, update_token_types_indexes.
  cbn [_token_types_indexes]. by rewrite index_fold_get.
Qed.

Lemma vocab_bijective_spec v :
  vocab_bijective v = true <->
  NoDup (dict_keys (_token_to_event v))
  /\ NoDup (map snd (_token_to_event v))
  /\ _event_to_token v = map (fun te => (te.2, te.1)) (_token_to_event v).
Proof.
  unfold vocab_bijective. rewrite !andb_true_iff, !bool_decide_eq_true. tauto.
Qed.

Lemma load_token_to_event_saved self0 v :
  vocab_bijective v = true ->
  load_token_to_event self0
    (map (fun te => (Str.of_int te.1, te.2)) (_token_to_event v))
  = ({| has_bpe :=
          bool_decide (0 < length (typed_tokens "BPE" (_token_to_event v)));
        vocab := update_token_types_indexes v;
        bpe_successions := bpe_successions self0;
        tokens_types_graph := tokens_types_graph self0 |}, Ok tt).
Proof.
  intros (Hkeys & Hvals & Hett)%vocab_bijective_spec.
  unfold load_token_to_event. rewrite int_keys_saved.
  rewrite tokens_of_type_rebuilt. cbn [_token_to_event].
  rewrite (dict_of_items_nodup (_token_to_event v)) by done.
  rewrite (dict_of_items_nodup (map _ (_token_to_event v)))
    by (rewrite map_map; cbn [fst]; done).
  rewrite <- Hett. done.
Qed.

Lemma of_int_lacks_underscore z : Str.lacks "_" (Str.of_int z) = true.
Proof.
  destruct z as [|p|p]; [done|by apply StrFacts.of_int_lacks|].
  unfold Str.of_int. cbn [Z.to_int NilZero.string_of_int Str.lacks].
  pose proof (StrFacts.uint_digits (Pos.to_uint p)) as Hdigits.
  assert (Str.lacks "_" (NilZero.string_of_uint (Pos.to_uint p)) = true) as ->.
  { destruct (Pos.to_uint p) eqn:Hp; [done|..];
      by apply (StrFacts.all_chars_lacks Str.is_digit). }
  done.
Qed.

Lemma read_any_beat_range k1 k2 :
  map_result Str.to_int
             (Str.split "_" (Str.of_int k1 ++ "_" ++ Str.of_int k2)%string)
  = Ok [k1; k2].
Proof.
  change ("_" ++ ?s)%string with (String "_" s).
  rewrite StrFacts.split_app_sep by apply of_int_lacks_underscore.
  rewrite StrFacts.split_lacks by apply of_int_lacks_underscore.
  cbn [map_result]. by rewrite !StrFacts.to_int_of_int.
Qed.

(** The beat resolutions that [save_params] wrote are read without error. *)
Lemma load_saved_beat_res {V} (beat_res : dict (Z * Z) V) :
  is_ok (load_beat_res (save_beat_res beat_res)) = true.
Proof.
  unfold load_beat_res, save_beat_res.
  destruct (map_result_total
              (fun kv : string * V =>
                 beat_range ← map_result Str.to_int (Str.split "_" kv.1);
                 Ok (beat_range, kv.2))
              (dict_of_items
                 (map (fun kv : Z * Z * V =>
                         (Str.of_int kv.1.1 ++ "_" ++ Str.of_int kv.1.2,
                          kv.2)%string) beat_res))) as [r ->]; [|done].
  intros [key v] Hin. apply dict_of_items_elem in Hin.
  apply list_elem_of_fmap in Hin as ([[k1 k2] v'] & [= -> ->] & _).
  cbn [fst snd]. rewrite read_any_beat_range. by eexists.
Qed.

Lemma descriptors_saved (events : dict Z string) :
  descriptors (map (fun te => (Str.of_int te.1, JStr te.2)) events)
  = Some (map (fun te => (Str.of_int te.1, te.2)) events).
Proof.
  unfold descriptors. induction events as [|[token event] events IH]; [done|].
  cbn [map mapM fst snd]. rewrite IH. done.
Qed.

(** What [load_params] does with the dictionary that [save_params] wrote. *)
Lemma load_params_saved self0 self params :
  load_params self0 (save_params self params)
  = Some (load_token_to_event self0
            (map (fun te => (Str.of_int te.1, te.2))
                 (_token_to_event (vocab self)))).
Proof.
  unfold load_params, save_params.
  cbn [dict_get]. rewrite decide_True by done.
  change (range_args (JList [JInt (pitch_range params).1;
                             JInt (pitch_range params).2]))
    with (Ok ((pitch_range params).1, (pitch_range params).2, 1%Z)).
  set (entry := ("token_to_event", JDict _)). cbv iota beta.
  match goal with
  | |- load_items _ (?e1 :: ?e2 :: ?e3 :: ?e4 :: ?e5 :: ?e6 :: ?e7 :: [entry])
       = _ =>
      change (load_items self0 ([e1; e2; e3; e4; e5; e6; e7] ++ [entry])
              = Some (load_token_to_event self0
                        (map (fun te => (Str.of_int te.1, te.2))
                             (_token_to_event (vocab self)))))
  end.
  rewrite load_items_skip.
  - subst entry. cbn [load_items].
    unfold load_entry. rewrite !decide_False, decide_True by done.
    unfold load_vocabulary. rewrite descriptors_saved.
    by destruct (load_token_to_event _ _) as [self1 [[]| |]].
  - cbn [forallb]. rewrite !andb_true_iff. split_and!; try reflexivity.
    unfold configuration. cbn [fst snd].
    rewrite decide_False, decide_True by done. apply load_saved_beat_res.
Qed.

(** X15: loading what [save_params] wrote restores the vocabulary. For a
    vocabulary whose two dictionaries are inverse bijections, [load_params]
    on the dictionary written by [save_params] succeeds, leaves the same
    two dictionaries with the category index rebuilt, sets [has_bpe] exactly
    when some descriptor has type BPE, and touches neither the merge table
    nor the graph of the tokenizer it loads into. *)
Theorem load_saved_params self0 self params :
  vocab_bijective (vocab self) = true ->
  load_params self0 (save_params self params)
  = Some ({| has_bpe :=
               bool_decide (0 < length (typed_tokens "BPE"
                                          (_token_to_event (vocab self))));
             vocab := update_token_types_indexes (vocab self);
             bpe_successions := bpe_successions self0;
             tokens_types_graph := tokens_types_graph self0 |}, Ok tt).
Proof.
  intros Hbij. by rewrite load_params_saved, load_token_to_event_saved.
Qed.

Lemma load_saved_params_witness :
  vocab_bijective (vocab Scenario.learned) = true
  /\ load_params Corrupt.blank
       (save_params Scenario.learned
          {| pitch_range := (21, 109)%Z;
             beat_res := [((0, 4), JInt 8); ((4, 12), JInt 4)]%Z;
             nb_velocities := 32;
             additional_tokens := [("Chord", JBool false)];
             _sos_eos := false; _mask := false; base_name := "REMI" |})
     = Some ({| has_bpe :=
                  bool_decide
                    (0 < length (typed_tokens "BPE"
                                   (_token_to_event (vocab Scenario.learned))));
                vocab := update_token_types_indexes (vocab Scenario.learned);
                bpe_successions := bpe_successions Corrupt.blank;
                tokens_types_graph := tokens_types_graph Corrupt.blank |},
             Ok tt).
Proof.
  split; [vm_compute; reflexivity|].
  apply (load_saved_params Corrupt.blank Scenario.learned).
  vm_compute; reflexivity.
Defined.

Lemma typed_tokens_elem c (events : dict Z string) token :
  token ∈ typed_tokens c events <->
  exists event, (token, event) ∈ events /\ event_type event = c.
Proof.
  unfold typed_tokens. rewrite list_elem_of_fmap. split.
  - intros ([token' event] & -> & [Hty Hin]%list_elem_of_filter). by exists event.
  - intros (event & Hin & Hty). exists (token, event). split; [done|].
    by apply list_elem_of_filter.
Qed.

Lemma typed_tokens_some c (events : dict Z string) :
  0 < length (typed_tokens c events) <->
  exists token event, (token, event) ∈ events /\ event_type event = c.
Proof.
  split.
  - destruct (typed_tokens c events) as [|token l] eqn:Hl; [simpl; lia|].
    intros _. exists token. apply typed_tokens_elem. rewrite Hl. left.
  - intros (token & Hex). apply typed_tokens_elem in Hex.
    destruct (typed_tokens c events); [by inversion Hex|simpl; lia].
Qed.








(** ** A learned tokenizer, saved and built again *)

Lemma index_exact_spec v :
  index_exact v = true <->
  _token_types_indexes v
  = fold_left (fun idx te => index_add idx te.1 te.2) (_token_to_event v) [].
Proof. unfold index_exact. by rewrite bool_decide_eq_true. Qed.

Lemma add_event_bijective v event v' :
  vocab_bijective v = true -> add_event v event = Ok v' ->
  vocab_bijective v' = true.
Proof.
  intros (Hkeys & Hvals & Hett)%vocab_bijective_spec
         (Hnone & Htte & Hett' & _)%add_event_ok.
  apply vocab_bijective_spec. rewrite Htte, Hett'. split_and!.
  - unfold dict_keys. rewrite map_app. apply NoDup_app. split_and!; [done| |].
    + intros token Hin [->|Hnil]%elem_of_cons; [|by inversion Hnil].
      by apply (proj1 (dict_get_None _ _) (next_token_fresh v)).
    + apply NoDup_singleton.
  - rewrite map_app. apply NoDup_app. split_and!; [done| |].
    + intros ev Hin [->|Hnil]%elem_of_cons; [|by inversion Hnil].
      apply (proj1 (dict_get_None _ _) Hnone).
      unfold dict_keys. by rewrite Hett, map_map.
    + apply NoDup_singleton.
  - by rewrite map_app, Hett.
Qed.

Lemma add_event_index_exact v event v' :
  index_exact v = true -> add_event v event = Ok v' -> index_exact v' = true.
Proof.
  intros Hidx%index_exact_spec (_ & Htte & _ & Hidx')%add_event_ok.
  apply index_exact_spec. by rewrite Hidx', Htte, fold_left_app, <- Hidx.
Qed.

Lemma bpe_iteration_bijective v samples :
  vocab_bijective v = true -> index_exact v = true ->
  vocab_bijective (bpe_iteration v samples).1 = true
  /\ index_exact (bpe_iteration v samples).1 = true.
Proof.
  intros Hbij Hidx.
  destruct (bpe_iteration_cases v samples)
    as [[-> _]|(p & d & v1 & _ & _ & Hadd & ->)]; [done|].
  split; [by eapply add_event_bijective|by eapply add_event_index_exact].
Qed.

Lemma bpe_loop_bijective vocab_size fuel : forall v samples,
  vocab_bijective v = true -> index_exact v = true ->
  vocab_bijective (bpe_loop fuel vocab_size v samples).1 = true
  /\ index_exact (bpe_loop fuel vocab_size v samples).1 = true.
Proof.
  induction fuel as [|fuel IH]; intros v samples Hbij Hidx; [done|].
  cbn [bpe_loop]. case_decide; [|done].
  destruct (bpe_iteration_bijective v samples Hbij Hidx) as [Hbij1 Hidx1].
  destruct (bpe_iteration v samples) as [v1 [samples1| |]]; [|done..].
  by apply IH.
Qed.

Lemma set_successions_rebuilt v :
  index_exact v = true ->
  set_bpe_tokens_successions (update_token_types_indexes v)
  = set_bpe_tokens_successions v.
Proof.
  intros Hidx%index_exact_spec. unfold set_bpe_tokens_successions, tokens_of_type.
  cbn [update_token_types_indexes _token_types_indexes _token_to_event].
  by rewrite <- Hidx.
Qed.

(** X17: a tokenizer that [bpe] returned comes back whole from its
    parameter file. Starting from a vocabulary whose two dictionaries are
    inverse bijections and whose category index is exact, when [bpe]
    returns normally, saving the tokenizer with [save_params], loading the
    file into a tokenizer of the same class ([load_params], as
    [super().__init__] does) and finishing [__init__] gives the very
    tokenizer [bpe] left: the same vocabulary, the same merge table,
    [has_bpe] set and the same graph. *)
Theorem reload_learned self samples vocab_size self' samples' self0 params :
  vocab_bijective (vocab self) = true -> index_exact (vocab self) = true ->
  bpe self samples vocab_size = (self', Ok samples') ->
  tokens_types_graph self0 = tokens_types_graph self ->
  load_params self0 (save_params self' params)
  = Some (loaded self0 (save_params self' params), Ok tt)
  /\ __init__ (loaded self0 (save_params self' params)) = (self', Ok tt).
Proof.
  intros Hbij Hidx Hbpe Hgraph. revert Hbpe. unfold bpe.
  case_decide as Hsize; [|done]. set (fuel := S _).
  destruct (bpe_loop_bijective vocab_size fuel (vocab self) samples Hbij Hidx)
    as [Hbij' Hidx'].
  destruct (bpe_loop_grows vocab_size fuel (vocab self) samples)
    as (added & Htte & Hett & Hty).
  destruct (bpe_loop fuel vocab_size (vocab self) samples)
    as [v [samples1| |]] eqn:Hloop; [|done..].
  cbn [fst] in *.
  pose proof (bpe_loop_target vocab_size fuel (vocab self) samples v samples1
                ltac:(lia) Hloop) as Htarget.
  destruct (set_bpe_tokens_successions v) as [succs| |] eqn:Hsuccs; [|done..].
  case_decide; [done|]. intros [= <- _].
  unfold loaded. rewrite load_params_saved, load_token_to_event_saved by done.
  split; [done|]. cbn [vocab _token_to_event].
  unfold __init__. cbn [has_bpe vocab tokens_types_graph].
  rewrite bool_decide_eq_true_2.
  - rewrite (set_successions_rebuilt (update_token_types_indexes v))
      by (by apply index_exact_spec).
    rewrite (set_successions_rebuilt v), Hsuccs, Hgraph by done. done.
  - apply typed_tokens_some. cbn [update_token_types_indexes _token_to_event].
    destruct added as [|[token event] added].
    { exfalso. unfold vocab_len in *. rewrite Hett in Htarget.
      simpl in Htarget. rewrite app_nil_r in Htarget. lia. }
    exists token, event. rewrite Htte. split.
    + apply elem_of_app. right. left.
    + by inversion Hty.
Qed.

Lemma reload_learned_witness :
  vocab_bijective (vocab Scenario.tokenizer) = true
  /\ index_exact (vocab Scenario.tokenizer) = true
  /\ bpe Scenario.tokenizer Scenario.corpus 5
     = (Scenario.learned, Ok [[[4; 4; 2]]]%Z)
  /\ tokens_types_graph Scenario.tokenizer = tokens_types_graph Scenario.tokenizer
  /\ load_params Scenario.tokenizer
       (save_params Scenario.learned
          {| pitch_range := (21, 109)%Z;
             beat_res := [((0, 4), JInt 8); ((4, 12), JInt 4)]%Z;
             nb_velocities := 32;
             additional_tokens := [("Chord", JBool false)];
             _sos_eos := false; _mask := false; base_name := "REMI" |})
     = Some (loaded Scenario.tokenizer
               (save_params Scenario.learned
                  {| pitch_range := (21, 109)%Z;
                     beat_res := [((0, 4), JInt 8); ((4, 12), JInt 4)]%Z;
                     nb_velocities := 32;
                     additional_tokens := [("Chord", JBool false)];
                     _sos_eos := false; _mask := false;
                     base_name := "REMI" |}), Ok tt)
  /\ __init__ (loaded Scenario.tokenizer
                 (save_params Scenario.learned
                    {| pitch_range := (21, 109)%Z;
                       beat_res := [((0, 4), JInt 8); ((4, 12), JInt 4)]%Z;
                       nb_velocities := 32;
                       additional_tokens := [("Chord", JBool false)];
                       _sos_eos := false; _mask := false;
                       base_name := "REMI" |}))
     = (Scenario.learned, Ok tt).
Proof.
  split; [vm_compute; reflexivity|]. split; [vm_compute; reflexivity|].
  split; [vm_compute; reflexivity|]. split; [vm_compute; reflexivity|].
  apply (reload_learned Scenario.tokenizer Scenario.corpus 5 Scenario.learned
           [[[4; 4; 2]]]%Z Scenario.tokenizer);
    vm_compute; reflexivity.
Defined.

(** ** The graph of token types *)

Lemma dict_get_map_values {K V} `{EqDecision K} (f : V -> V) (g : dict K V) key :
  dict_get key (map (fun kv => (kv.1, f kv.2)) g) = f <$> dict_get key g.
Proof.
  induction g as [|[k v] g IH]; [done|]. cbn [map dict_get fst snd].
  by case_decide.
Qed.

(** X18: [add_bpe_to_tokens_type_graph] makes BPE a successor of every
    type of the graph and gives BPE the types the graph had as successors
    (each list of the graph being an object of its own); it adds no other
    key. BPE is thus among its own successors only if the graph already had
    the key BPE. *)
Theorem add_bpe_to_tokens_type_graph_lookup (g : dict string (list string)) :
  dict_get "BPE" (add_bpe_to_tokens_type_graph g) = Some (dict_keys g)
  /\ forall key, key <> "BPE" ->
       dict_get key (add_bpe_to_tokens_type_graph g)
       = (fun successors => successors ++ ["BPE"]) <$> dict_get key g.
Proof.
  unfold add_bpe_to_tokens_type_graph. split.
  - rewrite dict_get_set, decide_True by done. f_equal.
    unfold dict_keys. rewrite map_map. done.
  - intros key Hkey. rewrite dict_get_set, decide_False by done.
    apply (dict_get_map_values (fun successors => successors ++ ["BPE"])).
Qed.

(** ** The hooks, and the dataset *)

Lemma map_result_Forall2 {A B} (f : A -> result B) (Q : A -> B -> Prop) l :
  Forall (fun x => exists y, f x = Ok y /\ Q x y) l ->
  exists r, map_result f l = Ok r /\ Forall2 Q l r.
Proof.
  induction 1 as [|x l (y & Hy & HQ) _ (r & Hr & HF)].
  - exists []. by split.
  - exists (y :: r). cbn [map_result]. rewrite Hy, Hr. split; [done|].
    by constructor.
Qed.

(** What [apply_bpe] returns for a sequence of plain tokens decomposes into
    that sequence. *)
Lemma apply_decompose_plain self tokens :
  codec_ok self = true ->
  Forall (fun token => is_plain (vocab self) token = true) tokens ->
  exists tokens',
    apply_bpe self tokens = Ok tokens'
    /\ forall fuel, length tokens < fuel ->
         decompose_bpe fuel self tokens' = Ok tokens.
Proof.
  intros Hok Hplain.
  assert (Forall (fun token => decodable (vocab self) token = true) tokens)
    as Hdec.
  { eapply Forall_impl; [exact Hplain|]. intros token. apply plain_decodable. }
  destruct (apply_bpe_spec self tokens (codec_ok_merges_not_nil _ Hok))
    as (tokens' & Happly & Hrtc).
  destruct (merge_steps_flatten self tokens tokens' tokens Hok Hrtc Hdec
              (to_replace_bis_plain _ _ Hplain)) as [Hdec' Hd'].
  destruct (decompose_bpe_flatten self tokens' Hdec') as (d & Hd & _ & Hrun).
  rewrite Hd' in Hd. injection Hd as <-.
  exists tokens'. split; [unfold apply_bpe; by rewrite Happly|].
  intros fuel Hfuel. unfold decompose_bpe. by rewrite Hrun.
Qed.

(** X19: the two hooks of the wrapper undo each other. In a well-formed
    codec, [midi_to_tokens] on the tracks of plain tokens that the tokenizer
    underneath produced returns one track for each; and on such a track,
    [tokens_to_events] and [token_types_errors] hand to the method of the
    tokenizer underneath exactly the track that tokenizer had produced,
    whether [has_bpe] is set or not. *)
Theorem hooks_round_trip self tracks :
  codec_ok self = true ->
  forallb (forallb (is_plain (vocab self))) tracks = true ->
  exists tracks',
    midi_to_tokens self tracks = Ok tracks'
    /\ Forall2
         (fun track track' =>
            forall fuel, length track < fuel ->
              (forall (A : Type) (super_tokens_to_events : list Z -> A),
                 tokens_to_events fuel self super_tokens_to_events track'
                 = Ok (super_tokens_to_events track))
              /\ (forall (A : Type)
                         (super_token_types_errors : list Z -> bool -> A)
                         consider_pad,
                    token_types_errors fuel self super_token_types_errors
                                       track' consider_pad
                    = Ok (super_token_types_errors track consider_pad)))
         tracks tracks'.
Proof.
  intros Hok Hplain%forallb_Forall. unfold midi_to_tokens.
  destruct (has_bpe self) eqn:Hflag.
  - apply map_result_Forall2. eapply Forall_impl; [exact Hplain|].
    intros track Htrack%forallb_Forall.
    destruct (apply_decompose_plain self track Hok Htrack)
      as (track' & Happly & Hback).
    exists track'. split; [done|]. intros fuel Hfuel.
    unfold tokens_to_events, token_types_errors.
    by rewrite (Hback fuel Hfuel).
  - exists tracks. split; [done|].
    apply Forall2_same_length_lookup_2; [done|].
    intros i track track2 Ht Ht2. rewrite Ht in Ht2. injection Ht2 as <-.
    pose proof (proj1 (Forall_lookup _ _) Hplain i track Ht) as Htrack.
    apply forallb_Forall in Htrack.
    destruct (apply_decompose_plain self track Hok Htrack)
      as (track' & Happly & Hback).
    unfold apply_bpe, apply_bpe_run in Happly. rewrite Hflag in Happly.
    injection Happly as <-. intros fuel Hfuel.
    unfold tokens_to_events, token_types_errors.
    by rewrite (Hback fuel Hfuel).
Qed.

Lemma hooks_round_trip_witness :
  codec_ok Scenario.learned = true
  /\ forallb (forallb (is_plain (vocab Scenario.learned)))
             [[0; 1; 0; 1; 2]; [3; 0; 1]]%Z = true
  /\ exists tracks',
       midi_to_tokens Scenario.learned [[0; 1; 0; 1; 2]; [3; 0; 1]]%Z
       = Ok tracks'
       /\ Forall2
            (fun track track' =>
               forall fuel, length track < fuel ->
                 (forall (A : Type) (super_tokens_to_events : list Z -> A),
                    tokens_to_events fuel Scenario.learned
                                     super_tokens_to_events track'
                    = Ok (super_tokens_to_events track))
                 /\ (forall (A : Type)
                            (super_token_types_errors : list Z -> bool -> A)
                            consider_pad,
                       token_types_errors fuel Scenario.learned
                                          super_token_types_errors
                                          track' consider_pad
                       = Ok (super_token_types_errors track consider_pad)))
            [[0; 1; 0; 1; 2]; [3; 0; 1]]%Z tracks'.
Proof.
  split_and!; [reflexivity..|].
  apply (hooks_round_trip Scenario.learned [[0; 1; 0; 1; 2]; [3; 0; 1]]%Z);
    reflexivity.
Defined.

Lemma apply_bpe_to_files_ok self (Q : list Z -> list Z -> Prop) samples :
  Forall (Forall (fun track => exists track',
                    apply_bpe self track = Ok track' /\ Q track track'))
         samples ->
  exists saved,
    apply_bpe_to_files self samples = (saved, Ok tt)
    /\ Forall2 (Forall2 Q) samples saved.
Proof.
  induction 1 as [|sample samples Hsample _ (saved & Hsaved & HF)].
  - exists []. by split.
  - destruct (map_result_Forall2 _ Q sample Hsample) as (sample' & Hs & HQ).
    exists (sample' :: saved). cbn [apply_bpe_to_files].
    rewrite Hs, Hsaved. split; [done|]. by constructor.
Qed.

(** X20: [apply_bpe_to_dataset] saves nothing when [has_bpe] is not set.
    When it is set, in a well-formed codec and on token files of plain
    tokens, it saves one file per file of the dataset, with one track per
    track, and every track saved decomposes into the track it was made
    from. *)
Theorem apply_bpe_to_dataset_saves self samples :
  codec_ok self = true ->
  forallb (forallb (forallb (is_plain (vocab self)))) samples = true ->
  if has_bpe self then
    exists saved,
      apply_bpe_to_dataset self samples = (saved, Ok tt)
      /\ Forall2 (Forall2 (fun track track' =>
                             forall fuel, length track < fuel ->
                               decompose_bpe fuel self track' = Ok track))
                 samples saved
  else apply_bpe_to_dataset self samples = ([], Ok tt).
Proof.
  intros Hok Hplain%forallb_Forall. unfold apply_bpe_to_dataset.
  destruct (has_bpe self); [|done]. cbn [negb].
  apply apply_bpe_to_files_ok. eapply Forall_impl; [exact Hplain|].
  intros sample Hsample%forallb_Forall. eapply Forall_impl; [exact Hsample|].
  intros track Htrack%forallb_Forall.
  by apply apply_decompose_plain.
Qed.

Lemma apply_bpe_to_dataset_saves_witness :
  codec_ok Scenario.learned = true
  /\ forallb (forallb (forallb (is_plain (vocab Scenario.learned))))
             [[[0; 1; 0; 1; 2]]; [[3; 0; 1]; [2]]]%Z = true
  /\ exists saved,
       apply_bpe_to_dataset Scenario.learned
                            [[[0; 1; 0; 1; 2]]; [[3; 0; 1]; [2]]]%Z
       = (saved, Ok tt)
       /\ Forall2 (Forall2 (fun track track' =>
                              forall fuel, length track < fuel ->
                                decompose_bpe fuel Scenario.learned track'
                                = Ok track))
                  [[[0; 1; 0; 1; 2]]; [[3; 0; 1]; [2]]]%Z saved.
Proof.
  split_and!; [reflexivity..|].
  apply (apply_bpe_to_dataset_saves Scenario.learned
           [[[0; 1; 0; 1; 2]]; [[3; 0; 1]; [2]]]%Z); reflexivity.
Defined.

(** ** Applying what was learned, on the training corpus *)

Lemma apply_scan_merge a b new :
  forall fuel pre track, length track < fuel ->
    apply_scan fuel new [a; b] (length pre) (pre ++ track)
    = (pre ++ merge_pairs a b new track, Ok tt).
Proof.
  induction fuel as [|fuel IH]; intros pre track Hfuel; [lia|].
  cbn [apply_scan length]. rewrite length_app.
  destruct track as [|x [|y rest]].
  - rewrite decide_False by (simpl; lia). done.
  - rewrite decide_False by (simpl; lia). done.
  - rewrite decide_True by (simpl; lia). rewrite py_slice_pair.
    rewrite merge_pairs_cons2. simpl in Hfuel. case_decide as Heq.
    + injection Heq as -> ->. rewrite decide_True by done.
      rewrite py_setitem_middle. cbn [Nat.sub del_times].
      replace (length pre + 1) with (length (pre ++ [new]))
        by (rewrite length_app; simpl; lia).
      replace (pre ++ new :: b :: rest) with ((pre ++ [new]) ++ b :: rest)
        by (by rewrite <- app_assoc).
      rewrite py_del_middle.
      rewrite IH by lia. by rewrite <- app_assoc.
    + rewrite decide_False by (intros [-> ->]; done).
      replace (length pre + 1) with (length (pre ++ [x]))
        by (rewrite length_app; simpl; lia).
      replace (pre ++ x :: y :: rest) with ((pre ++ [x]) ++ y :: rest)
        by (by rewrite <- app_assoc).
      rewrite IH by (simpl; lia). by rewrite <- app_assoc.
Qed.

Lemma apply_round_app successions1 successions2 : forall tokens tokens1,
  apply_round successions1 tokens = (tokens1, Ok tt) ->
  apply_round (successions1 ++ successions2) tokens
  = apply_round successions2 tokens1.
Proof.
  induction successions1 as [|[tok succ] successions1 IH];
    intros tokens tokens1; cbn [apply_round app].
  - by intros [= <-].
  - destruct (apply_scan _ tok succ 0 tokens) as [tokens' [[]| |]]; [|done..].
    apply IH.
Qed.

Lemma apply_round_pair a b new track :
  apply_round [(new, [a; b])] track = (merge_pairs a b new track, Ok tt).
Proof.
  cbn [apply_round].
  pose proof (apply_scan_merge a b new (S (S (length track))) [] track
                ltac:(lia)) as Hscan.
  cbn [length app] in Hscan. by rewrite Hscan.
Qed.

Lemma merge_pairs_absent a b new : forall track,
  stands a b track = false -> merge_pairs a b new track = track.
Proof.
  induction track as [| |x y l _ IHyl] using pair_ind; [done..|].
  rewrite stands_cons2, merge_pairs_cons2.
  intros [Hxy%bool_decide_eq_false Hst]%orb_false_elim.
  rewrite decide_False by done. by rewrite (IHyl Hst).
Qed.

Lemma apply_round_absent successions track :
  Forall (fun ts => exists a b, ts.2 = [a; b] /\ stands a b track = false)
         successions ->
  apply_round successions track = (track, Ok tt).
Proof.
  induction 1 as [|[tok succ] successions (a & b & Hsucc & Hst) _ IH]; [done|].
  cbn [snd] in Hsucc. subst succ.
  change ((tok, [a; b]) :: successions) with ([(tok, [a; b])] ++ successions).
  rewrite (apply_round_app _ _ track (merge_pairs a b tok track))
    by apply apply_round_pair.
  by rewrite (merge_pairs_absent _ _ _ _ Hst).
Qed.

Lemma map_result_app {A B} (f : A -> result B) l1 l2 r1 r2 :
  map_result f l1 = Ok r1 -> map_result f l2 = Ok r2 ->
  map_result f (l1 ++ l2) = Ok (r1 ++ r2).
Proof.
  revert r1. induction l1 as [|x l1 IH]; intros r1.
  - by intros [= <-].
  - intros (y & ys & Hy & Hys & ->)%map_result_cons_ok H2.
    cbn [app map_result]. by rewrite Hy, (IH _ Hys H2).
Qed.

Lemma map_result_ext_ok {A B} (f g : A -> result B) l r :
  (forall x y, f x = Ok y -> g x = Ok y) ->
  map_result f l = Ok r -> map_result g l = Ok r.
Proof.
  intros Hfg. revert r. induction l as [|x l IH]; intros r; [done|].
  intros (y & ys & Hy & Hys & ->)%map_result_cons_ok.
  cbn [map_result]. by rewrite (Hfg _ _ Hy), (IH _ Hys).
Qed.

(** Registering a merge adds one line at the end of the merge table. *)
Lemma register_succession v a b d v' successions :
  vocab_ok v = true -> to_replace_bis v [a; b] = Ok d ->
  add_event v (bpe_event (to_replace_str [a; b] d)) = Ok v' ->
  set_bpe_tokens_successions v = Ok successions ->
  set_bpe_tokens_successions v' = Ok (successions ++ [(next_token v, [a; b])]).
Proof.
  intros (Hnn & _ & Hflat & _)%vocab_ok_spec Hd Hadd.
  destruct (to_replace_bis_flat v Hnn Hflat _ _ Hd) as (Hpnn & Hprim & Hdne).
  specialize (Hdne ltac:(done)).
  assert (Forall (fun z => (0 <= z)%Z) d) as Hdnn.
  { eapply Forall_impl; [exact Hprim|]. by apply primitive_nonneg. }
  apply add_event_ok in Hadd as (_ & Htte & _ & Hidx).
  pose proof (next_token_fresh v) as Hfresh.
  unfold set_bpe_tokens_successions.
  destruct (map_result _ (tokens_of_type v "BPE")) as [items| |] eqn:Hitems;
    [|done..].
  cbn [fmap result_fmap]. intros [= <-].
  assert (tokens_of_type v' "BPE" = tokens_of_type v "BPE" ++ [next_token v])
    as ->.
  { unfold tokens_of_type. rewrite Hidx, index_add_get.
    by rewrite decide_True by apply event_type_bpe_any. }
  erewrite map_result_app; cycle 1.
  - eapply map_result_ext_ok; [|exact Hitems]. intros tok [tok' succ].
    unfold dict_getitem.
    destruct (dict_get tok (_token_to_event v)) as [event|] eqn:Hget; [|done].
    by rewrite (dict_get_extended _ _ _ _ Htte _ _ Hget).
  - cbn [map_result]. unfold dict_getitem.
    rewrite Htte, dict_get_app, Hfresh. cbn [dict_get].
    rewrite decide_True by done. cbn [mbind result_bind].
    rewrite succession_bpe_event by done. done.
  - cbn [fmap result_fmap]. f_equal. unfold dict_of_items.
    rewrite fold_left_app. cbn [fold_left fst snd].
    apply dict_set_fresh. apply dict_get_None.
    intros ([tok succ] & Htok & Hin)%list_elem_of_fmap. cbn [fst] in Htok.
    subst tok.
    apply (dict_of_items_elem (next_token v) succ items) in Hin.
    destruct (map_result_elem _ _ _ _ Hitems Hin) as (tok & _ & Hf).
    unfold dict_getitem in Hf.
    destruct (dict_get tok (_token_to_event v)) as [event|] eqn:Hget; [|done].
    cbn [mbind result_bind] in Hf.
    destruct (succession_of_event event); [|done..].
    cbn [mbind result_bind] in Hf. injection Hf as -> _. congruence.
Qed.

Lemma bpe_iteration_parity v samples v' samples' successions original :
  learnable v samples = true ->
  set_bpe_tokens_successions v = Ok successions ->
  reproduces successions original samples ->
  bpe_iteration v samples = (v', Ok samples') ->
  learnable v' samples' = true
  /\ exists successions',
       set_bpe_tokens_successions v' = Ok successions'
       /\ reproduces successions' original samples'.
Proof.
  intros Hlearn Hsuccs Hrep Hit.
  destruct (bpe_iteration_inv _ _ _ _ Hit)
    as (a & b & d & Hp & Hd & Hadd & _ & _ & ->).
  pose proof Hlearn as (Hok & _)%learnable_spec.
  split.
  - destruct (winning_pair _ _ Hp) as [_ (sample & track & pre & post & Hs & Ht & ->)].
    destruct (bpe_iteration_succeeds v samples Hlearn)
      as (a' & b' & v'' & Heq & _ & Hlearn').
    { exists sample, (pre ++ [a; b] ++ post). split_and!; [done..|].
      rewrite !length_app. simpl. lia. }
    rewrite Hit in Heq. injection Heq as -> ->. done.
  - exists (successions ++ [(next_token v, [a; b])]).
    split; [by eapply register_succession|].
    unfold reproduces, merge_samples. apply Forall2_fmap_r.
    eapply Forall2_impl; [exact Hrep|]. intros sample0 sample Hs. cbn beta.
    apply Forall2_fmap_r. eapply Forall2_impl; [exact Hs|].
    intros track0 track Ht. cbn beta.
    rewrite (apply_round_app _ _ _ _ Ht). apply apply_round_pair.
Qed.

Lemma bpe_loop_parity vocab_size original fuel :
  forall v samples v' samples' successions,
    learnable v samples = true ->
    set_bpe_tokens_successions v = Ok successions ->
    reproduces successions original samples ->
    bpe_loop fuel vocab_size v samples = (v', Ok samples') ->
    learnable v' samples' = true
    /\ exists successions',
         set_bpe_tokens_successions v' = Ok successions'
         /\ reproduces successions' original samples'.
Proof.
  induction fuel as [|fuel IH];
    intros v samples v' samples' successions Hlearn Hsuccs Hrep; [done|].
  cbn [bpe_loop]. case_decide; [|intros [= <- <-]; eauto].
  destruct (bpe_iteration v samples) as [v1 [samples1| |]] eqn:Hit; [|done..].
  destruct (bpe_iteration_parity _ _ _ _ _ _ Hlearn Hsuccs Hrep Hit)
    as (Hlearn1 & successions1 & Hsuccs1 & Hrep1).
  by eapply IH.
Qed.

Lemma bpe_loop_preserves (P : Vocabulary -> Prop) vocab_size fuel :
  (forall v event v', P v -> add_event v event = Ok v' -> P v') ->
  forall v samples, P v -> P (bpe_loop fuel vocab_size v samples).1.
Proof.
  intros Hadd. induction fuel as [|fuel IH]; intros v samples Hv; [done|].
  cbn [bpe_loop]. case_decide; [|done].
  assert (P (bpe_iteration v samples).1) as Hv1.
  { destruct (bpe_iteration_cases v samples)
      as [[-> _]|(p & d & v1 & _ & _ & Hev & ->)]; [done|]. by eapply Hadd. }
  destruct (bpe_iteration v samples) as [v1 [samples1| |]]; [|done..].
  by apply IH.
Qed.

Lemma Forall2_impl_elem {A B} (P Q : A -> B -> Prop) l k :
  Forall2 P l k -> (forall x y, y ∈ k -> P x y -> Q x y) -> Forall2 Q l k.
Proof.
  induction 1 as [|x y l k HP _ IH]; intros HPQ; constructor.
  - apply HPQ; [left|done].
  - apply IH. intros x' y' Hin. apply HPQ. by right.
Qed.

Lemma stands_in_track a b samples sample track :
  stands_in [a; b] samples = false -> sample ∈ samples -> track ∈ sample ->
  stands a b track = false.
Proof.
  intros Hno Hs Ht. destruct (stands a b track) eqn:Hst; [|done].
  by rewrite (stands_in_intro _ _ _ _ _ Hs Ht Hst) in Hno.
Qed.

(** X21: what is learned applies as it was learned. From a learnable state
    (a well-formed vocabulary whose two dictionaries are inverse
    bijections, a corpus of tokens of the vocabulary) without merged tokens,
    when [bpe] returns normally, [apply_bpe] of the tokenizer it leaves
    turns every track of the original corpus into the track the learner
    made of it. *)
Theorem apply_bpe_reproduces_training self samples vocab_size self' samples' :
  learnable (vocab self) samples = true ->
  vocab_bijective (vocab self) = true ->
  tokens_of_type (vocab self) "BPE" = [] ->
  bpe self samples vocab_size = (self', Ok samples') ->
  Forall2 (Forall2 (fun track track' => apply_bpe self' track = Ok track'))
          samples samples'.
Proof.
  intros Hlearn Hbij Hnone. unfold bpe. case_decide; [|done].
  set (fuel := S _).
  assert (set_bpe_tokens_successions (vocab self) = Ok []) as Hsuccs0.
  { unfold set_bpe_tokens_successions. by rewrite Hnone. }
  assert (reproduces [] samples samples) as Hrep0.
  { unfold reproduces. apply Forall2_same_length_lookup_2; [done|].
    intros i sample sample2 Hs Hs2. rewrite Hs in Hs2. injection Hs2 as <-.
    apply Forall2_same_length_lookup_2; [done|].
    intros j track track2 Ht Ht2. rewrite Ht in Ht2. by injection Ht2 as <-. }
  pose proof (bpe_loop_preserves (fun v => vocab_bijective v = true)
                vocab_size fuel add_event_bijective (vocab self) samples Hbij)
    as Hbij'.
  destruct (bpe_loop fuel vocab_size (vocab self) samples)
    as [v [samples1| |]] eqn:Hloop; [|done..].
  cbn [fst] in Hbij'.
  destruct (bpe_loop_parity _ _ _ _ _ _ _ _ Hlearn Hsuccs0 Hrep0 Hloop)
    as (Hlearn' & successions & Hsuccs & Hrep).
  rewrite Hsuccs. case_decide; [done|]. intros [= <- <-].
  apply learnable_spec in Hlearn' as (Hok & Hidx & _ & _ & Habs).
  destruct (set_successions_ok v Hok Hidx) as (succs & Hsuccs' & Hentries).
  rewrite Hsuccs in Hsuccs'. injection Hsuccs' as <-.
  apply vocab_bijective_spec in Hbij' as (_ & _ & Hett).
  rewrite registered_absent_spec in Habs.
  (* no succession of the table stands in a track of the rewritten corpus *)
  assert (forall sample track, sample ∈ samples1 -> track ∈ sample ->
            apply_round successions track = (track, Ok tt)) as Hfixed.
  { intros sample track Hs Ht. apply apply_round_absent.
    apply Forall_forall. intros [tok succ] Hin.
    destruct (Hentries tok succ Hin) as (Hlen & event & Hget & Hty & Hsucc).
    destruct succ as [|a [|b [|]]]; try done. exists a, b. split; [done|].
    eapply stands_in_track; [|exact Hs|exact Ht].
    apply (Habs event tok); [|done..].
    rewrite Hett. apply list_elem_of_fmap. exists (tok, event).
    split; [done|]. by apply dict_get_elem. }
  assert (Forall (fun ts : Z * list Z => ts.2 <> []) successions) as Hne.
  { apply Forall_forall. intros [tok succ] Hin.
    destruct (Hentries tok succ Hin) as (Hlen & _). by destruct succ. }
  eapply Forall2_impl_elem; [exact Hrep|].
  intros sample sample' Hs' Hsample.
  eapply Forall2_impl_elem; [exact Hsample|].
  intros track track' Ht' Htrack. cbn beta in Htrack.
  specialize (Hfixed _ _ Hs' Ht').
  destruct (apply_round_spec successions track Hne) as (track2 & Hround & Hrtc).
  rewrite Htrack in Hround. injection Hround as <-.
  pose proof (merge_steps_length_le _ _ _ Hne Hrtc) as Hlen.
  unfold apply_bpe, apply_bpe_run. cbn [has_bpe bpe_successions negb].
  cbn [apply_rounds]. rewrite decide_True by lia. rewrite Htrack.
  cbn [apply_rounds]. case_decide as Hneq; [|done].
  rewrite Hfixed.
  destruct (length track) as [|n] eqn:Hn; [lia|].
  cbn [apply_rounds]. by rewrite decide_False by (intros ?; done).
Qed.

Lemma apply_bpe_reproduces_training_witness :
  learnable (vocab Scenario.tokenizer) Scenario.corpus = true
  /\ vocab_bijective (vocab Scenario.tokenizer) = true
  /\ tokens_of_type (vocab Scenario.tokenizer) "BPE" = []
  /\ bpe Scenario.tokenizer Scenario.corpus 5
     = (Scenario.learned, Ok [[[4; 4; 2]]]%Z)
  /\ Forall2 (Forall2 (fun track track' =>
                         apply_bpe Scenario.learned track = Ok track'))
             Scenario.corpus [[[4; 4; 2]]]%Z.
Proof.
  split_and!; [vm_compute; reflexivity..|].
  apply (apply_bpe_reproduces_training Scenario.tokenizer Scenario.corpus 5);
    vm_compute; reflexivity.
Defined.

(** ** Which pair wins a tie *)

Lemma dict_keys_set_exact {K V} `{EqDecision K} (k : K) (x : V) (d : dict K V) :
  dict_keys (dict_set k x d)
  = if decide (k ∈ dict_keys d) then dict_keys d else dict_keys d ++ [k].
Proof.
  induction d as [|[k0 x0] d IH]; [done|].
  cbn [dict_set]. destruct (decide (k0 = k)) as [->|Hk0].
  - rewrite decide_True by (by left). done.
  - unfold dict_keys in *. cbn [map fst]. rewrite IH.
    destruct (decide (k ∈ map fst d)) as [Hin|Hnot].
    + rewrite decide_True by (by right). done.
    + rewrite decide_False; [done|].
      intros [?|?]%elem_of_cons; [by subst|done].
Qed.

Lemma count_pair_keys_exact occurrences key :
  dict_keys (count_pair occurrences key)
  = if decide (key ∈ dict_keys occurrences) then dict_keys occurrences
    else dict_keys occurrences ++ [key].
Proof.
  unfold count_pair. destruct (dict_get key occurrences); apply dict_keys_set_exact.
Qed.

Lemma fold_left_concat {A B} (f : A -> B -> A) (ls : list (list B)) : forall a,
  fold_left f (concat ls) a = fold_left (fun a l => fold_left f l a) ls a.
Proof.
  induction ls as [|l ls IH]; intros a; [done|].
  cbn [concat fold_left]. by rewrite fold_left_app, IH.
Qed.

Lemma fold_left_fmap {A B C} (f : A -> C -> A) (g : B -> C) (l : list B) :
  forall a, fold_left f (map g l) a = fold_left (fun a x => f a (g x)) l a.
Proof. induction l as [|x l IH]; intros a; [done|]. apply IH. Qed.

Lemma fold_left_ext_fun {A B} (f g : A -> B -> A) (l : list B) :
  (forall a x, f a x = g a x) -> forall a, fold_left f l a = fold_left g l a.
Proof.
  intros Hfg. induction l as [|x l IH]; intros a; [done|].
  cbn [fold_left]. by rewrite Hfg, IH.
Qed.

Lemma count_occurrences_scanned samples :
  count_occurrences samples = fold_left count_pair (scanned_pairs samples) [].
Proof.
  unfold count_occurrences, scanned_pairs.
  rewrite fold_left_concat, fold_left_fmap.
  apply fold_left_ext_fun. intros occ sample.
  rewrite fold_left_concat, fold_left_fmap.
  apply fold_left_ext_fun. intros occ' track.
  unfold count_track. by rewrite fold_left_fmap.
Qed.

Lemma count_keys_first_seen pairs : forall occurrences,
  dict_keys (fold_left count_pair pairs occurrences)
  = fold_left (fun seen p => if decide (p ∈ seen) then seen else seen ++ [p])
              pairs (dict_keys occurrences).
Proof.
  induction pairs as [|p pairs IH]; intros occurrences; [done|].
  cbn [fold_left]. by rewrite IH, count_pair_keys_exact.
Qed.

Lemma py_max_key_first occurrences k :
  py_max_key occurrences = Ok k ->
  exists before after,
    dict_keys occurrences = before ++ k :: after
    /\ forall q, q ∈ before ->
         default 0 (dict_get q occurrences) < default 0 (dict_get k occurrences).
Proof.
  unfold py_max_key. destruct (dict_keys occurrences) as [|k0 ks]; [done|].
  intros [= <-]. set (tally x := default 0 (dict_get x occurrences)).
  set (step := fun best k' => if decide (tally best < tally k') then k' else best).
  assert (forall ks best before mid,
            (forall q, q ∈ before -> tally q < tally best) ->
            (forall q, q ∈ mid -> tally q <= tally best) ->
            exists before' after',
              before ++ best :: mid ++ ks
              = before' ++ fold_left step ks best :: after'
              /\ forall q, q ∈ before' ->
                   tally q < tally (fold_left step ks best)) as Hfold.
  { clear. induction ks as [|k' ks IH]; intros best before mid Hbefore Hmid.
    - exists before, mid. by rewrite app_nil_r.
    - cbn [fold_left]. unfold step at 2 4. case_decide as Hlt.
      + destruct (IH k' (before ++ best :: mid) []) as (b' & a' & Heq & Hb').
        * intros q [Hq|[->|Hq]%elem_of_cons]%elem_of_app.
          -- specialize (Hbefore q Hq). lia.
          -- done.
          -- specialize (Hmid q Hq). lia.
        * intros q Hq. inversion Hq.
        * exists b', a'. split; [|done]. rewrite <- Heq.
          by rewrite <- app_assoc.
      + destruct (IH best before (mid ++ [k'])) as (b' & a' & Heq & Hb').
        * done.
        * intros q [Hq| ->%list_elem_of_singleton]%elem_of_app; [by apply Hmid|lia].
        * exists b', a'. split; [|done]. rewrite <- Heq.
          by rewrite <- app_assoc. }
  destruct (Hfold ks k0 [] []) as (before & after & Heq & Hbefore).
  - intros q Hq. inversion Hq.
  - intros q Hq. inversion Hq.
  - exists before, after. by split.
Qed.

(** X22: ties are broken by the order of the corpus. The keys of the
    dictionary of counts are the pairs of the corpus in the order in which
    the scan first meets them (lines 68-74), and the pair that [max] returns
    (line 76) is the first of them that reaches the maximal count: every
    pair first met before it stands at strictly fewer positions. *)
Theorem ties_go_to_the_first_pair samples to_replace :
  py_max_key (count_occurrences samples) = Ok to_replace ->
  dict_keys (count_occurrences samples) = first_seen (scanned_pairs samples)
  /\ exists before after,
       first_seen (scanned_pairs samples) = before ++ to_replace :: after
       /\ forall q, q ∈ before ->
            pair_count q samples < pair_count to_replace samples.
Proof.
  intros Hmax.
  assert (dict_keys (count_occurrences samples)
          = first_seen (scanned_pairs samples)) as Hkeys.
  { rewrite count_occurrences_scanned. apply (count_keys_first_seen _ []). }
  split; [done|].
  destruct (py_max_key_first _ _ Hmax) as (before & after & Heq & Hbefore).
  exists before, after. split; [by rewrite <- Hkeys|].
  intros q Hq. specialize (Hbefore q Hq).
  pose proof (count_occurrences_tallied samples) as Htally.
  rewrite (Htally q), (Htally to_replace) in Hbefore. cbn beta in Hbefore.
  destruct (decide (pair_count q samples = 0)),
    (decide (pair_count to_replace samples = 0)); simpl in Hbefore; lia.
Qed.

Lemma ties_go_to_the_first_pair_witness :
  py_max_key (count_occurrences [[[3; 1; 2]; [0; 1; 2; 0; 1]]]%Z) = Ok [1; 2]%Z
  /\ dict_keys (count_occurrences [[[3; 1; 2]; [0; 1; 2; 0; 1]]]%Z)
     = first_seen (scanned_pairs [[[3; 1; 2]; [0; 1; 2; 0; 1]]]%Z)
  /\ exists before after,
       first_seen (scanned_pairs [[[3; 1; 2]; [0; 1; 2; 0; 1]]]%Z)
       = before ++ [1; 2]%Z :: after
       /\ forall q, q ∈ before ->
            pair_count q [[[3; 1; 2]; [0; 1; 2; 0; 1]]]%Z
            < pair_count [1; 2]%Z [[[3; 1; 2]; [0; 1; 2; 0; 1]]]%Z.
Proof.
  split; [reflexivity|].
  apply (ties_go_to_the_first_pair [[[3; 1; 2]; [0; 1; 2; 0; 1]]]%Z [1; 2]%Z).
  reflexivity.
Defined.

(** ** A learning run that fails *)

(** X23: a learning run that does not complete leaves [has_bpe], the merge
    table and the graph as it found them, from a well-formed vocabulary
    with a sound index. (The vocabulary itself may have grown by then: the
    merges registered before the failure stay in it.) *)
Theorem bpe_failure_state self samples vocab_size :
  vocab_ok (vocab self) = true -> index_sound (vocab self) = true ->
  is_ok (bpe self samples vocab_size).2 = false ->
  has_bpe (bpe self samples vocab_size).1 = has_bpe self
  /\ bpe_successions (bpe self samples vocab_size).1 = bpe_successions self
  /\ tokens_types_graph (bpe self samples vocab_size).1
     = tokens_types_graph self.
Proof.
  intros Hok Hidx. unfold bpe. case_decide as Hsize; [|done].
  set (fuel := S _).
  destruct (bpe_loop_ok fuel vocab_size (vocab self) samples Hok Hidx)
    as [Hok' Hidx'].
  destruct (bpe_loop fuel vocab_size (vocab self) samples)
    as [v [samples1| |]] eqn:Hloop; [|done..].
  cbn [fst] in Hok', Hidx'.
  destruct (set_successions_ok v Hok' Hidx') as (succs & -> & _).
  case_decide as Hsum; [|done]. exfalso.
  by apply (bpe_loop_sum vocab_size fuel (vocab self) samples v samples1
              ltac:(lia) Hloop).
Qed.

Lemma bpe_failure_state_witness :
  vocab_ok (vocab Scenario.tokenizer) = true
  /\ index_sound (vocab Scenario.tokenizer) = true
  /\ is_ok (bpe Scenario.tokenizer [[[0; 1]]]%Z 6).2 = false
  /\ has_bpe (bpe Scenario.tokenizer [[[0; 1]]]%Z 6).1
     = has_bpe Scenario.tokenizer
  /\ bpe_successions (bpe Scenario.tokenizer [[[0; 1]]]%Z 6).1
     = bpe_successions Scenario.tokenizer
  /\ tokens_types_graph (bpe Scenario.tokenizer [[[0; 1]]]%Z 6).1
     = tokens_types_graph Scenario.tokenizer.
Proof.
  split; [vm_compute; reflexivity|].
  split; [vm_compute; reflexivity|].
  split; [vm_compute; reflexivity|].
  apply (bpe_failure_state Scenario.tokenizer [[[0; 1]]]%Z 6);
    vm_compute; reflexivity.
Defined.

Lemma bpe_learns_codec_witness :
  vocab_ok (vocab Scenario.tokenizer) = true
  /\ index_sound (vocab Scenario.tokenizer) = true
  /\ bpe Scenario.tokenizer Scenario.corpus 5
     = (Scenario.learned, Ok [[[4; 4; 2]]]%Z)
  /\ has_bpe Scenario.learned = true
  /\ codec_ok Scenario.learned = true
  /\ merges_take_two Scenario.learned = true.
Proof.
  split; [vm_compute; reflexivity|].
  split; [vm_compute; reflexivity|].
  split; [vm_compute; reflexivity|].
  apply (bpe_learns_codec Scenario.tokenizer Scenario.corpus 5
           Scenario.learned [[[4; 4; 2]]]%Z);
    vm_compute; reflexivity.
Defined.

(** ** Beat resolutions, saved and loaded *)

Lemma split_beat_range k1 k2 :
  (0 <= k1)%Z ->
  Str.split "_" (Str.of_int k1 ++ "_" ++ Str.of_int k2)%string
  = Str.of_int k1 :: Str.split "_" (Str.of_int k2).
Proof.
  intros H1. change ("_" ++ ?s)%string with (String "_" s).
  apply StrFacts.split_app_sep. by apply StrFacts.of_int_lacks.
Qed.

Lemma read_beat_range k1 k2 :
  (0 <= k1)%Z -> (0 <= k2)%Z ->
  map_result Str.to_int
             (Str.split "_" (Str.of_int k1 ++ "_" ++ Str.of_int k2)%string)
  = Ok [k1; k2].
Proof.
  intros H1 H2. rewrite split_beat_range by done.
  rewrite (StrFacts.split_lacks "_" (Str.of_int k2))
    by (by apply StrFacts.of_int_lacks).
  cbn [map_result]. by rewrite !StrFacts.to_int_of_int.
Qed.

Lemma read_beat_ranges {V} (beat_res : dict (Z * Z) V) :
  Forall (fun kv => (0 <= kv.1.1)%Z /\ (0 <= kv.1.2)%Z) beat_res ->
  map_result (fun kv : string * V =>
                beat_range ← map_result Str.to_int (Str.split "_" kv.1);
                Ok (beat_range, kv.2))
             (map (fun kv : Z * Z * V =>
                     (Str.of_int kv.1.1 ++ "_" ++ Str.of_int kv.1.2, kv.2)%string)
                  beat_res)
  = Ok (map (fun kv => ([kv.1.1; kv.1.2], kv.2)) beat_res).
Proof.
  induction 1 as [|[[k1 k2] v] beat_res [H1 H2] _ IH]; [done|].
  cbn [map map_result fst snd] in *.
  rewrite read_beat_range by done. cbn [mbind result_bind]. by rewrite IH.
Qed.

(** X25: the beat resolutions come back from the parameter file. For beat
    ranges with non-negative bounds, the dictionary that [load_params]
    builds from the one [save_params] wrote has, in the same order, the
    beat ranges of the original as its keys, each with its resolution. *)
Theorem beat_res_round_trip {V} (beat_res : dict (Z * Z) V) :
  NoDup (dict_keys beat_res) ->
  Forall (fun kv => (0 <= kv.1.1)%Z /\ (0 <= kv.1.2)%Z) beat_res ->
  load_beat_res (save_beat_res beat_res)
  = Ok (map (fun kv => ([kv.1.1; kv.1.2], kv.2)) beat_res).
Proof.
  intros Hnd Hnn. unfold save_beat_res, load_beat_res.
  pose proof Hnn as Hall. rewrite Forall_forall in Hall.
  rewrite dict_of_items_nodup.
  - rewrite read_beat_ranges by done. cbn [fmap result_fmap]. f_equal.
    apply dict_of_items_nodup. rewrite map_map. cbn [fst].
    rewrite <- (map_map fst (fun k : Z * Z => [k.1; k.2])).
    apply NoDup_fmap_2_strong; [|done].
    intros [k1 k2] [k1' k2'] _ _. cbn [fst snd]. by intros [= -> ->].
  - rewrite map_map. cbn [fst].
    rewrite <- (map_map fst (fun k : Z * Z =>
                               Str.of_int k.1 ++ "_" ++ Str.of_int k.2)%string).
    apply NoDup_fmap_2_strong; [|done].
    intros [k1 k2] [k1' k2'] ([[k1a k2a] v] & Heq & Hin)%list_elem_of_fmap
           ([[k1b k2b] v'] & Heq' & Hin')%list_elem_of_fmap.
    cbn [fst snd] in *. injection Heq as -> ->. injection Heq' as -> ->.
    destruct (Hall _ Hin) as [H1 H2]. destruct (Hall _ Hin') as [H1' H2'].
    cbn [fst snd] in *. intros Hstr.
    pose proof (read_beat_range k1a k2a H1 H2) as Hr.
    rewrite Hstr, read_beat_range in Hr by done. by injection Hr as -> ->.
Qed.

Lemma beat_res_round_trip_witness :
  NoDup (dict_keys [((0, 4), 8); ((4, 12), 4)]%Z)
  /\ Forall (fun kv : Z * Z * Z => (0 <= kv.1.1)%Z /\ (0 <= kv.1.2)%Z)
            [((0, 4), 8); ((4, 12), 4)]%Z
  /\ load_beat_res (save_beat_res [((0, 4), 8); ((4, 12), 4)]%Z)
     = Ok (map (fun kv : Z * Z * Z => ([kv.1.1; kv.1.2], kv.2))
               [((0, 4), 8); ((4, 12), 4)]%Z).
Proof.
  assert (NoDup (dict_keys [((0, 4), 8); ((4, 12), 4)]%Z)) as H1
    by compute_done.
  assert (Forall (fun kv : Z * Z * Z => (0 <= kv.1.1)%Z /\ (0 <= kv.1.2)%Z)
                 [((0, 4), 8); ((4, 12), 4)]%Z) as H2
    by (repeat constructor; simpl; lia).
  split; [exact H1|]. split; [exact H2|].
  apply (beat_res_round_trip [((0, 4), 8); ((4, 12), 4)]%Z H1 H2).
Defined.
